(** * argus-mcp: model providers with retry logic and fallback support

    A shallow embedding of [src/models.py]: the diagnostics log
    ([log_error], [get_error_log], [clear_error_log],
    [format_error_for_user]), the provider class ([ModelProvider]) with its
    retry wrapper, and the manager ([ModelManager]) with its fallback sweep.

    Conventions of the embedding:
    - Python [str] is [string]; slices [s[:n]] count characters, and
      [lower] folds the ASCII letters only.
    - Python objects that are shared and mutated (the module-level list
      [_error_log], the lists returned by [get_error_log], the entry
      dicts) live in a heap addressed by [loc]; the rest are values.
    - [async] code runs as one sequential task: a computation is a
      function from the [world] to a result or a raised exception and the
      next world.  Network calls, sleeps and writes to stderr are recorded
      in the world's [trace].
    - Python [float] is the binary64 type [float] of [PrimFloat]; Python
      [int] is [Z], of any size; the division of two ints rounds the exact
      quotient once ([SFdiv] on the integers themselves).
    - The names imported from [config], which is not among the sources,
      are the fields of the class [Config]; the remote endpoints and the
      clock are the fields of the class [Network]. *)

From Stdlib Require Import ZArith Floats Ascii String.
From stdpp Require Import gmap strings list pretty.

Set Warnings "-register-all,-inexact-float".
Set Default Proof Using "Type".

Open Scope Z_scope.

(** ** Python strings *)

Module PyStr.

(** [s[:n]] *)
Fixpoint take (n : nat) (s : string) : string :=
  match n, s with
  | S n', String c s' => String c (take n' s')
  | _, _ => EmptyString
  end.

Definition lower_ascii (c : ascii) : ascii :=
  let n := nat_of_ascii c in
  if ((65 <=? n) && (n <=? 90))%nat then ascii_of_nat (n + 32) else c.

(** [s.lower()] *)
Fixpoint lower (s : string) : string :=
  match s with
  | EmptyString => EmptyString
  | String c s' => String (lower_ascii c) (lower s')
  end.

(** [needle in hay] *)
Fixpoint contains (needle hay : string) : bool :=
  String.prefix needle hay ||
  match hay with
  | EmptyString => false
  | String _ hay' => contains needle hay'
  end.

(** [sep.join(parts)] *)
Definition join (sep : string) (parts : list string) : string :=
  String.concat sep parts.

Definition single_quote : ascii := ascii_of_nat 39.
Definition double_quote : ascii := ascii_of_nat 34.
Definition backslash : ascii := ascii_of_nat 92.

Definition hex_digit (n : nat) : ascii :=
  default "0"%char (list_ascii_of_string "0123456789abcdef" !! n).

(** One character of [repr(s)] inside the quotes [quote]: the quote and
    the backslash are escaped, tab, newline and carriage return have their
    letters, the other control characters are written [\xhh].  Characters
    beyond ASCII stand for themselves, as the printable ones do in
    Python. *)
Definition repr_char (quote c : ascii) : string :=
  let n := nat_of_ascii c in
  if Ascii.eqb c quote || Ascii.eqb c backslash
  then String backslash (String c EmptyString)
  else if (n =? 9)%nat then String backslash "t"
  else if (n =? 10)%nat then String backslash "n"
  else if (n =? 13)%nat then String backslash "r"
  else if (n <? 32)%nat || (n =? 127)%nat
  then String backslash
         (String "x" (String (hex_digit (n / 16))
                             (String (hex_digit (n mod 16)) EmptyString)))
  else String c EmptyString.

(** [repr(s)]: single quotes, unless the string holds a single quote and
    no double quote. *)
Definition repr (s : string) : string :=
  let quote :=
    if contains (String single_quote EmptyString) s &&
       negb (contains (String double_quote EmptyString) s)
    then double_quote else single_quote in
  String quote
    (String.concat EmptyString
       (map (repr_char quote) (list_ascii_of_string s)) +:+
     String quote EmptyString).

(** [repr] of a list of strings, which is also its [str] and what an
    f-string shows. *)
Definition repr_list (l : list string) : string :=
  "[" +:+ join ", " (map repr l) +:+ "]".

End PyStr.

Arguments PyStr.take : simpl never.
Arguments PyStr.lower : simpl never.
Arguments PyStr.contains : simpl never.

(** ** Data model *)

Definition loc := nat.

(** JSON documents as [response.json()] returns them. *)
Inductive json :=
| JNull
| JBool (b : bool)
| JInt (z : Z)
| JFloat (f : float)
| JStr (s : string)
| JArr (l : list json)
| JObj (m : gmap string json).

(** The exceptions the code distinguishes.  [HTTPStatusError] carries
    [e.response.status_code] and [e.response.text]; every exception
    carries [str(e)].  [PyException] is any other subclass of
    [Exception], with [type(e).__name__].  The subclasses of
    [TimeoutException] are not told apart, and exceptions outside
    [Exception] (cancellation, keyboard interrupt) are not modelled: no
    [except] clause of the module catches them. *)
Inductive exn :=
| HTTPStatusError (status_code : Z) (text : string) (msg : string)
| TimeoutException (msg : string)
| ConnectError (msg : string)
| PyException (type_name : string) (msg : string).

Definition exn_type_name (e : exn) : string :=
  match e with
  | HTTPStatusError _ _ _ => "HTTPStatusError"
  | TimeoutException _ => "TimeoutException"
  | ConnectError _ => "ConnectError"
  | PyException n _ => n
  end.

Definition exn_str (e : exn) : string :=
  match e with
  | HTTPStatusError _ _ m | TimeoutException m | ConnectError m
  | PyException _ m => m
  end.

(** One entry of [MODELS].  [timeout] and [cost_per_1k_tokens] are read
    with [.get] and a default, so they may be absent. *)
Record ModelConfig := {
  name : string;
  provider : string;
  base_url : string;
  model_id : string;
  api_key : string;
  enabled : bool;
  timeout : option Z;
  cost_per_1k_tokens : option float
}.

Record message := { role : string; content : string }.

(** An entry of [_error_log]. *)
Record log_entry := {
  timestamp : string;
  model : string;
  error_type : string;
  details : string;
  status_code : option Z
}.

(** The value under ["error_code"]: an HTTP status or a tag such as
    ["TIMEOUT"]. *)
Inductive error_code :=
| CodeInt (z : Z)
| CodeStr (s : string).

#[global] Instance error_code_eq_dec : EqDecision error_code.
Proof. solve_decision. Defined.

(** The dict [verify_code] returns with ["success": True]; the last two
    keys are absent until the fallback sweep adds them. *)
Record success_result := {
  verdict : json;
  s_model : string;
  s_model_key : string;
  tokens_used : json;
  cost : float;
  fallback_used : option bool;
  primary_model_failed : option string
}.

(** The dict [verify_code] returns with ["success": False]; [f_error_code]
    is [None] where the key is absent. *)
Record failure_result := {
  f_error : string;
  f_error_code : option error_code;
  f_model : string;
  f_model_key : string
}.

Inductive call_outcome :=
| Success (s : success_result)
| Failure (f : failure_result).

(** An element of [errors_collected]; [cf_error_code] is [None] where the
    key is absent or its value is [None]. *)
Record collected_failure := {
  cf_model : string;
  cf_error : string;
  cf_error_code : option error_code
}.

(** The dict of the exhaustion phase (its ["model"] is ["None"] and its
    ["model_key"] is [None]). *)
Record all_failed_result := {
  af_error : string;
  af_error_details : string;
  af_recommendations : list string;
  af_errors : list collected_failure
}.

Inductive fallback_result :=
| FSuccess (s : success_result)
| AllFailed (a : all_failed_result).

(** A provider object: its identity and the two attributes [__init__]
    sets. *)
Record ModelProvider := {
  self_id : loc;
  config : ModelConfig;
  model_key : string
}.

Inductive event :=
| EvApiCall (key : string) (messages : list message)
            (temperature : float) (max_tokens : Z)
| EvSleep (seconds : Z)
| EvStderr (line : string).

(** ** The names imported from [config] and the environment *)

(** [config.py] is not part of the sources at hand: its constants and
    [get_fallback_models] are the fields of this class. *)
Class Config := {
  MODELS : gmap string ModelConfig;
  DEFAULT_TEMPERATURE : float;
  DEFAULT_MAX_TOKENS : Z;
  RETRY_ATTEMPTS : Z;
  RETRY_MIN_WAIT : Z;
  RETRY_MAX_WAIT : Z;
  RETRY_STATUS_CODES : list Z;
  get_fallback_models : string → list string
}.

(** What the process cannot decide: the remote endpoint behind
    [client.post ... raise_for_status ... response.json()], as a
    transition of an arbitrary state, and the clock read by
    [datetime.now().isoformat()]. *)
Class Network := {
  NetState : Type;
  http_post : ModelConfig → list message → float → Z →
              NetState → (exn + json) * NetState;
  isoformat : nat → string
}.

(** ** Python values *)

Definition NL : string := String (ascii_of_nat 10) EmptyString.

(** [type(x).__name__] of a JSON value. *)
Definition json_type_name (x : json) : string :=
  match x with
  | JNull => "NoneType"
  | JBool _ => "bool"
  | JInt _ => "int"
  | JFloat _ => "float"
  | JStr _ => "str"
  | JArr _ => "list"
  | JObj _ => "dict"
  end.

(** [bool(x)] *)
Definition truthy (x : json) : bool :=
  match x with
  | JNull => false
  | JBool b => b
  | JInt z => negb (z =? 0)
  | JFloat f => negb (PrimFloat.eqb f 0)
  | JStr s => negb (String.eqb s EmptyString)
  | JArr l => negb (Nat.eqb (length l) 0)
  | JObj m => negb (Nat.eqb (size m) 0)
  end.

Definition not_subscriptable {A} (x : json) : exn + A :=
  inl (PyException "TypeError"
         ("'" +:+ json_type_name x +:+ "' object is not subscriptable")).

(** [x[key]] for a string [key]; the messages are CPython's. *)
Definition getitem_str (x : json) (key : string) : exn + json :=
  match x with
  | JObj m =>
      match m !! key with
      | Some v => inr v
      | None => inl (PyException "KeyError" ("'" +:+ key +:+ "'"))
      end
  | JArr _ =>
      inl (PyException "TypeError"
             "list indices must be integers or slices, not str")
  | JStr _ =>
      inl (PyException "TypeError"
             "string indices must be integers, not 'str'")
  | _ => not_subscriptable x
  end.

(** [x[i]] for an index [i >= 0].  The keys of a JSON object are strings,
    so an integer key is never found. *)
Definition getitem_int (x : json) (i : nat) : exn + json :=
  match x with
  | JArr l =>
      match l !! i with
      | Some v => inr v
      | None => inl (PyException "IndexError" "list index out of range")
      end
  | JStr s =>
      match String.get i s with
      | Some c => inr (JStr (String c EmptyString))
      | None => inl (PyException "IndexError" "string index out of range")
      end
  | JObj _ => inl (PyException "KeyError" (pretty i))
  | _ => not_subscriptable x
  end.

(** [x.get(key, dflt)] *)
Definition dict_get (x : json) (key : string) (dflt : json) : exn + json :=
  match x with
  | JObj m => inr (default dflt (m !! key))
  | _ =>
      inl (PyException "AttributeError"
             ("'" +:+ json_type_name x +:+ "' object has no attribute 'get'"))
  end.

(** [a / b] on two ints, as CPython's [long_true_divide] computes it: the
    exact quotient of the two integers, whatever their size, is rounded
    once to the nearest float, ties to even.  A zero divisor raises
    [ZeroDivisionError]; a quotient that rounds beyond the largest float
    raises [OverflowError]; a quotient too small for a float is a zero
    with the sign of the quotient. *)
Definition int_truediv (a b : Z) : exn + float :=
  if b =? 0 then inl (PyException "ZeroDivisionError" "division by zero")
  else if a =? 0 then inr (if b <? 0 then (-0)%float else 0%float)
  else
    let q :=
      SFdiv prec emax
            (S754_finite (a <? 0) (Z.to_pos (Z.abs a)) 0)
            (S754_finite (b <? 0) (Z.to_pos (Z.abs b)) 0) in
    match q with
    | S754_infinity _ =>
        inl (PyException "OverflowError"
               "integer division result too large for a float")
    | _ => inr (SF2Prim q)
    end.

(** [x / 1000].  A [bool] is an [int]; a float is divided by the float
    [1000.0], which no operand makes raise. *)
Definition truediv_1000 (x : json) : exn + float :=
  match x with
  | JInt z => int_truediv z 1000
  | JBool b => int_truediv (if b then 1 else 0) 1000
  | JFloat f => inr (PrimFloat.div f 1000%float)
  | _ =>
      inl (PyException "TypeError"
             ("unsupported operand type(s) for /: '" +:+ json_type_name x
              +:+ "' and 'int'"))
  end.

(** ** [format_error_for_user] *)

(** [errors[-n:]] *)
Definition last_n {A} (n : nat) (l : list A) : list A :=
  drop (length l - n) l.

(** The two lines appended for one entry. *)
Definition entry_lines (err : log_entry) : list string :=
  let status :=
    match status_code err with
    | Some c => if negb (c =? 0) then " (HTTP " +:+ pretty c +:+ ")"
                else EmptyString
    | None => EmptyString
    end in
  [ "- **" +:+ model err +:+ "**: " +:+ error_type err +:+ status;
    "  - " +:+ PyStr.take 150 (details err) ].

Definition has_status (code : Z) (errors : list log_entry) : bool :=
  existsb (λ e, bool_decide (status_code e = Some code)) errors.

Definition has_text (needle : string) (errors : list log_entry) : bool :=
  existsb (λ e, PyStr.contains needle (PyStr.lower (details e))) errors.

Definition cause_invalid_key : string :=
  "- **Invalid API Key**: Check your `.env` file. Keys may be expired or incorrect.".
Definition cause_rate_limited : string :=
  "- **Rate Limited**: You've hit the API rate limit. Wait a few minutes.".
Definition cause_timeout : string :=
  "- **Timeout**: API is slow or overloaded. Try again later or reduce payload size.".
Definition cause_connection : string :=
  "- **Connection Error**: Network issue. Check your internet connection.".
Definition cause_status_pages : string :=
  "- Check API provider status pages (z.ai, OpenRouter)".
Definition cause_credits : string :=
  "- Verify API keys are valid and have credits".

(** The list [lines] at the [return] of a call on a non-empty list. *)
Definition format_lines (errors : list log_entry) : list string :=
  let lines := ["## Recent Errors" +:+ NL] in
  let lines :=
    fold_left (λ lines err, lines ++ entry_lines err)
              (last_n 5 errors) lines in
  let lines := lines ++ [NL +:+ "## Possible Causes" +:+ NL] in
  let has_401 := has_status 401 errors in
  let has_429 := has_status 429 errors in
  let has_timeout := has_text "timeout" errors in
  let has_connection := has_text "connect" errors in
  let lines := if has_401 then lines ++ [cause_invalid_key] else lines in
  let lines := if has_429 then lines ++ [cause_rate_limited] else lines in
  let lines := if has_timeout then lines ++ [cause_timeout] else lines in
  let lines :=
    if has_connection then lines ++ [cause_connection] else lines in
  let lines :=
    if negb (has_401 || has_429 || has_timeout || has_connection)
    then lines ++ [cause_status_pages; cause_credits] else lines in
  lines.

Definition format_error_for_user (errors : list log_entry) : string :=
  match errors with
  | [] => "No errors recorded."
  | _ => PyStr.join NL (format_lines errors)
  end.

(** ** Worlds and computations *)

Section Models.
Context {cfg : Config} {network : Network}.

(** The mutable state of the process: the heap of list objects and of
    log-entry dicts, the next free address, the [_providers] dict of the
    manager [_manager], the state of the remote endpoints, the clock, and
    the effects performed so far. *)
Record world := {
  heap_lists : gmap loc (list loc);
  heap_dicts : gmap loc log_entry;
  next_loc : loc;
  providers : gmap string ModelProvider;
  net : NetState;
  clock : nat;
  trace : list event
}.

(** A computation returns a value or raises, and leaves a new world. *)
Definition M (A : Type) : Type := world → (exn + A) * world.

Definition ret {A} (a : A) : M A := λ w, (inr a, w).

Definition raise {A} (e : exn) : M A := λ w, (inl e, w).

Definition bind {A B} (m : M A) (k : A → M B) : M B := λ w,
  match m w with
  | (inr a, w') => k a w'
  | (inl e, w') => (inl e, w')
  end.

(** [try: m / except Exception as e: h e] *)
Definition try_except {A} (m : M A) (h : exn → M A) : M A := λ w,
  match m w with
  | (inr a, w') => (inr a, w')
  | (inl e, w') => h e w'
  end.

(** A pure step that may raise. *)
Definition lift {A} (r : exn + A) : M A := λ w, (r, w).

Notation "x <- m ;; k" := (bind m (λ x, k))
  (at level 100, m at next level, right associativity).
Notation "m ;;; k" := (bind m (λ _, k))
  (at level 100, right associativity).

Definition emit (ev : event) : M unit := λ w,
  (inr tt,
   {| heap_lists := heap_lists w; heap_dicts := heap_dicts w;
      next_loc := next_loc w; providers := providers w; net := net w;
      clock := clock w; trace := trace w ++ [ev] |}).

(** [await asyncio.sleep(seconds)] *)
Definition sleep (seconds : Z) : M unit := emit (EvSleep seconds).

(** ** The diagnostics log *)

(** The address of the list bound to the module-level name [_error_log]. *)
Definition error_log_loc : loc := 0%nat.

(** The state after the module is imported: [_error_log = []] and
    [_manager = ModelManager()]. *)
Definition init_world (n : NetState) : world :=
  {| heap_lists := {[ error_log_loc := [] ]}; heap_dicts := ∅;
     next_loc := 1%nat; providers := ∅; net := n; clock := 0%nat;
     trace := [] |}.

(** The list object at [l]. *)
Definition list_at (w : world) (l : loc) : list loc :=
  default [] (heap_lists w !! l).

(** The entries a list object holds, dereferenced. *)
Definition entries_at (w : world) (l : loc) : list log_entry :=
  omap (λ d, heap_dicts w !! d) (list_at w l).

(** The contents of [_error_log]. *)
Definition error_log (w : world) : list log_entry :=
  entries_at w error_log_loc.

Definition log_error (model error_type details : string)
    (status_code : option Z) : M unit := λ w,
  let entry :=
    {| timestamp := isoformat (clock w); model := model;
       error_type := error_type; details := PyStr.take 500 details;
       status_code := status_code |} in
  let d := next_loc w in
  let appended := list_at w error_log_loc ++ [d] in
  let kept :=
    if (50 <? length appended)%nat then tail appended else appended in
  emit (EvStderr ("[ARGUS ERROR] " +:+ model +:+ ": " +:+ error_type +:+
                  " - " +:+ PyStr.take 200 details))
    {| heap_lists := <[error_log_loc := kept]> (heap_lists w);
       heap_dicts := <[d := entry]> (heap_dicts w);
       next_loc := S d; providers := providers w; net := net w;
       clock := S (clock w); trace := trace w |}.

(** [_error_log.copy()]: a new list object holding the same entries. *)
Definition get_error_log : M loc := λ w,
  let r := next_loc w in
  (inr r,
   {| heap_lists := <[r := list_at w error_log_loc]> (heap_lists w);
      heap_dicts := heap_dicts w; next_loc := S r;
      providers := providers w; net := net w; clock := clock w;
      trace := trace w |}).

Definition clear_error_log : M unit := λ w,
  (inr tt,
   {| heap_lists := <[error_log_loc := []]> (heap_lists w);
      heap_dicts := heap_dicts w; next_loc := next_loc w;
      providers := providers w; net := net w; clock := clock w;
      trace := trace w |}).

(** ** [ModelProvider] *)

(** [ModelProvider(model_key)]: the object is allocated, then [__init__]
    runs. *)
Definition ModelProvider__init__ (model_key : string) : M ModelProvider :=
  λ w,
  let w' :=
    {| heap_lists := heap_lists w; heap_dicts := heap_dicts w;
       next_loc := S (next_loc w); providers := providers w;
       net := net w; clock := clock w; trace := trace w |} in
  match MODELS !! model_key with
  | None =>
      raise (PyException "ValueError" ("Unknown model: " +:+ model_key)) w'
  | Some config =>
      if negb (enabled config) then
        raise (PyException "ValueError"
                 ("Model " +:+ model_key +:+
                  " is not enabled (missing API key)")) w'
      else
        ret {| self_id := next_loc w; config := config;
               model_key := model_key |} w'
  end.

(** One request to the endpoint of the provider's model. *)
Definition _call_api (self : ModelProvider) (messages : list message)
    (temperature : float) (max_tokens : Z) : M json := λ w,
  let '(r, n) :=
    http_post (config self) messages temperature max_tokens (net w) in
  (r,
   {| heap_lists := heap_lists w; heap_dicts := heap_dicts w;
      next_loc := next_loc w; providers := providers w; net := n;
      clock := clock w;
      trace := trace w ++
               [EvApiCall (model_key self) messages temperature
                          max_tokens] |}).

(** [min(RETRY_MIN_WAIT * (2 ** attempt), RETRY_MAX_WAIT)] *)
Definition wait_time (attempt : nat) : Z :=
  Z.min (RETRY_MIN_WAIT * 2 ^ Z.of_nat attempt) RETRY_MAX_WAIT.

(** [raise last_error] after the loop: raising [None] is a [TypeError]. *)
Definition raise_last {A} (last_error : option exn) : M A :=
  match last_error with
  | Some e => raise e
  | None =>
      raise (PyException "TypeError"
               "exceptions must derive from BaseException")
  end.

(** The [for attempt in ...] loop over the attempts still to make.  The
    body returns the result, raises, or falls through to the next
    attempt with the error it caught. *)
Fixpoint retry_loop (self : ModelProvider) (messages : list message)
    (temperature : float) (max_tokens : Z) (attempts : list nat)
    (last_error : option exn) : M json :=
  match attempts with
  | [] => raise_last last_error
  | attempt :: rest =>
      r <- try_except
             (result <- _call_api self messages temperature max_tokens ;;
              ret (inl result))
             (λ e,
                match e with
                | HTTPStatusError code _ _ =>
                    if negb (bool_decide (code ∈ RETRY_STATUS_CODES))
                    then raise e
                    else
                      (if bool_decide (Z.of_nat attempt < RETRY_ATTEMPTS - 1)
                       then sleep (wait_time attempt) else ret tt) ;;;
                      ret (inr e)
                | _ => raise e
                end) ;;
      match r with
      | inl result => ret result
      | inr e =>
          retry_loop self messages temperature max_tokens rest (Some e)
      end
  end.

Definition _call_api_with_retry (self : ModelProvider)
    (messages : list message) (temperature : float) (max_tokens : Z)
    : M json :=
  retry_loop self messages temperature max_tokens
             (seq 0 (Z.to_nat RETRY_ATTEMPTS)) None.

Definition _calculate_cost (self : ModelProvider) (usage : json)
    : exn + float :=
  if negb (truthy usage) then inr 0%float
  else
    match dict_get usage "total_tokens" (JInt 0) with
    | inl e => inl e
    | inr total_tokens =>
        let cost_per_1k :=
          default 0%float (cost_per_1k_tokens (config self)) in
        match truediv_1000 total_tokens with
        | inl e => inl e
        | inr q => inr (PrimFloat.mul q cost_per_1k)
        end
    end.

(** [data["choices"][0]["message"]["content"]] *)
Definition extract_verdict (data : json) : exn + json :=
  match getitem_str data "choices" with
  | inl e => inl e
  | inr choices =>
      match getitem_int choices 0 with
      | inl e => inl e
      | inr choice =>
          match getitem_str choice "message" with
          | inl e => inl e
          | inr msg => getitem_str msg "content"
          end
      end
  end.

Definition failure (self : ModelProvider) (error : string)
    (code : option error_code) : call_outcome :=
  Failure {| f_error := error; f_error_code := code;
             f_model := name (config self);
             f_model_key := model_key self |}.

(** The dict built on the success path: the verdict, then the usage and
    the cost, each of which may raise. *)
Definition success_of (self : ModelProvider) (data : json)
    : exn + success_result :=
  match extract_verdict data with
  | inl e => inl e
  | inr verdict =>
      match dict_get data "usage" (JObj ∅) with
      | inl e => inl e
      | inr usage =>
          match _calculate_cost self usage with
          | inl e => inl e
          | inr cost =>
              inr {| verdict := verdict; s_model := name (config self);
                     s_model_key := model_key self; tokens_used := usage;
                     cost := cost; fallback_used := None;
                     primary_model_failed := None |}
          end
      end
  end.

(** The four [except] clauses of [verify_code], in their order. *)
Definition verify_code_except (self : ModelProvider) (e : exn)
    : M call_outcome :=
  match e with
  | HTTPStatusError code text _ =>
      let error_msg :=
        "API Error: " +:+ pretty code +:+ " - " +:+ PyStr.take 300 text in
      log_error (model_key self) "HTTP Error" error_msg (Some code) ;;;
      ret (failure self error_msg (Some (CodeInt code)))
  | TimeoutException _ =>
      let error_msg :=
        "Request timed out after " +:+
        pretty (default 60 (timeout (config self))) +:+ "s" in
      log_error (model_key self) "Timeout" error_msg None ;;;
      ret (failure self error_msg (Some (CodeStr "TIMEOUT")))
  | ConnectError msg =>
      let error_msg := "Connection failed: " +:+ msg in
      log_error (model_key self) "Connection Error" error_msg None ;;;
      ret (failure self error_msg (Some (CodeStr "CONNECTION_ERROR")))
  | PyException type_name msg =>
      let error_msg := type_name +:+ ": " +:+ msg in
      log_error (model_key self) type_name error_msg None ;;;
      ret (failure self error_msg None)
  end.

Definition verify_code (self : ModelProvider)
    (system_prompt user_message : string) : M call_outcome :=
  let messages :=
    [ {| role := "system"; content := system_prompt |};
      {| role := "user"; content := user_message |} ] in
  try_except
    (data <- _call_api_with_retry self messages DEFAULT_TEMPERATURE
                                  DEFAULT_MAX_TOKENS ;;
     s <- lift (success_of self data) ;;
     ret (Success s))
    (verify_code_except self).

(** ** [ModelManager] *)

Definition get_provider (model_key : string) : M ModelProvider := λ w,
  match providers w !! model_key with
  | Some p => ret p w
  | None =>
      (p <- ModelProvider__init__ model_key ;;
       λ w1,
         ret p
           {| heap_lists := heap_lists w1; heap_dicts := heap_dicts w1;
              next_loc := next_loc w1;
              providers := <[model_key := p]> (providers w1);
              net := net w1; clock := clock w1; trace := trace w1 |}) w
  end.

Definition collect (model : string) (f : failure_result)
    : collected_failure :=
  {| cf_model := model; cf_error := f_error f;
     cf_error_code := f_error_code f |}.

(** The [except Exception as e] clause of both [try] blocks. *)
Definition provider_error (model : string) (e : exn)
    : M collected_failure :=
  let error_msg := exn_type_name e +:+ ": " +:+ exn_str e in
  log_error model "Provider Error" error_msg None ;;;
  ret {| cf_model := model; cf_error := error_msg;
         cf_error_code := None |}.

(** The [for model_key in fallback_models] loop. *)
Fixpoint fallback_sweep (system_prompt user_message primary_model : string)
    (fallback_models : list string)
    (errors_collected : list collected_failure)
    : M (success_result + list collected_failure) :=
  match fallback_models with
  | [] => ret (inr errors_collected)
  | model_key :: rest =>
      r <- try_except
             (provider <- get_provider model_key ;;
              result <- verify_code provider system_prompt user_message ;;
              match result with
              | Success s =>
                  ret (inl {| verdict := verdict s; s_model := s_model s;
                              s_model_key := s_model_key s;
                              tokens_used := tokens_used s;
                              cost := cost s; fallback_used := Some true;
                              primary_model_failed := Some primary_model |})
              | Failure f =>
                  ret (inr (errors_collected ++ [collect model_key f]))
              end)
             (λ e,
                c <- provider_error model_key e ;;
                ret (inr (errors_collected ++ [c]))) ;;
      match r with
      | inl s => ret (inl s)
      | inr errors_collected =>
          fallback_sweep system_prompt user_message primary_model rest
                         errors_collected
      end
  end.

Definition code_truthy (c : option error_code) : bool :=
  match c with
  | Some (CodeInt z) => negb (z =? 0)
  | Some (CodeStr s) => negb (String.eqb s EmptyString)
  | None => false
  end.

Definition rec_api_keys : string := "🔑 Check API keys in `.env` file".
Definition rec_rate_limited : string := "⏳ Rate limited - wait a few minutes".
Definition rec_timeout : string := "⏱️ Timeout - try smaller code or wait".
Definition rec_network : string := "🌐 Network error - check connection".
Definition rec_status_pages : string := "🔍 Check API provider status pages".
Definition rec_credits : string := "💳 Verify API keys have credits".

(** The exhaustion phase: the dict returned when every model failed. *)
Definition all_failed (primary_model : string)
    (fallback_models : list string)
    (errors_collected : list collected_failure) : all_failed_result :=
  let error_details :=
    PyStr.join NL
      (map (λ e, "  - " +:+ cf_model e +:+ ": " +:+
                 PyStr.take 100 (cf_error e)) errors_collected) in
  let recommendations : list string := [] in
  let error_codes :=
    omap cf_error_code
         (filter (λ e, code_truthy (cf_error_code e) = true)
                 errors_collected) in
  let error_texts :=
    PyStr.lower (PyStr.join " " (map cf_error errors_collected)) in
  let recommendations :=
    if bool_decide (CodeInt 401 ∈ error_codes)
    then recommendations ++ [rec_api_keys] else recommendations in
  let recommendations :=
    if bool_decide (CodeInt 429 ∈ error_codes)
    then recommendations ++ [rec_rate_limited] else recommendations in
  let recommendations :=
    if PyStr.contains "timeout" error_texts
    then recommendations ++ [rec_timeout] else recommendations in
  let recommendations :=
    if PyStr.contains "connect" error_texts
    then recommendations ++ [rec_network] else recommendations in
  let recommendations :=
    match recommendations with
    | [] => [rec_status_pages; rec_credits]
    | _ => recommendations
    end in
  {| af_error :=
       "All models failed. Primary: " +:+ primary_model +:+
       ", Fallbacks: " +:+ PyStr.repr_list fallback_models;
     af_error_details := error_details;
     af_recommendations := recommendations;
     af_errors := errors_collected |}.

Definition verify_with_fallback
    (system_prompt user_message primary_model : string)
    : M fallback_result :=
  let errors_collected := [] in
  r <- try_except
         (provider <- get_provider primary_model ;;
          result <- verify_code provider system_prompt user_message ;;
          match result with
          | Success s => ret (inl s)
          | Failure f =>
              ret (inr (errors_collected ++ [collect primary_model f]))
          end)
         (λ e,
            c <- provider_error primary_model e ;;
            ret (inr (errors_collected ++ [c]))) ;;
  match r with
  | inl s => ret (FSuccess s)
  | inr errors_collected =>
      let fallback_models := get_fallback_models primary_model in
      r <- fallback_sweep system_prompt user_message primary_model
                          fallback_models errors_collected ;;
      match r with
      | inl s => ret (FSuccess s)
      | inr errors_collected =>
          ret (AllFailed (all_failed primary_model fallback_models
                                     errors_collected))
      end
  end.

(** ** Vocabulary of the specification *)

(** What [log_error] does to the contents of the log: append, then drop
    the oldest entry once there are more than 50. *)
Definition appended (log : list log_entry) (e : log_entry)
    : list log_entry :=
  let l := log ++ [e] in
  if (50 <? length l)%nat then tail l else l.

(** The arguments of one call of [log_error]. *)
Record log_call := {
  lc_model : string;
  lc_error_type : string;
  lc_details : string;
  lc_status_code : option Z
}.

(** The entry a call stores when the clock shows [tick]. *)
Definition entry_of (tick : nat) (c : log_call) : log_entry :=
  {| timestamp := isoformat tick; model := lc_model c;
     error_type := lc_error_type c;
     details := PyStr.take 500 (lc_details c);
     status_code := lc_status_code c |}.

Definition entries_of (tick : nat) (calls : list log_call)
    : list log_entry :=
  imap (λ i c, entry_of (tick + i) c) calls.

(** A sequence of calls of [log_error]. *)
Fixpoint record_all (calls : list log_call) : M unit :=
  match calls with
  | [] => ret tt
  | c :: calls' =>
      log_error (lc_model c) (lc_error_type c) (lc_details c)
                (lc_status_code c) ;;;
      record_all calls'
  end.

(** A caller mutates the list object at [r] in place ([append], [pop],
    [clear], item assignment, ...), leaving it with [content]. *)
Definition list_assign (r : loc) (content : list loc) (w : world) : world :=
  {| heap_lists := <[r := content]> (heap_lists w);
     heap_dicts := heap_dicts w; next_loc := next_loc w;
     providers := providers w; net := net w; clock := clock w;
     trace := trace w |}.

(** A caller mutates the entry dict at [d] in place. *)
Definition dict_assign (d : loc) (e : log_entry) (w : world) : world :=
  {| heap_lists := heap_lists w;
     heap_dicts := <[d := e]> (heap_dicts w); next_loc := next_loc w;
     providers := providers w; net := net w; clock := clock w;
     trace := trace w |}.

(** The heap is well formed: [_error_log] is allocated, allocated
    addresses lie below [next_loc], and the log holds allocated entries.
    The cache of providers holds objects built by [ModelProvider] for
    their own key. *)
Record wf (w : world) : Prop := {
  wf_log : is_Some (heap_lists w !! error_log_loc);
  wf_lists : ∀ l, is_Some (heap_lists w !! l) → (l < next_loc w)%nat;
  wf_dicts : ∀ d, is_Some (heap_dicts w !! d) → (d < next_loc w)%nat;
  wf_entries :
    ∀ d, d ∈ list_at w error_log_loc → is_Some (heap_dicts w !! d);
  wf_cache :
    ∀ k p, providers w !! k = Some p →
      model_key p = k ∧ MODELS !! k = Some (config p) ∧
      enabled (config p) = true ∧ (self_id p < next_loc w)%nat
}.

(** The operations the module offers to its callers. *)
Inductive step : world → world → Prop :=
| step_log_error m t d s w : step w (log_error m t d s w).2
| step_get_error_log w : step w (get_error_log w).2
| step_clear_error_log w : step w (clear_error_log w).2
| step_get_provider k w : step w (get_provider k w).2
| step_verify_code p sp um w : step w (verify_code p sp um w).2
| step_verify_with_fallback sp um pm w :
    step w (verify_with_fallback sp um pm w).2.

(** The worlds a process can be in. *)
Definition reachable (w : world) : Prop :=
  ∃ n, rtc step (init_world n) w.

(** The state of the endpoint after [i] requests. *)
Fixpoint net_after (c : ModelConfig) (messages : list message)
    (temperature : float) (max_tokens : Z) (i : nat) (n : NetState)
    : NetState :=
  match i with
  | O => n
  | S i' =>
      net_after c messages temperature max_tokens i'
                (http_post c messages temperature max_tokens n).2
  end.

(** The answer to request number [i] (from 0). *)
Definition response (c : ModelConfig) (messages : list message)
    (temperature : float) (max_tokens : Z) (i : nat) (n : NetState)
    : exn + json :=
  (http_post c messages temperature max_tokens
             (net_after c messages temperature max_tokens i n)).1.

Definition retryable (r : exn + json) : Prop :=
  match r with
  | inl (HTTPStatusError code _ _) => code ∈ RETRY_STATUS_CODES
  | _ => False
  end.

Definition non_retryable (r : exn + json) : Prop :=
  match r with
  | inl (HTTPStatusError code _ _) => code ∉ RETRY_STATUS_CODES
  | inl _ => True
  | inr _ => False
  end.

#[global] Instance retryable_dec r : Decision (retryable r).
Proof.
  destruct r as [[code text msg| | |]|]; cbn;
    first [apply _ | right; tauto].
Defined.

#[global] Instance non_retryable_dec r : Decision (non_retryable r).
Proof.
  destruct r as [[code text msg| | |]|]; cbn;
    first [apply _ | left; exact I | right; tauto].
Defined.

(** The events of [n] attempts that all ask for a retry: each attempt
    but the last is a request followed by its wait, the last is a request
    alone. *)
Definition exhausted_trace (self : ModelProvider) (messages : list message)
    (temperature : float) (max_tokens : Z) (n : nat) : list event :=
  match n with
  | O => []
  | S n' =>
      mjoin
        (map (λ i,
                [EvApiCall (model_key self) messages temperature max_tokens;
                 EvSleep (Z.min (RETRY_MIN_WAIT * 2 ^ Z.of_nat i)
                                RETRY_MAX_WAIT)])
             (seq 0 n')) ++
      [EvApiCall (model_key self) messages temperature max_tokens]
  end.

(** The keys of the requests among the events. *)
Definition api_calls (evs : list event) : list string :=
  omap (λ ev, match ev with EvApiCall k _ _ _ => Some k | _ => None end)
       evs.

Definition sleeps (evs : list event) : list Z :=
  omap (λ ev, match ev with EvSleep s => Some s | _ => None end) evs.

(** The success dict with the two keys the fallback sweep adds. *)
Definition with_fallback (primary_model : string) (s : success_result)
    : success_result :=
  {| verdict := verdict s; s_model := s_model s;
     s_model_key := s_model_key s; tokens_used := tokens_used s;
     cost := cost s; fallback_used := Some true;
     primary_model_failed := Some primary_model |}.

(** What one [try] block of [verify_with_fallback] runs for a model. *)
Definition attempt (system_prompt user_message key : string)
    : M call_outcome :=
  provider <- get_provider key ;;
  verify_code provider system_prompt user_message.

(** The attempt on [key] fails: it returns a failure, or it raises and
    the error is logged.  The result is the failure collected for it and
    the world it leaves. *)
Definition failed_attempt (system_prompt user_message key : string)
    (w : world) : option (collected_failure * world) :=
  match attempt system_prompt user_message key w with
  | (inr (Success _), _) => None
  | (inr (Failure f), w') => Some (collect key f, w')
  | (inl e, w') =>
      let error_msg := exn_type_name e +:+ ": " +:+ exn_str e in
      Some ({| cf_model := key; cf_error := error_msg;
               cf_error_code := None |},
            (log_error key "Provider Error" error_msg None w').2)
  end.

(** The attempts on [keys], one after the other, all fail. *)
Fixpoint failed_attempts (system_prompt user_message : string)
    (keys : list string) (w : world)
    : option (list collected_failure * world) :=
  match keys with
  | [] => Some ([], w)
  | key :: keys' =>
      match failed_attempt system_prompt user_message key w with
      | None => None
      | Some (c, w') =>
          match failed_attempts system_prompt user_message keys' w' with
          | None => None
          | Some (cs, w'') => Some (c :: cs, w'')
          end
      end
  end.

(** How a failed attempt on a model ended: the resolution of the
    provider raised [e], or the call of the provider [self] raised [e], in
    the retry wrapper or while the success dict was built from the
    answer. *)
Inductive ending :=
| Unresolved (e : exn)
| CallFailed (self : ModelProvider) (e : exn).

(** The failure that is to be collected for [key] after such an ending:
    the message and the error code follow the kind of the exception. *)
Definition collected_for (key : string) (x : ending) : collected_failure :=
  match x with
  | Unresolved e =>
      {| cf_model := key;
         cf_error := exn_type_name e +:+ ": " +:+ exn_str e;
         cf_error_code := None |}
  | CallFailed self (HTTPStatusError code text _) =>
      {| cf_model := key;
         cf_error :=
           "API Error: " +:+ pretty code +:+ " - " +:+ PyStr.take 300 text;
         cf_error_code := Some (CodeInt code) |}
  | CallFailed self (TimeoutException _) =>
      {| cf_model := key;
         cf_error :=
           "Request timed out after " +:+
           pretty (default 60 (timeout (config self))) +:+ "s";
         cf_error_code := Some (CodeStr "TIMEOUT") |}
  | CallFailed self (ConnectError msg) =>
      {| cf_model := key;
         cf_error := "Connection failed: " +:+ msg;
         cf_error_code := Some (CodeStr "CONNECTION_ERROR") |}
  | CallFailed self (PyException type_name msg) =>
      {| cf_model := key;
         cf_error := type_name +:+ ": " +:+ msg;
         cf_error_code := None |}
  end.

(** The call of [log_error] that is to record such an ending: the same
    message, under the key for an exception of the resolution and under
    the provider's key for an exception of its call. *)
Definition logged_for (key : string) (x : ending) : log_call :=
  {| lc_model :=
       match x with
       | Unresolved _ => key
       | CallFailed self _ => model_key self
       end;
     lc_error_type :=
       match x with
       | Unresolved _ => "Provider Error"
       | CallFailed _ (HTTPStatusError _ _ _) => "HTTP Error"
       | CallFailed _ (TimeoutException _) => "Timeout"
       | CallFailed _ (ConnectError _) => "Connection Error"
       | CallFailed _ (PyException type_name _) => type_name
       end;
     lc_details := cf_error (collected_for key x);
     lc_status_code :=
       match x with
       | CallFailed _ (HTTPStatusError code _ _) => Some code
       | _ => None
       end |}.

(** The attempt on [key] fails: how it ended, and the world it is to
    leave, which is the world in which the exception surfaced with the
    ending recorded in the log. *)
Definition failed_ending (system_prompt user_message key : string)
    (w : world) : option (ending * world) :=
  let messages :=
    [ {| role := "system"; content := system_prompt |};
      {| role := "user"; content := user_message |} ] in
  let surfaced :=
    match get_provider key w with
    | (inl e, w1) => Some (Unresolved e, w1)
    | (inr self, w1) =>
        match
          _call_api_with_retry self messages DEFAULT_TEMPERATURE
                               DEFAULT_MAX_TOKENS w1
        with
        | (inl e, w2) => Some (CallFailed self e, w2)
        | (inr data, w2) =>
            match success_of self data with
            | inl e => Some (CallFailed self e, w2)
            | inr _ => None
            end
        end
    end in
  match surfaced with
  | Some (x, w') =>
      let c := logged_for key x in
      Some (x, (log_error (lc_model c) (lc_error_type c) (lc_details c)
                          (lc_status_code c) w').2)
  | None => None
  end.

(** The attempts on [keys], one after the other, all fail: each key with
    the ending of its attempt. *)
Fixpoint failed_endings (system_prompt user_message : string)
    (keys : list string) (w : world)
    : option (list (string * ending) * world) :=
  match keys with
  | [] => Some ([], w)
  | key :: keys' =>
      match failed_ending system_prompt user_message key w with
      | None => None
      | Some (x, w') =>
          match failed_endings system_prompt user_message keys' w' with
          | None => None
          | Some (xs, w'') => Some ((key, x) :: xs, w'')
          end
      end
  end.

(** A log entry records a collected failure. *)
Definition records (c : collected_failure) (e : log_entry) : Prop :=
  model e = cf_model c ∧ details e = PyStr.take 500 (cf_error c) ∧
  status_code e =
    match cf_error_code c with Some (CodeInt z) => Some z | _ => None end.

(** A step that leaves the Python heap, the cache and the clock alone: it
    only talks to the network or sleeps. *)
Definition quiet (w w' : world) : Prop :=
  heap_lists w' = heap_lists w ∧ heap_dicts w' = heap_dicts w ∧
  next_loc w' = next_loc w ∧ providers w' = providers w ∧
  clock w' = clock w.

(** The bounds the log keeps. *)
Definition bounded (w : world) : Prop :=
  (length (error_log w) ≤ 50)%nat ∧
  Forall (λ e, (String.length (details e) ≤ 500)%nat) (error_log w).

(** The invariant of the module, with the providers [ps] known to be
    cached. *)
Definition inv (ps : gmap string ModelProvider) (w : world) : Prop :=
  wf w ∧ bounded w ∧ ps ⊆ providers w.

Definition preserves (P : world → Prop) {A} (m : M A) : Prop :=
  ∀ w, P w → P (m w).2.

(** Between two worlds nothing allocated was overwritten, except the
    list [_error_log]: the other list objects and the entry dicts that
    existed still hold what they held. *)
Definition grows (w w' : world) : Prop :=
  (next_loc w ≤ next_loc w')%nat ∧
  (∀ l, l ≠ error_log_loc → (l < next_loc w)%nat →
        heap_lists w' !! l = heap_lists w !! l) ∧
  (∀ d, (d < next_loc w)%nat → heap_dicts w' !! d = heap_dicts w !! d).

(** [MODELS] holds the key and its config is enabled. *)
Definition enabled_key (key : string) : Prop :=
  ∃ c, MODELS !! key = Some c ∧ enabled c = true.

(** The string holds no space. *)
Fixpoint no_space (s : string) : bool :=
  match s with
  | EmptyString => true
  | String c s' => negb (Ascii.eqb c " ") && no_space s'
  end.

#[global] Instance enabled_key_dec key : Decision (enabled_key key).
Proof.
  unfold enabled_key. destruct (MODELS !! key) as [c|] eqn:Hm.
  - destruct (enabled c) eqn:Hen.
    + left. by exists c.
    + right. intros (c'&[= <-]&Hen'). congruence.
  - right. by intros (c'&[=]&_).
Defined.

End Models.


(** * An example configuration

    Three enabled models and a disabled one.  The endpoint of [glm] is
    overloaded and always answers 503; the endpoint of [gem] answers 401
    while the credential is rejected and a full body otherwise; the
    endpoint of [qwen] answers 200 with an empty JSON object. *)

Module Demo.

Definition glm : ModelConfig :=
  {| name := "GLM 4"; provider := "zai"; base_url := "https://api.z.ai";
     model_id := "glm-4"; api_key := "key-a"; enabled := true;
     timeout := None; cost_per_1k_tokens := None |}.

Definition gem : ModelConfig :=
  {| name := "Gemini"; provider := "openrouter";
     base_url := "https://openrouter.ai/api/v1"; model_id := "gemini";
     api_key := "key-b"; enabled := true; timeout := Some 30;
     cost_per_1k_tokens := Some 0.4%float |}.

Definition qwen : ModelConfig :=
  {| name := "Qwen"; provider := "openrouter";
     base_url := "https://openrouter.ai/api/v1"; model_id := "qwen";
     api_key := "key-c"; enabled := true; timeout := Some 30;
     cost_per_1k_tokens := None |}.

Definition off : ModelConfig :=
  {| name := "Off"; provider := "openrouter";
     base_url := "https://openrouter.ai/api/v1"; model_id := "off";
     api_key := EmptyString; enabled := false; timeout := None;
     cost_per_1k_tokens := None |}.

Definition demo_config : Config :=
  {| MODELS :=
       <["glm" := glm]> (<["gem" := gem]> (<["qwen" := qwen]>
         (<["off" := off]> ∅)));
     DEFAULT_TEMPERATURE := 0.5%float;
     DEFAULT_MAX_TOKENS := 4096;
     RETRY_ATTEMPTS := 3;
     RETRY_MIN_WAIT := 1;
     RETRY_MAX_WAIT := 10;
     RETRY_STATUS_CODES := [429; 500; 502; 503; 504];
     get_fallback_models :=
       λ exclude,
         filter (λ k, k ≠ exclude) ["glm"; "gem"; "qwen"] |}.

Definition review : json :=
  JObj (<["choices" :=
            JArr [JObj (<["message" :=
                            JObj (<["content" := JStr "LGTM"]> ∅)]> ∅)]]>
        (<["usage" := JObj (<["total_tokens" := JInt 2000]> ∅)]> ∅)).

(** The state of the network: whether [gem] accepts the credential. *)
Definition demo_network : Network :=
  {| NetState := bool;
     http_post := λ c _ _ _ accepted,
       (if String.eqb (model_id c) "glm-4" then
          inl (HTTPStatusError 503 "overloaded"
                               "Server error '503 Service Unavailable'")
        else if String.eqb (model_id c) "gemini" then
          if accepted then inr review
          else inl (HTTPStatusError 401 "bad key"
                                    "Client error '401 Unauthorized'")
        else inr (JObj ∅),
        accepted);
     isoformat := λ tick, "2025-01-01T00:00:" +:+ pretty tick |}.

Definition provider_of (key : string) (c : ModelConfig) : ModelProvider :=
  {| self_id := 1%nat; config := c; model_key := key |}.

Definition system_prompt : string := "Review the code.".
Definition user_message : string := "def f(): pass".

Definition request : list message :=
  [ {| role := "system"; content := system_prompt |};
    {| role := "user"; content := user_message |} ].

(** The run in which every model fails: the credential is rejected. *)
Definition all_down
    : list collected_failure * world (network := demo_network) :=
  Eval vm_compute in
    default ([], init_world (network := demo_network) false)
      (failed_attempts (cfg := demo_config) (network := demo_network)
         system_prompt user_message ["glm"; "gem"; "qwen"]
         (init_world (network := demo_network) false)).

(** How the attempts of that run ended: [glm] with the last 503 of its
    retries, [gem] with a 401, [qwen] with the [KeyError] of an answer
    without choices. *)
Definition all_down_endings : list (string * ending) :=
  Eval vm_compute in
    default []
      (fst <$>
       failed_endings (cfg := demo_config) (network := demo_network)
         system_prompt user_message ["glm"; "gem"; "qwen"]
         (init_world (network := demo_network) false)).

(** The failure of [glm] when the credential is accepted. *)
Definition glm_down
    : collected_failure * world (network := demo_network) :=
  Eval vm_compute in
    default ({| cf_model := EmptyString; cf_error := EmptyString;
                cf_error_code := None |},
             init_world (network := demo_network) true)
      (failed_attempt (cfg := demo_config) (network := demo_network)
         system_prompt user_message "glm"
         (init_world (network := demo_network) true)).

(** The success of [gem] after that. *)
Definition gem_up : (exn + call_outcome) * world (network := demo_network) :=
  Eval vm_compute in
    attempt (cfg := demo_config) (network := demo_network)
      system_prompt user_message "gem" glm_down.2.

Definition gem_success : success_result :=
  {| verdict := JStr "LGTM"; s_model := "Gemini"; s_model_key := "gem";
     tokens_used := JObj (<["total_tokens" := JInt 2000]> ∅);
     cost := 0.8%float; fallback_used := None;
     primary_model_failed := None |}.

(** The world after [qwen] answered. *)
Definition qwen_answered : world (network := demo_network) :=
  Eval vm_compute in
    (_call_api_with_retry (cfg := demo_config) (network := demo_network)
       (provider_of "qwen" qwen) request 0.5%float 4096
       (init_world (network := demo_network) false)).2.

Definition some_errors : list log_entry :=
  [ {| timestamp := "2025-01-01T00:00:00"; model := "gem";
       error_type := "HTTP Error"; details := "API Error: 401 - bad key";
       status_code := Some 401 |} ].

(** Details longer than the 150 characters a report shows. *)
Definition long_details : string :=
  "API Error: 500 - " +:+
  String.concat EmptyString (replicate 20 "0123456789").

(** Six entries, oldest first: the report renders the last five, and the
    only entry with status 401 is the one it does not render.  The last
    entry has the status code 0 and long details. *)
Definition six_errors : list log_entry :=
  [ {| timestamp := "2025-01-01T00:00:00"; model := "gem";
       error_type := "HTTP Error"; details := "API Error: 401 - bad key";
       status_code := Some 401 |};
    {| timestamp := "2025-01-01T00:00:01"; model := "glm";
       error_type := "HTTP Error";
       details := "API Error: 503 - overloaded";
       status_code := Some 503 |};
    {| timestamp := "2025-01-01T00:00:02"; model := "qwen";
       error_type := "KeyError"; details := "KeyError: 'choices'";
       status_code := None |};
    {| timestamp := "2025-01-01T00:00:03"; model := "glm";
       error_type := "Timeout";
       details := "Request timed out after 60s";
       status_code := None |};
    {| timestamp := "2025-01-01T00:00:04"; model := "off";
       error_type := "Provider Error";
       details := "ValueError: Model off is not enabled (missing API key)";
       status_code := None |};
    {| timestamp := "2025-01-01T00:00:05"; model := "glm";
       error_type := "HTTP Error"; details := long_details;
       status_code := Some 0 |} ].

(** A network on which [glm] recovers: its endpoint answers 503 to the
    first two requests and a full body from then on.  The state counts the
    requests. *)
Definition flaky_network : Network :=
  {| NetState := nat;
     http_post := λ c _ _ _ sent,
       (if (sent <? 2)%nat then
          inl (HTTPStatusError 503 "overloaded"
                               "Server error '503 Service Unavailable'")
        else inr review,
        S sent);
     isoformat := λ tick, "2025-01-01T00:00:" +:+ pretty tick |}.

(** The example configuration with a budget of no attempts. *)
Definition no_retry_config : Config :=
  {| MODELS := MODELS (Config := demo_config);
     DEFAULT_TEMPERATURE := 0.5%float;
     DEFAULT_MAX_TOKENS := 4096;
     RETRY_ATTEMPTS := 0;
     RETRY_MIN_WAIT := 1;
     RETRY_MAX_WAIT := 10;
     RETRY_STATUS_CODES := [429; 500; 502; 503; 504];
     get_fallback_models := get_fallback_models (Config := demo_config) |}.

(** The success of [gem] flagged as a fallback for [glm]. *)
Definition gem_fallback : success_result :=
  {| verdict := JStr "LGTM"; s_model := "Gemini"; s_model_key := "gem";
     tokens_used := JObj (<["total_tokens" := JInt 2000]> ∅);
     cost := 0.8%float; fallback_used := Some true;
     primary_model_failed := Some "glm" |}.

(** The success of [gem] flagged as a fallback for [off]. *)
Definition off_fallback : success_result :=
  {| verdict := JStr "LGTM"; s_model := "Gemini"; s_model_key := "gem";
     tokens_used := JObj (<["total_tokens" := JInt 2000]> ∅);
     cost := 0.8%float; fallback_used := Some true;
     primary_model_failed := Some "off" |}.

(** The all-failed dict of the run in which every model fails. *)
Definition all_down_dict : all_failed_result :=
  Eval vm_compute in
    all_failed "glm" ["gem"; "qwen"] all_down.1.

End Demo.

(** * Properties *)

Section Properties.
Context {cfg : Config} {network : Network}.

(** ** The text of Python values *)

(** [repr] of a list of strings: plain keys in single quotes; a string
    with a single quote in double quotes; with both kinds of quote, in
    single quotes with the single quote escaped; a backslash doubled; a
    newline and a control character escaped. *)
Example repr_list_examples :
  PyStr.repr_list ["gem"; "qwen"] = "['gem', 'qwen']" ∧
  PyStr.repr_list [] = "[]" ∧
  PyStr.repr "it's" =
    String PyStr.double_quote ("it's" +:+
                               String PyStr.double_quote EmptyString) ∧
  PyStr.repr ("a'" +:+ String PyStr.double_quote "b") =
    "'a" +:+ String PyStr.backslash "'" +:+
    String PyStr.double_quote "b'" ∧
  PyStr.repr (String PyStr.backslash "n") =
    "'" +:+ String PyStr.backslash (String PyStr.backslash "n'") ∧
  PyStr.repr ("a" +:+ NL +:+ String (ascii_of_nat 1) "b") =
    "'a" +:+ String PyStr.backslash "n" +:+
    String PyStr.backslash "x01b'".
Proof. vm_compute. repeat split; reflexivity. Qed.

(** ** Slices *)

Lemma length_take n s : (String.length (PyStr.take n s) ≤ n)%nat.
Proof.
  revert s; induction n as [|n IH]; intros s.
  - destruct s; cbv [PyStr.take String.length]; lia.
  - destruct s as [|c s]; [cbv [PyStr.take String.length]; lia|].
    change (PyStr.take (S n) (String c s))
      with (String c (PyStr.take n s)).
    cbn [String.length]. specialize (IH s). lia.
Qed.

(** ** Lists of addresses that all resolve *)

Lemma omap_total_length {A B} (f : A → option B) (l : list A) :
  (∀ x, x ∈ l → is_Some (f x)) → length (omap f l) = length l.
Proof.
  induction l as [|a l IH]; intros Hall; [reflexivity|].
  destruct (Hall a) as [b Hb]; [left|].
  cbn. rewrite Hb. cbn. f_equal. apply IH.
  intros x Hx. apply Hall. by right.
Qed.

Lemma omap_total_tail {A B} (f : A → option B) (l : list A) :
  (∀ x, x ∈ l → is_Some (f x)) → omap f (tail l) = tail (omap f l).
Proof.
  destruct l as [|a l]; intros Hall; [reflexivity|].
  destruct (Hall a) as [b Hb]; [left|].
  cbn. by rewrite Hb.
Qed.

Lemma omap_agree {A B} (f g : A → option B) (l : list A) :
  (∀ x, x ∈ l → f x = g x) → omap f l = omap g l.
Proof.
  induction l as [|a l IH]; intros Hall; [reflexivity|].
  cbn. rewrite (Hall a) by left. rewrite IH; [done|].
  intros x Hx. apply Hall. by right.
Qed.

(** ** [log_error] on the heap *)

Lemma log_error_eq m t d s w :
  log_error m t d s w = (inr tt, (log_error m t d s w).2).
Proof. reflexivity. Qed.

Lemma log_error_fields m t d s w :
  let w' := (log_error m t d s w).2 in
  providers w' = providers w ∧ net w' = net w ∧
  clock w' = S (clock w) ∧ next_loc w' = S (next_loc w) ∧
  trace w' =
    trace w ++ [EvStderr ("[ARGUS ERROR] " +:+ m +:+ ": " +:+ t +:+
                          " - " +:+ PyStr.take 200 d)].
Proof. cbn. auto. Qed.

Lemma error_log_log_error m t d s w :
  wf w →
  error_log (log_error m t d s w).2 =
  appended (error_log w)
           (entry_of (clock w)
              {| lc_model := m; lc_error_type := t; lc_details := d;
                 lc_status_code := s |}).
Proof.
  intros Hwf.
  set (e := entry_of _ _).
  unfold error_log, entries_at, list_at at 1. cbn [log_error emit snd heap_lists heap_dicts].
  rewrite lookup_insert_eq. cbn [default].
  set (l := list_at w error_log_loc).
  set (f := λ x : loc, heap_dicts w !! x).
  set (f' := λ x : loc, <[next_loc w := e]> (heap_dicts w) !! x).
  assert (Hf : ∀ x, x ∈ l → f' x = f x).
  { intros x Hx. unfold f', f. apply lookup_insert_ne.
    pose proof (wf_dicts w Hwf x (wf_entries w Hwf x Hx)). lia. }
  assert (Hsome : ∀ x, x ∈ l ++ [next_loc w] → is_Some (f' x)).
  { intros x [Hx|Hx%list_elem_of_singleton]%elem_of_app.
    - rewrite Hf by done. by apply (wf_entries w Hwf).
    - subst x. unfold f'. rewrite lookup_insert_eq. eauto. }
  assert (Happ : omap f' (l ++ [next_loc w]) = omap f l ++ [e]).
  { rewrite omap_app. rewrite (omap_agree f' f l Hf). f_equal.
    cbn. unfold f'. by rewrite lookup_insert_eq. }
  unfold appended. fold f. rewrite <- Happ.
  rewrite (omap_total_length f' _ Hsome).
  destruct (50 <? length (l ++ [next_loc w]))%nat; [|done].
  by apply omap_total_tail.
Qed.

Lemma list_at_log_error m t d s w :
  list_at (log_error m t d s w).2 error_log_loc =
  let l := list_at w error_log_loc ++ [next_loc w] in
  if (50 <? length l)%nat then tail l else l.
Proof.
  unfold list_at at 1. cbn [log_error emit snd heap_lists].
  by rewrite lookup_insert_eq.
Qed.

Lemma elem_of_tail {A} (x : A) (l : list A) : x ∈ tail l → x ∈ l.
Proof. destruct l; cbn; [done|]. by right. Qed.

Lemma wf_log_error m t d s w : wf w → wf (log_error m t d s w).2.
Proof.
  intros Hwf. split.
  - cbn. rewrite lookup_insert_eq. eauto.
  - intros l. cbn. intros [x Hx].
    destruct (decide (l = error_log_loc)) as [->|Hne].
    + pose proof (wf_lists w Hwf _ (wf_log w Hwf)). lia.
    + rewrite lookup_insert_ne in Hx by done.
      pose proof (wf_lists w Hwf l (mk_is_Some _ _ Hx)). lia.
  - intros x. cbn. intros [y Hy].
    destruct (decide (x = next_loc w)) as [->|Hne]; [lia|].
    rewrite lookup_insert_ne in Hy by done.
    pose proof (wf_dicts w Hwf x (mk_is_Some _ _ Hy)). lia.
  - intros x. rewrite list_at_log_error. cbn zeta.
    intros Hx.
    assert (Hin : x ∈ list_at w error_log_loc ++ [next_loc w]).
    { destruct (50 <? _)%nat; [by apply elem_of_tail|done]. }
    cbn [log_error emit snd heap_dicts].
    apply elem_of_app in Hin as [Hin|Hin%list_elem_of_singleton].
    + destruct (decide (x = next_loc w)) as [->|Hne].
      * rewrite lookup_insert_eq. eauto.
      * rewrite lookup_insert_ne by done. by apply (wf_entries w Hwf).
    + subst x. rewrite lookup_insert_eq. eauto.
  - intros k p. cbn. intros Hp.
    destruct (wf_cache w Hwf k p Hp) as (?&?&?&?). repeat split; auto.
Qed.

(** ** Computations that keep a property of the world *)

Lemma preserves_ret P {A} (a : A) : preserves P (ret a).
Proof. intros w Hw. exact Hw. Qed.

Lemma preserves_raise P {A} (e : exn) : preserves P (raise (A:=A) e).
Proof. intros w Hw. exact Hw. Qed.

Lemma preserves_lift P {A} (r : exn + A) : preserves P (lift r).
Proof. intros w Hw. exact Hw. Qed.

Lemma preserves_bind P {A B} (m : M A) (k : A → M B) :
  preserves P m → (∀ a, preserves P (k a)) → preserves P (bind m k).
Proof.
  intros Hm Hk w Hw. unfold bind. specialize (Hm w Hw).
  destruct (m w) as [[e|a] w']; cbn in *; [done|]. by apply Hk.
Qed.

Lemma preserves_try_except P {A} (m : M A) (h : exn → M A) :
  preserves P m → (∀ e, preserves P (h e)) → preserves P (try_except m h).
Proof.
  intros Hm Hh w Hw. unfold try_except. specialize (Hm w Hw).
  destruct (m w) as [[e|a] w']; cbn in *; [|done]. by apply Hh.
Qed.

Lemma quiet_refl w : quiet w w.
Proof. by repeat split. Qed.

Lemma quiet_trans w1 w2 w3 : quiet w1 w2 → quiet w2 w3 → quiet w1 w3.
Proof.
  intros (?&?&?&?&?) (?&?&?&?&?). repeat split; congruence.
Qed.

Lemma error_log_heap w w' :
  heap_lists w' = heap_lists w → heap_dicts w' = heap_dicts w →
  error_log w' = error_log w.
Proof.
  intros Hl Hd. unfold error_log, entries_at, list_at. by rewrite Hl, Hd.
Qed.

Lemma wf_heap w w' :
  wf w → heap_lists w' = heap_lists w → heap_dicts w' = heap_dicts w →
  (next_loc w ≤ next_loc w')%nat →
  (∀ k p, providers w' !! k = Some p →
     providers w !! k = Some p ∨
     (model_key p = k ∧ MODELS !! k = Some (config p) ∧
      enabled (config p) = true ∧ (self_id p < next_loc w')%nat)) →
  wf w'.
Proof.
  intros Hwf Hl Hd Hn Hp. split.
  - rewrite Hl. apply Hwf.
  - intros l. rewrite Hl. intros H%(wf_lists w Hwf). lia.
  - intros d. rewrite Hd. intros H%(wf_dicts w Hwf). lia.
  - intros d. unfold list_at. rewrite Hl, Hd. apply (wf_entries w Hwf).
  - intros k p [H|H]%Hp; [|done].
    destruct (wf_cache w Hwf k p H) as (?&?&?&?). repeat split; auto. lia.
Qed.

Lemma quiet_inv ps w w' : quiet w w' → inv ps w → inv ps w'.
Proof.
  intros (Hl&Hd&Hn&Hp&Hc) (Hwf&[Hlen Hdet]&Hps).
  split; [|split; [split|]].
  - apply (wf_heap w w' Hwf Hl Hd); [lia|]. intros k p. rewrite Hp. auto.
  - by rewrite (error_log_heap w w').
  - by rewrite (error_log_heap w w').
  - by rewrite Hp.
Qed.

Lemma preserves_quiet ps {A} (m : M A) :
  (∀ w, quiet w (m w).2) → preserves (inv ps) m.
Proof. intros Hq w Hw. by eapply quiet_inv. Qed.

Lemma quiet_emit ev w : quiet w (emit ev w).2.
Proof. by repeat split. Qed.

Lemma quiet_call_api self messages temperature max_tokens w :
  quiet w (_call_api self messages temperature max_tokens w).2.
Proof.
  unfold _call_api. destruct (http_post _ _ _ _ _) as [r n].
  by repeat split.
Qed.

Lemma quiet_bind {A B} (m : M A) (k : A → M B) :
  (∀ w, quiet w (m w).2) → (∀ a w, quiet w (k a w).2) →
  ∀ w, quiet w (bind m k w).2.
Proof.
  intros Hm Hk w. unfold bind. specialize (Hm w).
  destruct (m w) as [[e|a] w']; cbn in *; [done|].
  eapply quiet_trans; [exact Hm|apply Hk].
Qed.

Lemma quiet_try_except {A} (m : M A) (h : exn → M A) :
  (∀ w, quiet w (m w).2) → (∀ e w, quiet w (h e w).2) →
  ∀ w, quiet w (try_except m h w).2.
Proof.
  intros Hm Hh w. unfold try_except. specialize (Hm w).
  destruct (m w) as [[e|a] w']; cbn in *; [|done].
  eapply quiet_trans; [exact Hm|apply Hh].
Qed.

Lemma quiet_retry_loop self messages temperature max_tokens attempts :
  ∀ last_error w,
    quiet w (retry_loop self messages temperature max_tokens attempts
                        last_error w).2.
Proof.
  induction attempts as [|attempt rest IH]; intros last_error w.
  - destruct last_error; apply quiet_refl.
  - cbn [retry_loop]. apply quiet_bind.
    + apply quiet_try_except.
      * apply quiet_bind; [apply quiet_call_api|]. intros; apply quiet_refl.
      * intros [code text msg| | |] w'; try apply quiet_refl.
        destruct (negb _); [apply quiet_refl|].
        apply quiet_bind; [|intros; apply quiet_refl].
        intros w''. destruct (bool_decide _);
          [apply quiet_emit|apply quiet_refl].
    + intros [result|e] w'; [apply quiet_refl|apply IH].
Qed.

Lemma quiet_call_api_with_retry self messages temperature max_tokens w :
  quiet w (_call_api_with_retry self messages temperature max_tokens w).2.
Proof. apply quiet_retry_loop. Qed.

(** ** The invariant *)

Lemma appended_length log e :
  (length log ≤ 50)%nat → (length (appended log e) ≤ 50)%nat.
Proof.
  intros Hlen. unfold appended.
  destruct (Nat.ltb_spec 50 (length (log ++ [e]))) as [Hlt|Hle]; [|done].
  rewrite length_tl. rewrite length_app in Hlt |- *. cbn in *. lia.
Qed.

Lemma appended_Forall (P : log_entry → Prop) log e :
  Forall P log → P e → Forall P (appended log e).
Proof.
  intros Hlog He. unfold appended.
  assert (Hall : Forall P (log ++ [e])).
  { apply Forall_app. split; [done|]. by constructor. }
  destruct (50 <? _)%nat; [|done].
  destruct (log ++ [e]); [done|]. by inversion Hall.
Qed.

Lemma inv_log_error ps m t d s : preserves (inv ps) (log_error m t d s).
Proof.
  intros w (Hwf&[Hlen Hdet]&Hps). split; [|split; [split|]].
  - by apply wf_log_error.
  - rewrite error_log_log_error by done. by apply appended_length.
  - rewrite error_log_log_error by done.
    apply appended_Forall; [done|]. apply length_take.
  - done.
Qed.

Lemma inv_init ps key : preserves (inv ps) (ModelProvider__init__ key).
Proof.
  intros w (Hwf&[Hlen Hdet]&Hps). unfold ModelProvider__init__.
  set (w' := {| heap_lists := heap_lists w; heap_dicts := heap_dicts w;
                next_loc := S (next_loc w); providers := providers w;
                net := net w; clock := clock w; trace := trace w |}).
  assert (Hinv : inv ps w').
  { split; [|split; [split|]]; try done.
    apply (wf_heap w w' Hwf); try done; [cbn; lia|]. auto. }
  destruct (MODELS !! key) as [c|]; [|exact Hinv].
  destruct (negb (enabled c)); exact Hinv.
Qed.

Lemma init_cases key w :
  let w' := {| heap_lists := heap_lists w; heap_dicts := heap_dicts w;
               next_loc := S (next_loc w); providers := providers w;
               net := net w; clock := clock w; trace := trace w |} in
  match MODELS !! key with
  | Some c =>
      if enabled c then
        ModelProvider__init__ key w =
        (inr {| self_id := next_loc w; config := c; model_key := key |}, w')
      else
        ModelProvider__init__ key w =
        (inl (PyException "ValueError"
                ("Model " +:+ key +:+ " is not enabled (missing API key)")),
         w')
  | None =>
      ModelProvider__init__ key w =
      (inl (PyException "ValueError" ("Unknown model: " +:+ key)), w')
  end.
Proof.
  cbn zeta. unfold ModelProvider__init__.
  destruct (MODELS !! key) as [c|]; [|reflexivity].
  destruct (enabled c); reflexivity.
Qed.

Lemma inv_get_provider ps key : preserves (inv ps) (get_provider key).
Proof.
  intros w Hinv. unfold get_provider.
  destruct (providers w !! key) as [p|] eqn:Hcache; [exact Hinv|].
  unfold bind. pose proof (init_cases key w) as Hc. cbn zeta in Hc.
  pose proof (inv_init ps key w Hinv) as Hinv'.
  destruct (MODELS !! key) as [c|] eqn:Hm.
  - destruct (enabled c) eqn:Hen; rewrite Hc in Hinv' |- *; [|exact Hinv'].
    cbn in *. destruct Hinv' as (Hwf&[Hlen Hdet]&Hps).
    split; [|split; [split|]]; try done.
    + apply (wf_heap _ _ Hwf); try done. cbn.
      intros k p [[<- <-]|[_ Hp]]%lookup_insert_Some; [|by left].
      right. cbn. repeat split; auto.
    + cbn. apply insert_subseteq_r; [|done].
      destruct (ps !! key) as [p|] eqn:Hp; [|done].
      eapply lookup_weaken in Hp; [|exact Hps]. cbn in Hp. congruence.
  - rewrite Hc in Hinv' |- *. exact Hinv'.
Qed.

Lemma inv_verify_code_except ps self e :
  preserves (inv ps) (verify_code_except self e).
Proof.
  destruct e; cbn [verify_code_except];
    (apply preserves_bind; [apply inv_log_error|intros; apply preserves_ret]).
Qed.

Lemma inv_verify_code ps self sp um :
  preserves (inv ps) (verify_code self sp um).
Proof.
  unfold verify_code. apply preserves_try_except.
  - apply preserves_bind.
    + apply preserves_quiet, quiet_call_api_with_retry.
    + intros data. apply preserves_bind; [apply preserves_lift|].
      intros; apply preserves_ret.
  - apply inv_verify_code_except.
Qed.

Lemma inv_provider_error ps key e :
  preserves (inv ps) (provider_error key e).
Proof.
  apply preserves_bind; [apply inv_log_error|intros; apply preserves_ret].
Qed.

Lemma inv_fallback_sweep ps sp um pm keys :
  ∀ errors, preserves (inv ps) (fallback_sweep sp um pm keys errors).
Proof.
  induction keys as [|key rest IH]; intros errors; cbn [fallback_sweep].
  - apply preserves_ret.
  - apply preserves_bind.
    + apply preserves_try_except.
      * apply preserves_bind; [apply inv_get_provider|]. intros p.
        apply preserves_bind; [apply inv_verify_code|].
        intros [s|f]; apply preserves_ret.
      * intros e. apply preserves_bind; [apply inv_provider_error|].
        intros; apply preserves_ret.
    + intros [s|errors']; [apply preserves_ret|apply IH].
Qed.

Lemma inv_verify_with_fallback ps sp um pm :
  preserves (inv ps) (verify_with_fallback sp um pm).
Proof.
  unfold verify_with_fallback. apply preserves_bind.
  - apply preserves_try_except.
    + apply preserves_bind; [apply inv_get_provider|]. intros p.
      apply preserves_bind; [apply inv_verify_code|].
      intros [s|f]; apply preserves_ret.
    + intros e. apply preserves_bind; [apply inv_provider_error|].
      intros; apply preserves_ret.
  - intros [s|errors]; [apply preserves_ret|].
    apply preserves_bind; [apply inv_fallback_sweep|].
    intros [s|errors']; apply preserves_ret.
Qed.

Lemma inv_get_error_log ps : preserves (inv ps) get_error_log.
Proof.
  intros w (Hwf&[Hlen Hdet]&Hps).
  assert (Hne : next_loc w ≠ error_log_loc).
  { pose proof (wf_lists w Hwf _ (wf_log w Hwf)). lia. }
  assert (Hlog : list_at (get_error_log w).2 error_log_loc =
                 list_at w error_log_loc).
  { unfold list_at. cbn. by rewrite lookup_insert_ne. }
  assert (Heq : error_log (get_error_log w).2 = error_log w).
  { unfold error_log, entries_at. by rewrite Hlog. }
  split; [|split; [split|]]; [|by rewrite Heq..|done].
  split.
  - cbn. rewrite lookup_insert_ne by done. apply Hwf.
  - intros l. cbn. intros [x Hx].
    destruct (decide (l = next_loc w)) as [->|Hl]; [lia|].
    rewrite lookup_insert_ne in Hx by done.
    pose proof (wf_lists w Hwf l (mk_is_Some _ _ Hx)). lia.
  - intros d. cbn. intros H%(wf_dicts w Hwf). lia.
  - intros d. rewrite Hlog. cbn. apply (wf_entries w Hwf).
  - intros k p. cbn. intros Hp.
    destruct (wf_cache w Hwf k p Hp) as (?&?&?&?). repeat split; auto.
Qed.

Lemma error_log_clear w : error_log (clear_error_log w).2 = [].
Proof.
  unfold error_log, entries_at, list_at. cbn.
  by rewrite lookup_insert_eq.
Qed.

Lemma inv_clear_error_log ps : preserves (inv ps) clear_error_log.
Proof.
  intros w (Hwf&[Hlen Hdet]&Hps).
  split; [|split; [split|]]; [|rewrite error_log_clear..|done].
  - split.
    + cbn. rewrite lookup_insert_eq. eauto.
    + intros l. cbn. intros [x Hx].
      destruct (decide (l = error_log_loc)) as [->|Hl].
      * pose proof (wf_lists w Hwf _ (wf_log w Hwf)). lia.
      * rewrite lookup_insert_ne in Hx by done.
        apply (wf_lists w Hwf). eauto.
    + apply Hwf.
    + intros d. unfold list_at. cbn. rewrite lookup_insert_eq. cbn.
      by intros ?%elem_of_nil.
    + apply Hwf.
  - cbn. lia.
  - constructor.
Qed.

Lemma inv_step ps w w' : step w w' → inv ps w → inv ps w'.
Proof.
  intros Hstep Hinv. destruct Hstep.
  - by apply inv_log_error.
  - by apply inv_get_error_log.
  - by apply inv_clear_error_log.
  - by apply inv_get_provider.
  - by apply inv_verify_code.
  - by apply inv_verify_with_fallback.
Qed.

Lemma inv_steps ps w w' : rtc step w w' → inv ps w → inv ps w'.
Proof.
  induction 1 as [|w1 w2 w3 Hstep _ IH]; [done|].
  intros Hinv. apply IH. by eapply inv_step.
Qed.

Lemma list_at_init_world n : list_at (init_world n) error_log_loc = [].
Proof.
  unfold list_at, init_world. cbn [heap_lists].
  by rewrite lookup_singleton_eq.
Qed.

Lemma inv_init_world n : inv ∅ (init_world n).
Proof.
  split; [|split; [split|]].
  - split.
    + unfold init_world. cbn [heap_lists].
      rewrite lookup_singleton_eq. eauto.
    + intros l. unfold init_world. cbn [heap_lists next_loc].
      intros [x [<- _]%lookup_singleton_Some].
      unfold error_log_loc. lia.
    + intros d. unfold init_world. cbn [heap_dicts].
      rewrite lookup_empty. by intros [? ?].
    + intros d. rewrite list_at_init_world. by intros ?%elem_of_nil.
    + intros k p. unfold init_world. cbn [providers].
      by rewrite lookup_empty.
  - unfold error_log, entries_at. rewrite list_at_init_world. cbn. lia.
  - unfold error_log, entries_at. rewrite list_at_init_world. constructor.
  - apply map_empty_subseteq.
Qed.

Lemma wf_init_world n : wf (init_world n).
Proof. apply inv_init_world. Qed.

Lemma inv_reachable w : reachable w → inv ∅ w.
Proof.
  intros [n Hsteps]. eapply inv_steps; [exact Hsteps|apply inv_init_world].
Qed.

(** ** The diagnostics log *)

Lemma last_n_app_last_n {A} (n : nat) (l l' : list A) :
  last_n n (last_n n l ++ l') = last_n n (l ++ l').
Proof.
  unfold last_n. rewrite !length_app, length_drop.
  set (k := (length l - n)%nat).
  replace (length l + length l' - n)%nat
    with (k + (length l - k + length l' - n))%nat by lia.
  rewrite <- drop_drop. f_equal.
  rewrite drop_app_le by lia. done.
Qed.

Lemma appended_last_n log e :
  (length log ≤ 50)%nat → appended log e = last_n 50 (log ++ [e]).
Proof.
  intros Hlen. unfold appended, last_n.
  rewrite length_app. cbn [length].
  destruct (Nat.ltb_spec 50 (length log + 1)) as [Hlt|Hle].
  - replace (length log + 1 - 50)%nat with 1%nat by lia.
    by destruct (log ++ [e]).
  - replace (length log + 1 - 50)%nat with 0%nat by lia. done.
Qed.

Lemma length_last_n {A} (n : nat) (l : list A) :
  (length (last_n n l) ≤ n)%nat.
Proof. unfold last_n. rewrite length_drop. lia. Qed.

Lemma fold_appended_last_n entries :
  ∀ log, (length log ≤ 50)%nat →
    fold_left appended entries log = last_n 50 (log ++ entries).
Proof.
  induction entries as [|e entries IH]; intros log Hlen.
  - cbn. rewrite app_nil_r. unfold last_n.
    replace (length log - 50)%nat with 0%nat by lia. done.
  - cbn [fold_left]. rewrite IH by by apply appended_length.
    rewrite appended_last_n by done. rewrite last_n_app_last_n.
    by rewrite <- app_assoc.
Qed.

Lemma entries_of_cons tick c calls :
  entries_of tick (c :: calls) =
  entry_of tick c :: entries_of (S tick) calls.
Proof.
  unfold entries_of. cbn [imap]. rewrite Nat.add_0_r. f_equal.
  apply imap_ext. intros i x _. cbn. f_equal. lia.
Qed.

Lemma record_all_spec calls :
  ∀ w, wf w →
    (record_all calls w).1 = inr tt ∧ wf (record_all calls w).2 ∧
    error_log (record_all calls w).2 =
    fold_left appended (entries_of (clock w) calls) (error_log w).
Proof.
  induction calls as [|c calls IH]; intros w Hwf; [done|].
  cbn [record_all]. unfold bind. rewrite log_error_eq.
  pose proof (wf_log_error (lc_model c) (lc_error_type c) (lc_details c)
                (lc_status_code c) w Hwf) as Hwf'.
  destruct (IH _ Hwf') as (Hr&Hwf''&Hlog).
  split; [done|]. split; [done|].
  rewrite Hlog, entries_of_cons. cbn [fold_left].
  rewrite error_log_log_error by done. by destruct c.
Qed.

Lemma entries_at_get_error_log w :
  wf w →
  entries_at (get_error_log w).2 (next_loc w) = error_log w.
Proof.
  intros Hwf. unfold error_log, entries_at, list_at. cbn.
  by rewrite lookup_insert_eq.
Qed.

Lemma length_entries_of tick calls :
  length (entries_of tick calls) = length calls.
Proof. unfold entries_of. apply length_imap. Qed.

(** The copy and the log hold the same entry objects: an entry changed
    through the copy is changed in the log. *)
Lemma copy_shares_entries w :
  wf w →
  list_at (get_error_log w).2 (next_loc w) = list_at w error_log_loc.
Proof. intros Hwf. unfold list_at. cbn. by rewrite lookup_insert_eq. Qed.

Lemma copy_entries_are_shared w d e :
  wf w →
  d ∈ list_at (get_error_log w).2 (next_loc w) →
  e ∈ error_log (dict_assign d e (get_error_log w).2).
Proof.
  intros Hwf Hd. rewrite copy_shares_entries in Hd by done.
  assert (Hne : next_loc w ≠ error_log_loc).
  { pose proof (wf_lists w Hwf _ (wf_log w Hwf)). lia. }
  unfold error_log, entries_at. apply list_elem_of_omap. exists d. split.
  - unfold list_at. cbn. by rewrite lookup_insert_ne.
  - cbn. apply lookup_insert_eq.
Qed.

(** C6. In every world the process can reach, the log holds at most 50
    entries and every entry's details have at most 500 characters; after
    any further calls of [log_error] the accessor returns the last 50 of
    the old entries followed by the new ones, in insertion order (for 55
    calls: the last 50 of them); and the accessor returns a new list
    object, so that mutating that list leaves the log as it was. *)
Theorem diagnostics_log_bounded w :
  reachable w →
  (length (error_log w) ≤ 50)%nat ∧
  Forall (λ e, (String.length (details e) ≤ 500)%nat) (error_log w) ∧
  (∀ calls,
     let w1 := (record_all calls w).2 in
     (length (error_log w1) ≤ 50)%nat ∧
     ∃ copy,
       (get_error_log w1).1 = inr copy ∧
       entries_at (get_error_log w1).2 copy =
       last_n 50 (error_log w ++ entries_of (clock w) calls) ∧
       (length calls = 55%nat →
        entries_at (get_error_log w1).2 copy =
        drop 5 (entries_of (clock w) calls))) ∧
  (∃ copy,
     (get_error_log w).1 = inr copy ∧ copy ≠ error_log_loc ∧
     entries_at (get_error_log w).2 copy = error_log w ∧
     ∀ content,
       error_log (list_assign copy content (get_error_log w).2) =
       error_log w).
Proof.
  intros (Hwf&[Hlen Hdet]&_)%inv_reachable.
  split; [done|]. split; [done|]. split.
  - intros calls w1.
    destruct (record_all_spec calls w Hwf) as (_&Hwf1&Hlog1).
    fold w1 in Hwf1, Hlog1.
    rewrite fold_appended_last_n in Hlog1 by done.
    split; [rewrite Hlog1; apply length_last_n|].
    exists (next_loc w1). split; [done|].
    rewrite entries_at_get_error_log by done. split; [done|].
    intros H55. rewrite Hlog1. unfold last_n.
    rewrite length_app, length_entries_of, H55.
    replace (length (error_log w) + 55 - 50)%nat
      with (length (error_log w) + 5)%nat by lia.
    rewrite <- drop_drop. by rewrite drop_app_length.
  - exists (next_loc w).
    assert (Hne : next_loc w ≠ error_log_loc).
    { pose proof (wf_lists w Hwf _ (wf_log w Hwf)). lia. }
    split; [done|]. split; [done|].
    split; [by apply entries_at_get_error_log|].
    intros content. unfold error_log, entries_at, list_at. cbn.
    rewrite !lookup_insert_ne by done. done.
Qed.

(** ** Resolving a provider *)

Lemma get_provider_cached key p w :
  providers w !! key = Some p → get_provider key w = (inr p, w).
Proof. intros Hp. unfold get_provider. by rewrite Hp. Qed.

Lemma get_provider_fresh key w :
  providers w !! key = None →
  get_provider key w =
  match ModelProvider__init__ key w with
  | (inr p, w1) =>
      (inr p,
       {| heap_lists := heap_lists w1; heap_dicts := heap_dicts w1;
          next_loc := next_loc w1;
          providers := <[key := p]> (providers w1);
          net := net w1; clock := clock w1; trace := trace w1 |})
  | (inl e, w1) => (inl e, w1)
  end.
Proof.
  intros Hp. unfold get_provider. rewrite Hp. unfold bind.
  by destruct (ModelProvider__init__ key w) as [[e|p] w1].
Qed.

(** C7. Resolving a key that [MODELS] does not hold, or whose config is
    not enabled, raises [ValueError] from the constructor, with no request
    sent and nothing cached.  Resolving a known and enabled key returns a
    provider for it, and every later resolution of the key, after any
    operations of the module, returns that same object and allocates
    nothing. *)
Theorem provider_resolution key w :
  reachable w →
  ((MODELS !! key = None ∨
    ∃ c, MODELS !! key = Some c ∧ enabled c = false) →
   ∃ msg,
     (ModelProvider__init__ key w).1 = inl (PyException "ValueError" msg) ∧
     (get_provider key w).1 = inl (PyException "ValueError" msg) ∧
     trace (get_provider key w).2 = trace w ∧
     net (get_provider key w).2 = net w ∧
     providers (get_provider key w).2 = providers w) ∧
  (∀ c, MODELS !! key = Some c → enabled c = true →
   ∃ p,
     (get_provider key w).1 = inr p ∧ config p = c ∧ model_key p = key ∧
     trace (get_provider key w).2 = trace w ∧
     net (get_provider key w).2 = net w ∧
     ∀ w', rtc step (get_provider key w).2 w' →
       get_provider key w' = (inr p, w')).
Proof.
  intros Hinv%inv_reachable.
  assert (Hlater : ∀ p w1, inv ∅ w1 → providers w1 !! key = Some p →
            ∀ w', rtc step w1 w' → get_provider key w' = (inr p, w')).
  { intros p w1 (Hwf1&Hb1&_) Hp w' Hsteps.
    assert (Hinv1 : inv (providers w1) w1) by done.
    destruct (inv_steps _ _ _ Hsteps Hinv1) as (_&_&Hsub).
    apply get_provider_cached. by eapply lookup_weaken. }
  pose proof (inv_get_provider ∅ key w Hinv) as Hinv'.
  destruct Hinv as (Hwf&Hb&Hps).
  pose proof (init_cases key w) as Hinit. cbn zeta in Hinit.
  destruct (providers w !! key) as [p|] eqn:Hcache.
  - destruct (wf_cache w Hwf key p Hcache) as (Hkey&Hm&Hen&_).
    rewrite (get_provider_cached key p w Hcache) in *. split.
    + intros [Hnone|(c&Hc&Hdis)]; congruence.
    + intros c Hc _. exists p. cbn. repeat split; auto; [congruence|].
      by apply Hlater.
  - rewrite (get_provider_fresh key w Hcache) in *.
    destruct (MODELS !! key) as [c|] eqn:Hm.
    + destruct (enabled c) eqn:Hen; rewrite Hinit in *; cbn in *.
      * split; [intros [?|(c'&?&?)]; congruence|].
        intros c' [= <-] _. eexists. repeat split.
        intros w' Hsteps. eapply Hlater; [exact Hinv'| |exact Hsteps].
        cbn. apply lookup_insert_eq.
      * split; [intros _; eexists; by repeat split|].
        intros c' [= <-] ?. congruence.
    + rewrite Hinit in *; cbn in *.
      split; [intros _; eexists; by repeat split|]. intros c' ?. congruence.
Qed.

(** ** The retry wrapper *)

Lemma call_api_run self messages temperature max_tokens w :
  let c := config self in
  (_call_api self messages temperature max_tokens w).1 =
    response c messages temperature max_tokens 0 (net w) ∧
  net (_call_api self messages temperature max_tokens w).2 =
    net_after c messages temperature max_tokens 1 (net w) ∧
  trace (_call_api self messages temperature max_tokens w).2 =
    trace w ++ [EvApiCall (model_key self) messages temperature max_tokens].
Proof.
  unfold _call_api, response. cbn.
  by destruct (http_post _ _ _ _ _) as [r n].
Qed.

(** One round of the loop. *)
Lemma retry_loop_step self messages temperature max_tokens attempt rest
    last_error w :
  retry_loop self messages temperature max_tokens (attempt :: rest)
             last_error w =
  match _call_api self messages temperature max_tokens w with
  | (inr result, w1) => (inr result, w1)
  | (inl (HTTPStatusError code text msg), w1) =>
      if bool_decide (code ∈ RETRY_STATUS_CODES) then
        retry_loop self messages temperature max_tokens rest
          (Some (HTTPStatusError code text msg))
          (if bool_decide (Z.of_nat attempt < RETRY_ATTEMPTS - 1)
           then (sleep (wait_time attempt) w1).2 else w1)
      else (inl (HTTPStatusError code text msg), w1)
  | (inl e, w1) => (inl e, w1)
  end.
Proof.
  cbn [retry_loop]. unfold bind, try_except.
  destruct (_call_api self messages temperature max_tokens w)
    as [[e|result] w1]; [|reflexivity].
  destruct e as [code text msg| | |]; try reflexivity.
  destruct (bool_decide (code ∈ RETRY_STATUS_CODES)); cbn [negb];
    [|reflexivity].
  by destruct (bool_decide (Z.of_nat attempt < RETRY_ATTEMPTS - 1)).
Qed.

(** The loop from attempt [a] on, with [m] attempts left, when all of
    them ask for a retry. *)
Lemma retry_loop_exhausted self messages temperature max_tokens m :
  ∀ a last_error w,
    Z.of_nat a + Z.of_nat m = RETRY_ATTEMPTS →
    (∀ i, (i < m)%nat →
       retryable (response (config self) messages temperature max_tokens
                           i (net w))) →
    let run := retry_loop self messages temperature max_tokens (seq a m)
                          last_error w in
    ((0 < m)%nat →
       run.1 = response (config self) messages temperature max_tokens
                        (m - 1) (net w)) ∧
    trace run.2 =
      trace w ++
      match m with
      | O => []
      | S m' =>
          mjoin
            (map (λ i,
                    [EvApiCall (model_key self) messages temperature
                               max_tokens;
                     EvSleep (Z.min (RETRY_MIN_WAIT * 2 ^ Z.of_nat i)
                                    RETRY_MAX_WAIT)])
                 (seq a m')) ++
          [EvApiCall (model_key self) messages temperature max_tokens]
      end.
Proof.
  induction m as [|m IH]; intros a last_error w Hsum Hall run.
  - subst run. cbn. split; [lia|].
    rewrite app_nil_r. by destruct last_error.
  - subst run. cbn [seq]. rewrite retry_loop_step.
    destruct (call_api_run self messages temperature max_tokens w)
      as (Hr&Hn&Ht).
    pose proof (Hall 0%nat ltac:(lia)) as H0. rewrite <- Hr in H0.
    destruct (_call_api self messages temperature max_tokens w)
      as [[e|result] w1] eqn:Hcall; cbn in Hr, Hn, Ht, H0; [|done].
    destruct e as [code text msg| | |]; try done.
    rewrite bool_decide_eq_true_2 by done.
    assert (Hnext : ∀ i, (i < m)%nat →
              retryable (response (config self) messages temperature
                                  max_tokens i (net w1))).
    { intros i Hi. rewrite Hn. apply (Hall (S i)). lia. }
    case_bool_decide as Hlast.
    + destruct m as [|m']; [lia|].
      destruct (IH (S a) (Some (HTTPStatusError code text msg))
                   (sleep (wait_time a) w1).2 ltac:(lia) Hnext)
        as [IH1 IH2].
      split.
      * intros _. rewrite IH1 by lia. cbn [sleep emit snd net].
        rewrite Hn. cbn. by rewrite Nat.sub_0_r.
      * rewrite IH2. cbn [sleep emit snd trace]. rewrite Ht.
        cbn [seq map mjoin]. unfold wait_time.
        rewrite <- !app_assoc. done.
    + destruct m as [|m']; [|lia].
      cbn. split; [by intros _|]. by rewrite Ht.
Qed.

Lemma sleeps_exhausted self messages temperature max_tokens n :
  sleeps (exhausted_trace self messages temperature max_tokens n) =
  map (λ i, Z.min (RETRY_MIN_WAIT * 2 ^ Z.of_nat i) RETRY_MAX_WAIT)
      (seq 0 (n - 1)).
Proof.
  destruct n as [|n]; [done|]. cbn [exhausted_trace].
  rewrite Nat.sub_succ, Nat.sub_0_r.
  unfold sleeps. rewrite omap_app. cbn [omap]. rewrite app_nil_r.
  generalize (seq 0 n). intros l.
  induction l as [|i l IH]; [done|].
  change (i :: l) with ([i] ++ l).
  rewrite map_app, join_app, omap_app, IH. done.
Qed.

Lemma api_calls_exhausted self messages temperature max_tokens n :
  api_calls (exhausted_trace self messages temperature max_tokens n) =
  replicate n (model_key self).
Proof.
  destruct n as [|n]; [done|]. cbn [exhausted_trace].
  unfold api_calls. rewrite omap_app. cbn [omap].
  transitivity (replicate n (model_key self) ++ [model_key self]).
  - f_equal. rewrite <- (length_seq n 0) at 2.
    generalize (seq 0 n). intros l.
    induction l as [|i l IH]; [done|].
    change (i :: l) with ([i] ++ l).
    rewrite map_app, join_app, omap_app, IH. done.
  - clear. induction n as [|n IH]; [done|]. cbn. by rewrite IH.
Qed.

(** C1. When every attempt of a call fails with an [HTTPStatusError]
    whose status is in [RETRY_STATUS_CODES], the wrapper sends exactly
    [RETRY_ATTEMPTS] requests, sleeps [min(RETRY_MIN_WAIT * 2^i,
    RETRY_MAX_WAIT)] after attempt [i] for every attempt but the last,
    sends the last request without a sleep after it, and raises the
    failure of the last attempt. *)
Theorem retry_exhausts_attempts self messages temperature max_tokens w :
  let c := config self in
  let n := Z.to_nat RETRY_ATTEMPTS in
  let run := _call_api_with_retry self messages temperature max_tokens w in
  let added := exhausted_trace self messages temperature max_tokens n in
  (∀ i, (i < n)%nat →
     retryable (response c messages temperature max_tokens i (net w))) →
  trace run.2 = trace w ++ added ∧
  api_calls added = replicate n (model_key self) ∧
  sleeps added =
    map (λ i, Z.min (RETRY_MIN_WAIT * 2 ^ Z.of_nat i) RETRY_MAX_WAIT)
        (seq 0 (n - 1)) ∧
  ((0 < n)%nat →
     run.1 = response c messages temperature max_tokens (n - 1) (net w) ∧
     retryable run.1 ∧
     last added =
       Some (EvApiCall (model_key self) messages temperature max_tokens)).
Proof.
  intros c n run added Hall.
  split; [|split; [apply api_calls_exhausted|
                   split; [apply sleeps_exhausted|]]].
  - subst run added. unfold _call_api_with_retry. fold n.
    destruct (Z_lt_le_dec 0 RETRY_ATTEMPTS) as [Hpos|Hneg].
    + destruct (retry_loop_exhausted self messages temperature max_tokens
                  n 0%nat None w ltac:(lia) Hall) as [_ Htrace].
      rewrite Htrace. by destruct n.
    + replace n with 0%nat by lia. cbn. by rewrite app_nil_r.
  - intros Hn.
    destruct (retry_loop_exhausted self messages temperature max_tokens
                n 0%nat None w ltac:(lia) Hall) as [Hres _].
    specialize (Hres Hn). subst run. unfold _call_api_with_retry. fold n.
    rewrite Hres. split; [done|]. split; [apply Hall; lia|].
    subst added. destruct n as [|n']; [lia|].
    cbn [exhausted_trace]. by rewrite last_snoc.
Qed.

(** C5. When the first attempt fails with an [HTTPStatusError] whose
    status is not in [RETRY_STATUS_CODES], or with any other exception,
    the wrapper raises that failure after this one request: it sends no
    second request and does not sleep. *)
Theorem non_retryable_fails_at_once self messages temperature max_tokens w :
  let c := config self in
  let run := _call_api_with_retry self messages temperature max_tokens w in
  0 < RETRY_ATTEMPTS →
  non_retryable (response c messages temperature max_tokens 0 (net w)) →
  run.1 = response c messages temperature max_tokens 0 (net w) ∧
  trace run.2 =
    trace w ++
    [EvApiCall (model_key self) messages temperature max_tokens] ∧
  net run.2 = net_after c messages temperature max_tokens 1 (net w).
Proof.
  intros c run Hpos Hfail. subst run. unfold _call_api_with_retry.
  destruct (Z.to_nat RETRY_ATTEMPTS) as [|n] eqn:Hn; [lia|].
  cbn [seq]. rewrite retry_loop_step.
  destruct (call_api_run self messages temperature max_tokens w)
    as (Hr&Hnet&Ht).
  fold c in Hr, Hnet. rewrite <- Hr in Hfail |- *. rewrite <- Hnet.
  destruct (_call_api self messages temperature max_tokens w)
    as [[e|result] w1]; cbn in Hfail, Ht |- *; [|done].
  destruct e as [code text msg| | |]; try done.
  by rewrite bool_decide_eq_false_2 by done.
Qed.

(** ** [verify_code] *)

Lemma quiet_wf w w' : quiet w w' → wf w → wf w'.
Proof.
  intros (Hl&Hd&Hn&Hp&Hc) Hwf.
  apply (wf_heap w w' Hwf Hl Hd); [lia|]. intros k p. rewrite Hp. auto.
Qed.

Lemma verify_code_cases self system_prompt user_message w :
  verify_code self system_prompt user_message w =
  match
    _call_api_with_retry self
      [ {| role := "system"; content := system_prompt |};
        {| role := "user"; content := user_message |} ]
      DEFAULT_TEMPERATURE DEFAULT_MAX_TOKENS w
  with
  | (inr data, w1) =>
      match success_of self data with
      | inr s => (inr (Success s), w1)
      | inl e => verify_code_except self e w1
      end
  | (inl e, w1) => verify_code_except self e w1
  end.
Proof.
  unfold verify_code, try_except, bind.
  destruct (_call_api_with_retry _ _ _ _ _) as [[e|data] w1]; [done|].
  unfold lift. by destruct (success_of self data).
Qed.

(** Every [except] clause logs the message it returns. *)
Lemma verify_code_except_run self e w :
  ∃ ty msg code,
    verify_code_except self e w =
    (inr (failure self msg code),
     (log_error (model_key self) ty msg
        match code with Some (CodeInt z) => Some z | _ => None end w).2) ∧
    (∀ n m, e = PyException n m → ty = n ∧ msg = n +:+ ": " +:+ m ∧
                                  code = None).
Proof.
  destruct e as [c text m|m|m|n m]; cbn [verify_code_except];
    unfold bind; rewrite log_error_eq; cbn [ret].
  - exists "HTTP Error", ("API Error: " +:+ pretty c +:+ " - " +:+
                          PyStr.take 300 text), (Some (CodeInt c)).
    by split.
  - exists "Timeout", ("Request timed out after " +:+
                       pretty (default 60 (timeout (config self))) +:+ "s"),
           (Some (CodeStr "TIMEOUT")).
    by split.
  - exists "Connection Error", ("Connection failed: " +:+ m),
           (Some (CodeStr "CONNECTION_ERROR")).
    by split.
  - exists n, (n +:+ ": " +:+ m), None.
    split; [done|]. intros ? ? [=]. by subst.
Qed.

Lemma extract_verdict_error data e :
  extract_verdict data = inl e →
  ∃ ty msg, e = PyException ty msg ∧
            ty ∈ ["KeyError"; "IndexError"; "TypeError"].
Proof.
  assert (Hstr : ∀ x k e', getitem_str x k = inl e' →
            ∃ ty msg, e' = PyException ty msg ∧
                      ty ∈ ["KeyError"; "IndexError"; "TypeError"]).
  { intros x k e' H. destruct x as [| | | | | |m]; cbn in H;
      try (injection H as <-; eexists _, _; split; [done|set_solver]).
    destruct (m !! k); [done|].
    injection H as <-. eexists _, _; split; [done|set_solver]. }
  assert (Hint : ∀ x i e', getitem_int x i = inl e' →
            ∃ ty msg, e' = PyException ty msg ∧
                      ty ∈ ["KeyError"; "IndexError"; "TypeError"]).
  { intros x i e' H. destruct x as [| | | |str|l|m]; cbn in H;
      try (injection H as <-; eexists _, _; split; [done|set_solver]).
    - destruct (String.get i str); [done|].
      injection H as <-. eexists _, _; split; [done|set_solver].
    - destruct (l !! i); [done|].
      injection H as <-. eexists _, _; split; [done|set_solver]. }
  unfold extract_verdict. intros H.
  destruct (getitem_str data "choices") as [e1|choices] eqn:H1.
  { injection H as <-. eauto. }
  destruct (getitem_int choices 0) as [e2|choice] eqn:H2.
  { injection H as <-. eauto. }
  destruct (getitem_str choice "message") as [e3|msg] eqn:H3.
  { injection H as <-. eauto. }
  eauto.
Qed.

(** C9. [verify_code] returns an outcome in every world, whatever the
    endpoint does.  When the wrapper hands back a body from which the
    verdict cannot be read, the exception is a [KeyError], [IndexError] or
    [TypeError]; the outcome is then a failure without error code whose
    message starts with the exception's type name, and the same message is
    appended to the diagnostics log under the provider's key.  A body
    without ["choices"], with an empty ["choices"] list, or whose first
    choice lacks ["message"] or its ["content"], is such a body. *)
Theorem verify_code_malformed_body self system_prompt user_message w :
  (∃ o, (verify_code self system_prompt user_message w).1 = inr o) ∧
  (∀ data w1 e,
     wf w →
     _call_api_with_retry self
       [ {| role := "system"; content := system_prompt |};
         {| role := "user"; content := user_message |} ]
       DEFAULT_TEMPERATURE DEFAULT_MAX_TOKENS w = (inr data, w1) →
     extract_verdict data = inl e →
     ∃ ty msg,
       e = PyException ty msg ∧
       ty ∈ ["KeyError"; "IndexError"; "TypeError"] ∧
       (verify_code self system_prompt user_message w).1 =
         inr (Failure {| f_error := ty +:+ ": " +:+ msg;
                         f_error_code := None;
                         f_model := name (config self);
                         f_model_key := model_key self |}) ∧
       error_log (verify_code self system_prompt user_message w).2 =
         appended (error_log w)
           {| timestamp := isoformat (clock w); model := model_key self;
              error_type := ty;
              details := PyStr.take 500 (ty +:+ ": " +:+ msg);
              status_code := None |}) ∧
  (∀ m, m !! "choices" = None →
     extract_verdict (JObj m) = inl (PyException "KeyError" "'choices'")) ∧
  (∀ m, m !! "choices" = Some (JArr []) →
     extract_verdict (JObj m) =
     inl (PyException "IndexError" "list index out of range")) ∧
  (∀ m c rest, m !! "choices" = Some (JArr (JObj c :: rest)) →
     c !! "message" = None →
     extract_verdict (JObj m) = inl (PyException "KeyError" "'message'")) ∧
  (∀ m c rest mm, m !! "choices" = Some (JArr (JObj c :: rest)) →
     c !! "message" = Some (JObj mm) → mm !! "content" = None →
     extract_verdict (JObj m) = inl (PyException "KeyError" "'content'")).
Proof.
  split; [|split; [|split; [|split; [|split]]]].
  - rewrite verify_code_cases.
    destruct (_call_api_with_retry _ _ _ _ _) as [[e|data] w1].
    + destruct (verify_code_except_run self e w1) as (?&?&?&->&_). eauto.
    + destruct (success_of self data) as [e|s]; [|eauto].
      destruct (verify_code_except_run self e w1) as (?&?&?&->&_). eauto.
  - intros data w1 e Hwf Hcall Hbad.
    destruct (extract_verdict_error data e Hbad) as (ty&msg&->&Hty).
    exists ty, msg. split; [done|]. split; [done|].
    rewrite verify_code_cases, Hcall. unfold success_of. rewrite Hbad.
    destruct (verify_code_except_run self (PyException ty msg) w1)
      as (ty'&msg'&code&->&Hshape).
    destruct (Hshape ty msg eq_refl) as (->&->&->).
    pose proof (quiet_call_api_with_retry self
      [ {| role := "system"; content := system_prompt |};
        {| role := "user"; content := user_message |} ]
      DEFAULT_TEMPERATURE DEFAULT_MAX_TOKENS w) as Hq.
    rewrite Hcall in Hq. cbn [snd] in Hq.
    split; [done|]. cbn [snd].
    rewrite error_log_log_error by by eapply quiet_wf.
    destruct Hq as (Hl&Hd&_&_&Hc).
    by rewrite (error_log_heap w w1), Hc.
  - intros m Hm. unfold extract_verdict. cbn. by rewrite Hm.
  - intros m Hm. unfold extract_verdict. cbn. by rewrite Hm.
  - intros m c rest Hm Hc. unfold extract_verdict. cbn. rewrite Hm.
    cbn. by rewrite Hc.
  - intros m c rest mm Hm Hc Hmm. unfold extract_verdict. cbn. rewrite Hm.
    cbn. rewrite Hc. cbn. by rewrite Hmm.
Qed.

(** ** The cost of a call *)

Lemma verify_code_success self system_prompt user_message w s w' :
  verify_code self system_prompt user_message w = (inr (Success s), w') →
  ∃ data,
    _call_api_with_retry self
      [ {| role := "system"; content := system_prompt |};
        {| role := "user"; content := user_message |} ]
      DEFAULT_TEMPERATURE DEFAULT_MAX_TOKENS w = (inr data, w') ∧
    success_of self data = inr s.
Proof.
  rewrite verify_code_cases.
  destruct (_call_api_with_retry _ _ _ _ _) as [[e|data] w1].
  - destruct (verify_code_except_run self e w1) as (?&?&?&->&_).
    intros [=].
  - destruct (success_of self data) as [e|s'] eqn:Hs.
    + destruct (verify_code_except_run self e w1) as (?&?&?&->&_).
      intros [=].
    + intros [= -> ->]. eauto.
Qed.

Lemma success_of_usage self data s :
  success_of self data = inr s →
  dict_get data "usage" (JObj ∅) = inr (tokens_used s) ∧
  _calculate_cost self (tokens_used s) = inr (cost s).
Proof.
  unfold success_of.
  destruct (extract_verdict data) as [e|v]; [done|].
  destruct (dict_get data "usage" (JObj ∅)) as [e|usage]; [done|].
  destruct (_calculate_cost self usage) as [e|c] eqn:Hc; [done|].
  intros [= <-]. by cbn.
Qed.

(** The division of two ints rounds the exact quotient once, whatever the
    size of the operands: [2**63 / 1000], [9007199254740995 / 1000] (a
    dividend that is no float), a quotient half-way between two floats, a
    negative dividend, and a quotient out of the range of the floats. *)
Example int_truediv_rounds_once :
  int_truediv 2000 1000 = inr 2%float ∧
  int_truediv (2 ^ 63) 1000 = inr 0x1.0624dd2f1a9fcp+53%float ∧
  int_truediv 9007199254740995 1000 = inr 0x1.0624dd2f1a9fdp+43%float ∧
  int_truediv 9007199254740993 1000 = inr 0x1.0624dd2f1a9fcp+43%float ∧
  int_truediv (-5) 1000 = inr (-0.005)%float ∧
  int_truediv 1 1000 = inr 0.001%float ∧
  int_truediv 0 1000 = inr 0%float ∧
  int_truediv (10 ^ 400) 1000 =
    inl (PyException "OverflowError"
           "integer division result too large for a float") ∧
  int_truediv 1 (10 ^ 400) = inr 0%float ∧
  int_truediv 1 0 = inl (PyException "ZeroDivisionError" "division by zero").
Proof. vm_compute. repeat split; reflexivity. Qed.

(** A usage whose token count is too large for a float makes the success
    path raise, so the call ends as a failure. *)
Lemma huge_usage_raises self (m u : gmap string json) v z e :
  extract_verdict (JObj m) = inr v →
  m !! "usage" = Some (JObj u) →
  u !! "total_tokens" = Some (JInt z) →
  int_truediv z 1000 = inl e →
  success_of self (JObj m) = inl e.
Proof.
  intros Hv Hu Hz He. unfold success_of. rewrite Hv.
  cbn [dict_get]. rewrite Hu.
  change (default (JObj ∅) (Some (JObj u))) with (JObj u).
  unfold _calculate_cost.
  assert (truthy (JObj u) = true) as ->.
  { cbn. destruct (Nat.eqb_spec (size u) 0) as [H0|]; [|done].
    apply map_size_empty_inv in H0. subst u.
    by rewrite lookup_empty in Hz. }
  cbn [negb dict_get]. rewrite Hz.
  change (default (JInt 0) (Some (JInt z))) with (JInt z).
  cbn [truediv_1000]. by rewrite He.
Qed.

(** C8. For every successful call the cost is [(total_tokens / 1000) *
    cost_per_1k], where [total_tokens] is read from the usage of the
    response (0 when the key is absent) and [cost_per_1k] from the config
    (0.0 when absent), in Python's arithmetic: the quotient of an int of
    any size by 1000 is rounded once and is in the range of the floats,
    the quotient of a float is the division of floats, and the product is
    the product of floats.  The cost is 0.0 when the usage is empty or the
    response has no usage; and it is 0.8 for 2000 tokens at 0.4 per
    thousand. *)
Theorem success_cost self system_prompt user_message w s w' :
  verify_code self system_prompt user_message w = (inr (Success s), w') →
  let cost_per_1k := default 0%float (cost_per_1k_tokens (config self)) in
  ∃ data,
    (_call_api_with_retry self
       [ {| role := "system"; content := system_prompt |};
         {| role := "user"; content := user_message |} ]
       DEFAULT_TEMPERATURE DEFAULT_MAX_TOKENS w).1 = inr data ∧
    dict_get data "usage" (JObj ∅) = inr (tokens_used s) ∧
    (∀ m, data = JObj m → m !! "usage" = None → cost s = 0%float) ∧
    (truthy (tokens_used s) = false → cost s = 0%float) ∧
    (truthy (tokens_used s) = true →
       ∃ u q,
         tokens_used s = JObj u ∧
         truediv_1000 (default (JInt 0) (u !! "total_tokens")) = inr q ∧
         cost s = PrimFloat.mul q cost_per_1k) ∧
    (∀ u z,
       tokens_used s = JObj u → truthy (JObj u) = true →
       default (JInt 0) (u !! "total_tokens") = JInt z →
       ∃ q, int_truediv z 1000 = inr q ∧
            cost s = PrimFloat.mul q cost_per_1k) ∧
    (∀ u f,
       tokens_used s = JObj u → u !! "total_tokens" = Some (JFloat f) →
       cost s = PrimFloat.mul (PrimFloat.div f 1000%float) cost_per_1k) ∧
    (∀ u,
       tokens_used s = JObj u → u !! "total_tokens" = Some (JInt 2000) →
       cost_per_1k_tokens (config self) = Some 0.4%float →
       cost s = 0.8%float).
Proof.
  intros Hrun cost_per_1k.
  destruct (verify_code_success _ _ _ _ _ _ Hrun) as (data&Hcall&Hs).
  destruct (success_of_usage _ _ _ Hs) as (Husage&Hcost).
  exists data. rewrite Hcall. split; [done|]. split; [done|].
  assert (Hfalsy : truthy (tokens_used s) = false → cost s = 0%float).
  { intros Hf. unfold _calculate_cost in Hcost. rewrite Hf in Hcost.
    cbn in Hcost. congruence. }
  assert (Hnonempty : ∀ u k v, u !! k = Some v → truthy (JObj u) = true).
  { intros u k v Hk. cbn.
    destruct (Nat.eqb_spec (size u) 0) as [H0|]; [|done].
    apply map_size_empty_inv in H0. subst u.
    by rewrite lookup_empty in Hk. }
  assert (Htruthy : ∀ u, tokens_used s = JObj u → truthy (JObj u) = true →
            ∃ q, truediv_1000 (default (JInt 0) (u !! "total_tokens")) =
                   inr q ∧
                 cost s = PrimFloat.mul q cost_per_1k).
  { intros u Hu Ht. rewrite Hu in Hcost. unfold _calculate_cost in Hcost.
    rewrite Ht in Hcost. cbn [negb dict_get] in Hcost.
    destruct (truediv_1000 _) as [e|q]; [done|].
    injection Hcost as <-. by exists q. }
  split; [|split; [done|split; [|split; [|split]]]].
  - intros m -> Hm. cbn in Husage. rewrite Hm in Husage. cbn in Husage.
    apply Hfalsy. injection Husage as <-. done.
  - intros Ht.
    assert (Hdict : ∃ u, tokens_used s = JObj u).
    { unfold _calculate_cost in Hcost. rewrite Ht in Hcost.
      cbn [negb] in Hcost.
      destruct (tokens_used s) as [| | | | | |u]; try done. by exists u. }
    destruct Hdict as (u&Hu).
    destruct (Htruthy u Hu) as (q&Hq&Hc); [by rewrite <- Hu|].
    by exists u, q.
  - intros u z Hu Ht Hz.
    destruct (Htruthy u Hu Ht) as (q&Hq&Hc). rewrite Hz in Hq.
    by exists q.
  - intros u f Hu Hf.
    destruct (Htruthy u Hu (Hnonempty u _ _ Hf)) as (q&Hq&Hc).
    rewrite Hf in Hq. cbn [default from_option id truediv_1000] in Hq.
    injection Hq as <-. done.
  - intros u Hu Hz Hc.
    destruct (Htruthy u Hu (Hnonempty u _ _ Hz)) as (q&Hq&Hcost').
    rewrite Hz in Hq. cbn [default from_option id truediv_1000] in Hq.
    assert (int_truediv 2000 1000 = inr 2%float) as H2
      by (vm_compute; reflexivity).
    rewrite H2 in Hq. injection Hq as <-.
    rewrite Hcost'. unfold cost_per_1k. rewrite Hc. reflexivity.
Qed.

(** ** [format_error_for_user] *)

Lemma fold_entry_lines (l : list log_entry) :
  ∀ init,
    fold_left (λ lines err, lines ++ entry_lines err) l init =
    init ++ flat_map entry_lines l.
Proof.
  induction l as [|e l IH]; intros init; cbn [fold_left flat_map].
  - by rewrite app_nil_r.
  - rewrite IH. by rewrite <- app_assoc.
Qed.

Lemma bool_decide_flag (P : Prop) `{Decision P} (b : bool) :
  bool_decide P = b → (P ↔ b = true).
Proof. intros <-. by rewrite bool_decide_eq_true. Qed.

Lemma bool_decide_agree (P Q : Prop) `{Decision P, Decision Q} :
  bool_decide P = bool_decide Q → (P ↔ Q).
Proof.
  intros Heq. rewrite <- (bool_decide_eq_true P), <- (bool_decide_eq_true Q).
  by rewrite Heq.
Qed.

Lemma has_status_exists code errors :
  has_status code errors = true ↔
  ∃ e, e ∈ errors ∧ status_code e = Some code.
Proof.
  unfold has_status. rewrite existsb_exists. split.
  - intros (e&Hin&He). exists e. rewrite list_elem_of_In.
    by apply bool_decide_eq_true in He.
  - intros (e&Hin&He). exists e. rewrite <- list_elem_of_In.
    by rewrite bool_decide_eq_true.
Qed.

Lemma has_text_exists needle errors :
  has_text needle errors = true ↔
  ∃ e, e ∈ errors ∧
       PyStr.contains needle (PyStr.lower (details e)) = true.
Proof.
  unfold has_text. rewrite existsb_exists. split.
  - intros (e&Hin&He). exists e. by rewrite list_elem_of_In.
  - intros (e&Hin&He). exists e. by rewrite <- list_elem_of_In.
Qed.

Lemma last_n_app_exact {A} (n : nat) (older recent : list A) :
  length recent = n → last_n n (older ++ recent) = recent.
Proof.
  intros <-. unfold last_n. rewrite length_app.
  replace (length older + length recent - length recent)%nat
    with (length older) by lia.
  by rewrite drop_app_length.
Qed.

(** C10. On the empty list the result is ["No errors recorded."].  On a
    non-empty list the result joins, with newlines: the heading; for each
    of the last five entries (all of them when there are fewer), in their
    order, the line ["- **model**: error_type"], followed by [" (HTTP
    code)"] when the entry has a status code other than 0, and the line
    ["  - "] with the first 150 characters of the details; the heading of
    the causes; and the causes.  No other entry is rendered.  Each cause
    is listed exactly when some entry of the whole list, rendered or not,
    shows it (status 401, status 429, "timeout" or "connect" in the
    lower-cased details), and the two generic lines are listed exactly
    when no entry shows any. *)
Theorem format_error_for_user_spec :
  format_error_for_user [] = "No errors recorded." ∧
  (∀ (older recent : list log_entry),
     length recent = 5%nat → last_n 5 (older ++ recent) = recent) ∧
  ∀ errors, errors ≠ [] →
    ∃ causes,
      let shown := drop (length errors - 5) errors in
      format_error_for_user errors =
        PyStr.join NL
          (["## Recent Errors" +:+ NL] ++
           flat_map
             (λ err,
                [ "- **" +:+ model err +:+ "**: " +:+ error_type err +:+
                  match status_code err with
                  | Some c => if negb (c =? 0)
                              then " (HTTP " +:+ pretty c +:+ ")"
                              else EmptyString
                  | None => EmptyString
                  end;
                  "  - " +:+ PyStr.take 150 (details err) ])
             shown ++
           [NL +:+ "## Possible Causes" +:+ NL] ++ causes) ∧
      length shown = (length errors `min` 5)%nat ∧
      (∃ older, errors = older ++ shown) ∧
      (cause_invalid_key ∈ causes ↔
         ∃ e, e ∈ errors ∧ status_code e = Some 401) ∧
      (cause_rate_limited ∈ causes ↔
         ∃ e, e ∈ errors ∧ status_code e = Some 429) ∧
      (cause_timeout ∈ causes ↔
         ∃ e, e ∈ errors ∧
              PyStr.contains "timeout" (PyStr.lower (details e)) = true) ∧
      (cause_connection ∈ causes ↔
         ∃ e, e ∈ errors ∧
              PyStr.contains "connect" (PyStr.lower (details e)) = true) ∧
      (cause_status_pages ∈ causes ∧ cause_credits ∈ causes ↔
         (cause_invalid_key ∉ causes) ∧ (cause_rate_limited ∉ causes) ∧
         (cause_timeout ∉ causes) ∧ (cause_connection ∉ causes)).
Proof.
  split; [reflexivity|]. split; [intros; by apply last_n_app_exact|].
  intros errors Hne.
  exists ((if has_status 401 errors then [cause_invalid_key] else []) ++
          (if has_status 429 errors then [cause_rate_limited] else []) ++
          (if has_text "timeout" errors then [cause_timeout] else []) ++
          (if has_text "connect" errors then [cause_connection] else []) ++
          (if negb (((has_status 401 errors || has_status 429 errors) ||
                     has_text "timeout" errors) ||
                    has_text "connect" errors)
           then [cause_status_pages; cause_credits] else [])).
  cbv zeta.
  rewrite <- !has_status_exists, <- !has_text_exists.
  split; [|split; [|split]].
  - destruct errors as [|e0 errors']; [done|].
    unfold format_error_for_user. f_equal. unfold format_lines.
    rewrite fold_entry_lines.
    destruct (has_status 401 _), (has_status 429 _),
      (has_text "timeout" _), (has_text "connect" _);
      cbn [negb orb app]; rewrite <- ?app_assoc; reflexivity.
  - rewrite length_drop. lia.
  - exists (take (length errors - 5) errors). by rewrite take_drop.
  - destruct (has_status 401 errors), (has_status 429 errors),
      (has_text "timeout" errors), (has_text "connect" errors);
      cbn [negb orb app];
      (split; [apply (bool_decide_flag _ _); vm_compute; reflexivity|]);
      (split; [apply (bool_decide_flag _ _); vm_compute; reflexivity|]);
      (split; [apply (bool_decide_flag _ _); vm_compute; reflexivity|]);
      (split; [apply (bool_decide_flag _ _); vm_compute; reflexivity|]);
      apply (bool_decide_agree _ _); vm_compute; reflexivity.
Qed.

(** ** The fallback sweep *)

Lemma attempt_dichotomy sp um key w :
  (∃ s w', attempt sp um key w = (inr (Success s), w')) ∨
  (∃ c w', failed_attempt sp um key w = Some (c, w')).
Proof.
  unfold failed_attempt.
  destruct (attempt sp um key w) as [[e|[s|f]] w']; eauto.
Qed.

Lemma primary_success sp um pm w s w' :
  attempt sp um pm w = (inr (Success s), w') →
  verify_with_fallback sp um pm w = (inr (FSuccess s), w').
Proof.
  unfold attempt, verify_with_fallback, bind, try_except.
  destruct (get_provider pm w) as [[e|p] w1]; [done|].
  destruct (verify_code p sp um w1) as [[e|[s'|f]] w2]; try done.
  by intros [= -> ->].
Qed.

Lemma primary_failure sp um pm w c w' :
  failed_attempt sp um pm w = Some (c, w') →
  verify_with_fallback sp um pm w =
  match fallback_sweep sp um pm (get_fallback_models pm) [c] w' with
  | (inr (inl s), w'') => (inr (FSuccess s), w'')
  | (inr (inr errors), w'') =>
      (inr (AllFailed (all_failed pm (get_fallback_models pm) errors)), w'')
  | (inl e, w'') => (inl e, w'')
  end.
Proof.
  unfold failed_attempt, attempt, verify_with_fallback, provider_error,
    bind, try_except.
  destruct (get_provider pm w) as [[e|p] w1].
  - rewrite log_error_eq. intros [= <- <-]. cbn [ret app].
    by destruct (fallback_sweep _ _ _ _ _ _) as [[?|[?|?]] ?].
  - destruct (verify_code p sp um w1) as [[e|[s'|f]] w2]; try done.
    + rewrite log_error_eq. intros [= <- <-]. cbn [ret app].
      by destruct (fallback_sweep _ _ _ _ _ _) as [[?|[?|?]] ?].
    + intros [= <- <-]. cbn [ret app].
      by destruct (fallback_sweep _ _ _ _ _ _) as [[?|[?|?]] ?].
Qed.

Lemma sweep_success sp um pm key rest errors w s w' :
  attempt sp um key w = (inr (Success s), w') →
  fallback_sweep sp um pm (key :: rest) errors w =
  (inr (inl (with_fallback pm s)), w').
Proof.
  unfold attempt. cbn [fallback_sweep]. unfold bind, try_except.
  destruct (get_provider key w) as [[e|p] w1]; [done|].
  destruct (verify_code p sp um w1) as [[e|[s'|f]] w2]; try done.
  by intros [= -> ->].
Qed.

Lemma sweep_failure sp um pm key rest errors w c w' :
  failed_attempt sp um key w = Some (c, w') →
  fallback_sweep sp um pm (key :: rest) errors w =
  fallback_sweep sp um pm rest (errors ++ [c]) w'.
Proof.
  unfold failed_attempt, attempt. cbn [fallback_sweep].
  unfold provider_error, bind, try_except.
  destruct (get_provider key w) as [[e|p] w1].
  - rewrite log_error_eq. by intros [= <- <-].
  - destruct (verify_code p sp um w1) as [[e|[s'|f]] w2]; try done.
    + rewrite log_error_eq. by intros [= <- <-].
    + by intros [= <- <-].
Qed.

Lemma sweep_all_failed sp um pm keys :
  ∀ errors w cs w',
    failed_attempts sp um keys w = Some (cs, w') →
    fallback_sweep sp um pm keys errors w = (inr (inr (errors ++ cs)), w').
Proof.
  induction keys as [|key rest IH]; intros errors w cs w'.
  - cbn. intros [= <- <-]. by rewrite app_nil_r.
  - cbn [failed_attempts].
    destruct (failed_attempt sp um key w) as [[c w1]|] eqn:Hc; [|done].
    destruct (failed_attempts sp um rest w1) as [[cs' w2]|] eqn:Hcs;
      [|done].
    intros [= <- <-]. rewrite (sweep_failure _ _ _ _ _ _ _ _ _ Hc).
    rewrite (IH _ _ _ _ Hcs). by rewrite <- app_assoc.
Qed.

Lemma sweep_first_success sp um pm pre :
  ∀ key post errors w cs w1 s w2,
    failed_attempts sp um pre w = Some (cs, w1) →
    attempt sp um key w1 = (inr (Success s), w2) →
    fallback_sweep sp um pm (pre ++ key :: post) errors w =
    (inr (inl (with_fallback pm s)), w2).
Proof.
  induction pre as [|k pre IH]; intros key post errors w cs w1 s w2.
  - cbn [failed_attempts app]. intros [= <- <-] Hs.
    by apply sweep_success.
  - cbn [failed_attempts].
    destruct (failed_attempt sp um k w) as [[c wa]|] eqn:Hc; [|done].
    destruct (failed_attempts sp um pre wa) as [[cs' wb]|] eqn:Hcs;
      [|done].
    intros [= <- <-] Hs. cbn [app].
    rewrite (sweep_failure _ _ _ _ _ _ _ _ _ Hc). by eapply IH.
Qed.

Lemma failed_attempt_model sp um key w c w' :
  failed_attempt sp um key w = Some (c, w') → cf_model c = key.
Proof.
  unfold failed_attempt.
  destruct (attempt sp um key w) as [[e|[s|f]] w1]; [|done|];
    by intros [= <- <-].
Qed.

Lemma failed_attempts_models sp um keys :
  ∀ w cs w',
    failed_attempts sp um keys w = Some (cs, w') → map cf_model cs = keys.
Proof.
  induction keys as [|key rest IH]; intros w cs w'.
  - by intros [= <- <-].
  - cbn [failed_attempts].
    destruct (failed_attempt sp um key w) as [[c w1]|] eqn:Hc; [|done].
    destruct (failed_attempts sp um rest w1) as [[cs' w2]|] eqn:Hcs;
      [|done].
    intros [= <- <-]. cbn. f_equal.
    + by eapply failed_attempt_model.
    + by eapply IH.
Qed.

Lemma credential_hint pm fallbacks errors :
  rec_api_keys ∈ af_recommendations (all_failed pm fallbacks errors) ↔
  ∃ c, c ∈ errors ∧ cf_error_code c = Some (CodeInt 401).
Proof.
  transitivity
    (CodeInt 401 ∈
       omap cf_error_code
         (filter (λ e, code_truthy (cf_error_code e) = true) errors)).
  - unfold all_failed. cbn [af_recommendations].
    destruct (bool_decide (CodeInt 401 ∈ _)) eqn:H401;
      [apply bool_decide_eq_true in H401
      |apply bool_decide_eq_false in H401];
      destruct (bool_decide (CodeInt 429 ∈ _)),
        (PyStr.contains "timeout" _), (PyStr.contains "connect" _);
      cbn [app];
      (split; [intros Hin|intros Hin; try done]);
      try done; try (by apply (bool_decide_unpack _); vm_compute);
      exfalso; apply (bool_decide_pack _) in Hin; vm_compute in Hin; done.
  - rewrite list_elem_of_omap. split.
    + intros (c&[_ Hin]%list_elem_of_filter&Hc). eauto.
    + intros (c&Hin&Hc). exists c. split; [|done].
      apply list_elem_of_filter. split; [|done]. by rewrite Hc.
Qed.

(** The failure collected for a failed attempt is the one its ending
    calls for, and the world is the one with the ending logged. *)
Lemma failed_ending_attempt sp um key w :
  failed_attempt sp um key w =
  match failed_ending sp um key w with
  | Some (x, w') => Some (collected_for key x, w')
  | None => None
  end.
Proof.
  unfold failed_attempt, failed_ending, attempt, bind.
  destruct (get_provider key w) as [[e|p] w1]; [reflexivity|].
  rewrite verify_code_cases.
  destruct (_call_api_with_retry _ _ _ _ _) as [[e|data] w2].
  - by destruct e.
  - destruct (success_of p data) as [e|s]; [|reflexivity]. by destruct e.
Qed.

Lemma failed_endings_attempts sp um keys :
  ∀ w,
    failed_attempts sp um keys w =
    match failed_endings sp um keys w with
    | Some (xs, w') => Some (map (λ kx, collected_for kx.1 kx.2) xs, w')
    | None => None
    end.
Proof.
  induction keys as [|key rest IH]; intros w; [reflexivity|].
  cbn [failed_attempts failed_endings]. rewrite failed_ending_attempt.
  destruct (failed_ending sp um key w) as [[x w1]|]; [|reflexivity].
  rewrite IH. by destruct (failed_endings sp um rest w1) as [[xs w2]|].
Qed.

Lemma failed_endings_keys sp um keys :
  ∀ w xs w', failed_endings sp um keys w = Some (xs, w') → map fst xs = keys.
Proof.
  induction keys as [|key rest IH]; intros w xs w'.
  - by intros [= <- <-].
  - cbn [failed_endings].
    destruct (failed_ending sp um key w) as [[x w1]|]; [|done].
    destruct (failed_endings sp um rest w1) as [[xs' w2]|] eqn:Hxs; [|done].
    intros [= <- <-]. cbn. f_equal. by eapply IH.
Qed.

Lemma failed_ending_success sp um key w :
  failed_ending sp um key w = None →
  ∃ s w', attempt sp um key w = (inr (Success s), w').
Proof.
  intros Hnone.
  destruct (attempt_dichotomy sp um key w) as [?|(c&w'&Hc)]; [done|].
  rewrite failed_ending_attempt, Hnone in Hc. done.
Qed.

(** A collected failure has the error code 401 exactly when the call of
    its model ended with an [HTTPStatusError] of status 401. *)
Lemma collected_401 (xs : list (string * ending)) :
  (∃ c, c ∈ map (λ kx, collected_for kx.1 kx.2) xs ∧
        cf_error_code c = Some (CodeInt 401)) ↔
  ∃ key self text msg,
    (key, CallFailed self (HTTPStatusError 401 text msg)) ∈ xs.
Proof.
  split.
  - intros (c&([key x]&->&Hin)%list_elem_of_fmap&Hc).
    destruct x as [e|self [code text msg|m|m|n m]]; cbn in Hc; try done.
    injection Hc as ->. by exists key, self, text, msg.
  - intros (key&self&text&msg&Hin).
    exists (collected_for key
              (CallFailed self (HTTPStatusError 401 text msg))).
    split; [|reflexivity].
    apply list_elem_of_fmap.
    by exists (key, CallFailed self (HTTPStatusError 401 text msg)).
Qed.

(** C2. When the attempt on the primary model and the attempts on all
    fallback models fail, one after the other, the result is the
    all-failed dict.  Its list of failures has one entry per model, for
    the primary model first and then the fallback models in the order of
    the fallback list, and the entry of a model is the failure its ending
    calls for: the message and the status of an [HTTPStatusError], the
    tags of a timeout and of a connection error, the type name and the
    text of any other exception.  The recommendations hold the credential
    hint exactly when one of these entries has error code 401, that is
    exactly when the call of some model ended with an [HTTPStatusError]
    of status 401. *)
Theorem all_models_failed sp um pm w xs w' :
  failed_endings sp um (pm :: get_fallback_models pm) w = Some (xs, w') →
  ∃ a,
    verify_with_fallback sp um pm w = (inr (AllFailed a), w') ∧
    af_errors a = map (λ kx, collected_for kx.1 kx.2) xs ∧
    map fst xs = pm :: get_fallback_models pm ∧
    map cf_model (af_errors a) = pm :: get_fallback_models pm ∧
    (rec_api_keys ∈ af_recommendations a ↔
     ∃ c, c ∈ af_errors a ∧ cf_error_code c = Some (CodeInt 401)) ∧
    (rec_api_keys ∈ af_recommendations a ↔
     ∃ key self text msg,
       (key, CallFailed self (HTTPStatusError 401 text msg)) ∈ xs).
Proof.
  intros Hxs.
  pose proof (failed_endings_keys _ _ _ _ _ _ Hxs) as Hkeys.
  pose proof (failed_endings_attempts sp um (pm :: get_fallback_models pm) w)
    as Hall.
  rewrite Hxs in Hall.
  pose proof (failed_attempts_models _ _ _ _ _ _ Hall) as Hm.
  cbn [failed_attempts] in Hall.
  destruct (failed_attempt sp um pm w) as [[c w1]|] eqn:Hc; [|done].
  destruct (failed_attempts sp um (get_fallback_models pm) w1)
    as [[cs' w2]|] eqn:Hcs; [|done].
  injection Hall as Hcs' <-.
  exists (all_failed pm (get_fallback_models pm) (c :: cs')).
  rewrite (primary_failure _ _ _ _ _ _ Hc).
  rewrite (sweep_all_failed _ _ _ _ _ _ _ _ Hcs). cbn [app].
  split; [done|]. cbn [af_errors all_failed]. rewrite Hcs'.
  split; [done|]. split; [done|]. split; [done|].
  split; [apply credential_hint|].
  rewrite credential_hint. apply collected_401.
Qed.

(** C3. When the attempt on the primary model fails, the attempts on the
    fallback models before [key] fail, and the attempt on [key] succeeds,
    the result is the success dict of [key] with [fallback_used] set to
    true and [primary_model_failed] set to the primary model's key, and
    the world is the one the attempt on [key] left: nothing is run for the
    models after [key]. *)
Theorem first_fallback_success sp um pm w c w1 pre key post cs w2 s w3 :
  failed_attempt sp um pm w = Some (c, w1) →
  get_fallback_models pm = pre ++ key :: post →
  failed_attempts sp um pre w1 = Some (cs, w2) →
  attempt sp um key w2 = (inr (Success s), w3) →
  verify_with_fallback sp um pm w =
  (inr (FSuccess
          {| verdict := verdict s; s_model := s_model s;
             s_model_key := s_model_key s; tokens_used := tokens_used s;
             cost := cost s; fallback_used := Some true;
             primary_model_failed := Some pm |}),
   w3).
Proof.
  intros Hc Hlist Hpre Hs.
  rewrite (primary_failure _ _ _ _ _ _ Hc), Hlist.
  by rewrite (sweep_first_success _ _ _ _ _ _ _ _ _ _ _ _ Hpre Hs).
Qed.

(** ** Failures are logged *)

Lemma get_provider_run key w :
  wf w →
  wf (get_provider key w).2 ∧
  error_log (get_provider key w).2 = error_log w ∧
  clock (get_provider key w).2 = clock w ∧
  ∀ p, (get_provider key w).1 = inr p → model_key p = key.
Proof.
  intros Hwf.
  destruct (providers w !! key) as [p|] eqn:Hcache.
  - rewrite (get_provider_cached key p w Hcache). cbn [fst snd].
    split; [done|]. split; [done|]. split; [done|]. intros ? [= <-].
    by destruct (wf_cache w Hwf key p Hcache).
  - rewrite (get_provider_fresh key w Hcache).
    pose proof (init_cases key w) as Hinit. cbn zeta in Hinit.
    assert (Hwf' : ∀ ps,
      (∀ k p, ps !! k = Some p →
         providers w !! k = Some p ∨
         (model_key p = k ∧ MODELS !! k = Some (config p) ∧
          enabled (config p) = true ∧ (self_id p < S (next_loc w))%nat)) →
      wf {| heap_lists := heap_lists w; heap_dicts := heap_dicts w;
            next_loc := S (next_loc w); providers := ps; net := net w;
            clock := clock w; trace := trace w |}).
    { intros ps Hps. apply (wf_heap w _ Hwf); try done. cbn. lia. }
    destruct (MODELS !! key) as [c|] eqn:Hm.
    + destruct (enabled c) eqn:Hen; rewrite Hinit; cbn [fst snd].
      * split; [|split; [done|split; [done|by intros ? [= <-]]]].
        apply Hwf'.
        intros k p [[<- <-]|[_ Hp]]%lookup_insert_Some; [|by left].
        right. cbn. repeat split; auto.
      * split; [apply Hwf'; auto|]. by split.
    + rewrite Hinit; cbn [fst snd]. split; [apply Hwf'; auto|]. by split.
Qed.

Lemma verify_code_run self sp um w :
  wf w →
  ∃ o,
    (verify_code self sp um w).1 = inr o ∧
    wf (verify_code self sp um w).2 ∧
    match o with
    | Success _ => error_log (verify_code self sp um w).2 = error_log w
    | Failure f =>
        ∃ e, records (collect (model_key self) f) e ∧
             error_log (verify_code self sp um w).2 =
             appended (error_log w) e
    end.
Proof.
  intros Hwf. rewrite verify_code_cases.
  pose proof (quiet_call_api_with_retry self
    [ {| role := "system"; content := sp |};
      {| role := "user"; content := um |} ]
    DEFAULT_TEMPERATURE DEFAULT_MAX_TOKENS w) as Hq.
  destruct (_call_api_with_retry _ _ _ _ _) as [r w1]. cbn [snd] in Hq.
  pose proof (quiet_wf _ _ Hq Hwf) as Hwf1.
  assert (Hlog : error_log w1 = error_log w).
  { destruct Hq as (Hl&Hd&_). by apply error_log_heap. }
  assert (Hexc : ∀ e,
    ∃ o, (verify_code_except self e w1).1 = inr o ∧
         wf (verify_code_except self e w1).2 ∧
         match o with
         | Success _ =>
             error_log (verify_code_except self e w1).2 = error_log w
         | Failure f =>
             ∃ e', records (collect (model_key self) f) e' ∧
                   error_log (verify_code_except self e w1).2 =
                   appended (error_log w) e'
         end).
  { intros e.
    destruct (verify_code_except_run self e w1) as (ty&msg&code&->&_).
    eexists. split; [reflexivity|]. cbn [snd].
    split; [by apply wf_log_error|].
    eexists. rewrite error_log_log_error, Hlog by done.
    split; [|reflexivity]. by repeat split. }
  destruct r as [e|data]; [apply Hexc|].
  destruct (success_of self data) as [e|s]; [apply Hexc|].
  exists (Success s). split; [done|]. split; [done|]. done.
Qed.

Lemma attempt_success_run sp um key w s w' :
  wf w → attempt sp um key w = (inr (Success s), w') →
  wf w' ∧ error_log w' = error_log w.
Proof.
  intros Hwf. unfold attempt, bind.
  destruct (get_provider_run key w Hwf) as (Hwf1&Hlog1&_&_).
  destruct (get_provider key w) as [[e|p] w1]; [done|].
  cbn [snd] in Hwf1, Hlog1.
  destruct (verify_code_run p sp um w1 Hwf1) as (o&Ho&Hwf2&Hlog2).
  destruct (verify_code p sp um w1) as [r w2]. cbn [fst snd] in *.
  subst r. intros [= -> ->]. split; [done|]. congruence.
Qed.

Lemma failed_attempt_run sp um key w c w' :
  wf w → failed_attempt sp um key w = Some (c, w') →
  wf w' ∧ cf_model c = key ∧
  ∃ e, records c e ∧ error_log w' = appended (error_log w) e.
Proof.
  intros Hwf Hfail.
  split; [|split; [by eapply failed_attempt_model|]]; revert Hfail;
    unfold failed_attempt, attempt, bind;
    destruct (get_provider_run key w Hwf) as (Hwf1&Hlog1&_&Hkey);
    destruct (get_provider key w) as [[e|p] w1]; cbn [fst snd] in *.
  - intros [= <- <-]. by apply wf_log_error.
  - destruct (verify_code_run p sp um w1 Hwf1) as (o&Ho&Hwf2&_).
    destruct (verify_code p sp um w1) as [r w2]. cbn [fst snd] in *.
    subst r. destruct o; [done|]. by intros [= <- <-].
  - intros [<- <-]%(inj Some)%pair_equal_spec. eexists.
    rewrite error_log_log_error, Hlog1 by done.
    split; [|reflexivity]. by repeat split.
  - destruct (verify_code_run p sp um w1 Hwf1) as (o&Ho&_&Hlog2).
    destruct (verify_code p sp um w1) as [r w2]. cbn [fst snd] in *.
    subst r. destruct o as [s|f]; [done|]. intros [= <- <-].
    rewrite (Hkey p eq_refl) in Hlog2. by rewrite <- Hlog1.
Qed.

Lemma sweep_run sp um pm keys :
  ∀ errors w,
    ∃ r,
      (fallback_sweep sp um pm keys errors w).1 = inr r ∧
      (wf w →
       ∃ failures logged,
         Forall2 records failures logged ∧
         error_log (fallback_sweep sp um pm keys errors w).2 =
           fold_left appended logged (error_log w) ∧
         map cf_model failures `prefix_of` keys ∧
         ∀ errs, r = inr errs →
           errs = errors ++ failures ∧ map cf_model failures = keys).
Proof.
  induction keys as [|key rest IH]; intros errors w.
  - exists (inr errors). split; [done|]. intros _. exists [], [].
    split; [constructor|]. split; [done|]. split; [done|].
    intros errs [= <-]. by rewrite app_nil_r.
  - destruct (attempt_dichotomy sp um key w) as [(s&w'&Hs)|(c&w'&Hc)].
    + rewrite (sweep_success _ _ _ _ _ _ _ _ _ Hs).
      eexists. split; [reflexivity|]. intros Hwf. exists [], [].
      destruct (attempt_success_run _ _ _ _ _ _ Hwf Hs) as [_ Hlog].
      split; [constructor|]. split; [done|].
      split; [apply prefix_nil|]. intros errs [=].
    + rewrite (sweep_failure _ _ _ _ _ _ _ _ _ Hc).
      destruct (IH (errors ++ [c]) w') as (r&Hr&Hrest).
      exists r. split; [done|]. intros Hwf.
      destruct (failed_attempt_run _ _ _ _ _ _ Hwf Hc)
        as (Hwf'&Hmodel&e&Hrec&Hlog).
      destruct (Hrest Hwf') as (failures&logged&Hall&Hlog'&Hpre&Herrs).
      exists (c :: failures), (e :: logged).
      split; [by constructor|].
      split; [by rewrite Hlog', Hlog|].
      split; [cbn; rewrite Hmodel; by apply prefix_cons|].
      intros errs ->. destruct (Herrs _ eq_refl) as [-> Hkeys].
      split; [by rewrite <- app_assoc|]. cbn. by rewrite Hmodel, Hkeys.
Qed.

(** A failed attempt appends the entry its ending calls for, stamped
    with the time at which the attempt began. *)
Lemma failed_ending_run sp um key w x w' :
  wf w → failed_ending sp um key w = Some (x, w') →
  wf w' ∧ clock w' = S (clock w) ∧
  error_log w' =
    appended (error_log w) (entry_of (clock w) (logged_for key x)) ∧
  lc_model (logged_for key x) = key.
Proof.
  intros Hwf. unfold failed_ending.
  destruct (get_provider_run key w Hwf) as (Hwf1&Hlog1&Hclock1&Hkey).
  destruct (get_provider key w) as [[e|p] w1]; cbn [fst snd] in *.
  - intros [<- <-]%(inj Some)%pair_equal_spec.
    split; [by apply wf_log_error|].
    split; [cbn; by rewrite Hclock1|]. split; [|done].
    rewrite error_log_log_error by done. by rewrite Hlog1, Hclock1.
  - pose proof (quiet_call_api_with_retry p
      [ {| role := "system"; content := sp |};
        {| role := "user"; content := um |} ]
      DEFAULT_TEMPERATURE DEFAULT_MAX_TOKENS w1) as Hq.
    destruct (_call_api_with_retry _ _ _ _ _) as [r w2]. cbn [snd] in Hq.
    pose proof (quiet_wf _ _ Hq Hwf1) as Hwf2.
    destruct Hq as (Hl&Hd&_&_&Hc).
    assert (Hlog2 : error_log w2 = error_log w)
      by (rewrite <- Hlog1; by apply error_log_heap).
    assert (Hexc : ∀ e,
      Some (CallFailed p e,
            (log_error (lc_model (logged_for key (CallFailed p e)))
               (lc_error_type (logged_for key (CallFailed p e)))
               (lc_details (logged_for key (CallFailed p e)))
               (lc_status_code (logged_for key (CallFailed p e))) w2).2) =
      Some (x, w') →
      wf w' ∧ clock w' = S (clock w) ∧
      error_log w' =
        appended (error_log w) (entry_of (clock w) (logged_for key x)) ∧
      lc_model (logged_for key x) = key).
    { intros e [<- <-]%(inj Some)%pair_equal_spec.
      split; [by apply wf_log_error|].
      split; [cbn; by rewrite Hc, Hclock1|].
      split; [|by apply Hkey].
      rewrite error_log_log_error by done. by rewrite Hlog2, Hc, Hclock1. }
    destruct r as [e|data]; [apply Hexc|].
    destruct (success_of p data) as [e|s]; [apply Hexc|done].
Qed.

Lemma failed_endings_run sp um keys :
  ∀ w xs w',
    wf w → failed_endings sp um keys w = Some (xs, w') →
    wf w' ∧ clock w' = (clock w + length xs)%nat ∧
    error_log w' =
      fold_left appended
        (entries_of (clock w) (map (λ kx, logged_for kx.1 kx.2) xs))
        (error_log w) ∧
    Forall (λ kx, lc_model (logged_for kx.1 kx.2) = kx.1) xs.
Proof.
  induction keys as [|key rest IH]; intros w xs w' Hwf.
  - intros [= <- <-]. cbn. split; [done|]. split; [lia|]. by split.
  - cbn [failed_endings].
    destruct (failed_ending sp um key w) as [[x w1]|] eqn:Hx; [|done].
    destruct (failed_endings sp um rest w1) as [[xs' w2]|] eqn:Hxs; [|done].
    intros [= <- <-].
    destruct (failed_ending_run _ _ _ _ _ _ Hwf Hx)
      as (Hwf1&Hclock1&Hlog1&Hmodel).
    destruct (IH _ _ _ Hwf1 Hxs) as (Hwf2&Hclock2&Hlog2&Hmodels).
    split; [done|]. split; [cbn [length]; lia|].
    split; [|by constructor].
    cbn [map]. rewrite entries_of_cons. cbn [fold_left fst snd].
    by rewrite Hlog2, Hlog1, Hclock1.
Qed.

(** What the sweep over [keys] does: the attempts on a first part of the
    list fail, one after the other, and then either the list is over and
    the failures are collected, or the next attempt succeeds and its
    success is returned, flagged as a fallback. *)
Lemma sweep_outcome sp um pm keys :
  ∀ errors w,
    ∃ tried xs w1,
      failed_endings sp um tried w = Some (xs, w1) ∧
      ((tried = keys ∧
        fallback_sweep sp um pm keys errors w =
          (inr (inr (errors ++ map (λ kx, collected_for kx.1 kx.2) xs)),
           w1)) ∨
       (∃ key rest s w2,
          keys = tried ++ key :: rest ∧
          attempt sp um key w1 = (inr (Success s), w2) ∧
          fallback_sweep sp um pm keys errors w =
            (inr (inl (with_fallback pm s)), w2))).
Proof.
  induction keys as [|key rest IH]; intros errors w.
  - exists [], [], w. split; [done|]. left. split; [done|].
    cbn. by rewrite app_nil_r.
  - destruct (failed_ending sp um key w) as [[x w0]|] eqn:Hx.
    + pose proof (failed_ending_attempt sp um key w) as Hc.
      rewrite Hx in Hc. rewrite (sweep_failure _ _ _ _ _ _ _ _ _ Hc).
      destruct (IH (errors ++ [collected_for key x]) w0)
        as (tried&xs&w1&Hxs&Hcases).
      exists (key :: tried), ((key, x) :: xs), w1.
      split; [cbn [failed_endings]; by rewrite Hx, Hxs|].
      destruct Hcases as [[-> Hrun]|(k&post&s&w2&->&Hs&Hrun)].
      * left. split; [done|]. rewrite Hrun. cbn [map fst snd].
        by rewrite <- app_assoc.
      * right. exists k, post, s, w2. by split.
    + destruct (failed_ending_success _ _ _ _ Hx) as (s&w2&Hs).
      exists [], [], w. split; [done|]. right.
      exists key, rest, s, w2. split; [done|]. split; [done|].
      by apply sweep_success.
Qed.

(** C4. In every world and for every behaviour of the endpoints,
    [verify_with_fallback] returns a result, the success dict or the
    all-failed dict, and raises nothing.  The models are tried in order,
    the primary model first: the attempts on a first part of the list
    fail, each with an exception of the resolution of its provider or of
    its call, and then either the list is over, and the result is the
    all-failed dict whose failures are the ones these endings call for,
    model by model; or the next attempt succeeds, and the result is its
    success, flagged as a fallback unless it is the primary model's.  In
    both cases the diagnostics log has grown by one entry for each failed
    attempt, in order, under the model's key, with the message collected
    for it, the kind of the exception and its HTTP status, and stamped
    with consecutive ticks of the clock. *)
Theorem verify_with_fallback_never_raises sp um pm w :
  let keys := pm :: get_fallback_models pm in
  let run := verify_with_fallback sp um pm w in
  (∃ r, run.1 = inr r ∧ ((∃ s, r = FSuccess s) ∨ (∃ a, r = AllFailed a))) ∧
  ∃ tried xs w1,
    failed_endings sp um tried w = Some (xs, w1) ∧
    map fst xs = tried ∧
    ((tried = keys ∧
      ∃ a, run = (inr (AllFailed a), w1) ∧
           af_errors a = map (λ kx, collected_for kx.1 kx.2) xs) ∨
     (∃ key rest s w2,
        keys = tried ++ key :: rest ∧
        attempt sp um key w1 = (inr (Success s), w2) ∧
        run =
          (inr (FSuccess match tried with
                         | [] => s
                         | _ => with_fallback pm s
                         end), w2))) ∧
    (wf w →
     error_log run.2 =
       fold_left appended
         (entries_of (clock w) (map (λ kx, logged_for kx.1 kx.2) xs))
         (error_log w) ∧
     Forall (λ kx, lc_model (logged_for kx.1 kx.2) = kx.1) xs).
Proof.
  intros keys run.
  assert (Hmain : ∃ tried xs w1,
    failed_endings sp um tried w = Some (xs, w1) ∧
    ((tried = keys ∧
      ∃ a, run = (inr (AllFailed a), w1) ∧
           af_errors a = map (λ kx, collected_for kx.1 kx.2) xs) ∨
     (∃ key rest s w2,
        keys = tried ++ key :: rest ∧
        attempt sp um key w1 = (inr (Success s), w2) ∧
        run =
          (inr (FSuccess match tried with
                         | [] => s
                         | _ => with_fallback pm s
                         end), w2)))).
  { subst run keys.
    destruct (failed_ending sp um pm w) as [[x w0]|] eqn:Hx.
    - pose proof (failed_ending_attempt sp um pm w) as Hc.
      rewrite Hx in Hc. rewrite (primary_failure _ _ _ _ _ _ Hc).
      destruct (sweep_outcome sp um pm (get_fallback_models pm)
                  [collected_for pm x] w0) as (tried&xs&w1&Hxs&Hcases).
      exists (pm :: tried), ((pm, x) :: xs), w1.
      split; [cbn [failed_endings]; by rewrite Hx, Hxs|].
      destruct Hcases as [[-> Hrun]|(k&post&s&w2&Hkeys&Hs&Hrun)].
      + left. split; [done|]. rewrite Hrun. eexists. split; [reflexivity|].
        done.
      + right. exists k, post, s, w2. rewrite Hrun, Hkeys. by split.
    - destruct (failed_ending_success _ _ _ _ Hx) as (s&w2&Hs).
      exists [], [], w. split; [done|]. right.
      exists pm, (get_fallback_models pm), s, w2.
      split; [done|]. split; [done|]. by apply primary_success. }
  destruct Hmain as (tried&xs&w1&Hxs&Hcases).
  split.
  - destruct Hcases as [[_ (a&Hrun&_)]|(k&post&s&w2&_&_&Hrun)];
      rewrite Hrun; eexists; (split; [reflexivity|]); eauto.
  - exists tried, xs, w1. split; [done|].
    split; [by eapply failed_endings_keys|]. split; [done|].
    intros Hwf.
    destruct (failed_endings_run _ _ _ _ _ _ Hwf Hxs)
      as (Hwf1&_&Hlog&Hmodels).
    split; [|done].
    destruct Hcases as [[_ (a&Hrun&_)]|(k&post&s&w2&_&Hs&Hrun)];
      rewrite Hrun; cbn [snd]; [done|].
    destruct (attempt_success_run _ _ _ _ _ _ Hwf1 Hs) as [_ Hlog2].
    by rewrite Hlog2.
Qed.

(** * Further properties *)

(** ** The retry wrapper, whatever the endpoint does *)

(** The loop from attempt [a] on, when the first [k] answers ask for a
    retry and answer [k] does not. *)
Lemma retry_loop_stops self messages temperature max_tokens k :
  ∀ a m last_error w,
    Z.of_nat a + Z.of_nat m = RETRY_ATTEMPTS → (k < m)%nat →
    (∀ i, (i < k)%nat →
       retryable (response (config self) messages temperature max_tokens
                           i (net w))) →
    ¬ retryable (response (config self) messages temperature max_tokens
                          k (net w)) →
    let run := retry_loop self messages temperature max_tokens (seq a m)
                          last_error w in
    run.1 = response (config self) messages temperature max_tokens k
                     (net w) ∧
    trace run.2 =
      trace w ++
      mjoin
        (map (λ i,
                [EvApiCall (model_key self) messages temperature max_tokens;
                 EvSleep (Z.min (RETRY_MIN_WAIT * 2 ^ Z.of_nat i)
                                RETRY_MAX_WAIT)])
             (seq a k)) ++
      [EvApiCall (model_key self) messages temperature max_tokens] ∧
    net run.2 =
      net_after (config self) messages temperature max_tokens (S k) (net w).
Proof.
  induction k as [|k IH]; intros a m last_error w Hsum Hk Hall Hfinal run;
    subst run; (destruct m as [|m]; [lia|]); cbn [seq];
    rewrite retry_loop_step;
    destruct (call_api_run self messages temperature max_tokens w)
      as (Hr&Hn&Ht).
  - rewrite <- Hr in Hfinal. rewrite <- Hr, <- Hn.
    destruct (_call_api self messages temperature max_tokens w)
      as [[e|result] w1]; cbn in Hfinal, Ht |- *; [|done].
    destruct e as [code text msg| | |]; try done.
    by rewrite bool_decide_eq_false_2 by done.
  - pose proof (Hall 0%nat ltac:(lia)) as H0. rewrite <- Hr in H0.
    destruct (_call_api self messages temperature max_tokens w)
      as [[e|result] w1]; cbn in Hr, Hn, Ht, H0; [|done].
    destruct e as [code text msg| | |]; try done.
    rewrite bool_decide_eq_true_2 by done.
    rewrite bool_decide_eq_true_2 by lia.
    destruct (IH (S a) m (Some (HTTPStatusError code text msg))
                 (sleep (wait_time a) w1).2 ltac:(lia) ltac:(lia))
      as (IH1&IH2&IH3).
    + intros i Hi. cbn [sleep emit snd net]. rewrite Hn.
      apply (Hall (S i)). lia.
    + cbn [sleep emit snd net]. by rewrite Hn.
    + split; [|split].
      * rewrite IH1. cbn [sleep emit snd net]. by rewrite Hn.
      * rewrite IH2. cbn [sleep emit snd trace]. rewrite Ht.
        cbn [seq map mjoin]. unfold wait_time.
        rewrite <- !app_assoc. done.
      * rewrite IH3. cbn [sleep emit snd net]. by rewrite Hn.
Qed.

(** Among the first [n] answers, either all ask for a retry or there is a
    first one that does not. *)
Lemma first_final_answer (c : ModelConfig) messages temperature max_tokens
    (s : NetState) (n : nat) :
  (∀ i, (i < n)%nat →
     retryable (response c messages temperature max_tokens i s)) ∨
  ∃ k, (k < n)%nat ∧
       (∀ i, (i < k)%nat →
          retryable (response c messages temperature max_tokens i s)) ∧
       ¬ retryable (response c messages temperature max_tokens k s).
Proof.
  induction n as [|n [IH|(k&Hk&Hbefore&Hfinal)]].
  - left. intros i Hi. lia.
  - destruct (decide (retryable
                        (response c messages temperature max_tokens n s)))
      as [Hn|Hn].
    + left. intros i Hi.
      destruct (decide (i = n)) as [->|Hne]; [done|]. apply IH. lia.
    + right. exists n. split; [lia|]. split; [|done].
      intros i Hi. by apply IH.
  - right. exists k. split; [lia|]. by split.
Qed.

(** The events of a call are those of [m] attempts, for some [m] between
    1 and [RETRY_ATTEMPTS] (0 when no attempt is allowed). *)
Lemma retry_trace_shape self messages temperature max_tokens w :
  let n := Z.to_nat RETRY_ATTEMPTS in
  ∃ m, (m ≤ n)%nat ∧ ((0 < n)%nat → (0 < m)%nat) ∧
       trace (_call_api_with_retry self messages temperature max_tokens
                                   w).2 =
       trace w ++ exhausted_trace self messages temperature max_tokens m.
Proof.
  intros n. unfold _call_api_with_retry. fold n.
  destruct (decide (n = 0%nat)) as [Hz|Hpos].
  - exists 0%nat. rewrite Hz. cbn. split; [lia|]. split; [lia|].
    by rewrite app_nil_r.
  - destruct (first_final_answer (config self) messages temperature
                max_tokens (net w) n) as [Hall|(k&Hk&Hbefore&Hfinal)].
    + exists n. split; [lia|]. split; [lia|].
      destruct (retry_loop_exhausted self messages temperature max_tokens
                  n 0%nat None w ltac:(lia) Hall) as [_ Htrace].
      rewrite Htrace. by destruct n.
    + exists (S k). split; [lia|]. split; [lia|].
      by destruct (retry_loop_stops self messages temperature max_tokens
                     k 0%nat n None w ltac:(lia) Hk Hbefore Hfinal)
        as (_&Htrace&_).
Qed.

Lemma wait_time_capped a : wait_time a ≤ RETRY_MAX_WAIT.
Proof. unfold wait_time. lia. Qed.

Lemma sleeps_exhausted_capped self messages temperature max_tokens m :
  Forall (λ s, s ≤ RETRY_MAX_WAIT)
         (sleeps (exhausted_trace self messages temperature max_tokens m)).
Proof.
  rewrite sleeps_exhausted. apply Forall_forall.
  intros s (i&->&_)%list_elem_of_fmap. lia.
Qed.

(** X1. When the first [k] attempts ask for a retry and attempt [k], still
    within the budget, returns a body or fails in a way that is not
    retried, the wrapper returns or raises what attempt [k] gave, after
    exactly [k + 1] requests and the [k] waits of the schedule. *)
Theorem retry_ends_at_first_final self messages temperature max_tokens w k :
  let c := config self in
  let run := _call_api_with_retry self messages temperature max_tokens w in
  (k < Z.to_nat RETRY_ATTEMPTS)%nat →
  (∀ i, (i < k)%nat →
     retryable (response c messages temperature max_tokens i (net w))) →
  ¬ retryable (response c messages temperature max_tokens k (net w)) →
  run.1 = response c messages temperature max_tokens k (net w) ∧
  trace run.2 =
    trace w ++ exhausted_trace self messages temperature max_tokens (S k) ∧
  api_calls (exhausted_trace self messages temperature max_tokens (S k)) =
    replicate (S k) (model_key self) ∧
  sleeps (exhausted_trace self messages temperature max_tokens (S k)) =
    map (λ i, Z.min (RETRY_MIN_WAIT * 2 ^ Z.of_nat i) RETRY_MAX_WAIT)
        (seq 0 k) ∧
  net run.2 = net_after c messages temperature max_tokens (S k) (net w).
Proof.
  intros c run Hk Hbefore Hfinal.
  destruct (retry_loop_stops self messages temperature max_tokens k 0%nat
              (Z.to_nat RETRY_ATTEMPTS) None w ltac:(lia) Hk Hbefore Hfinal)
    as (Hres&Htrace&Hnet).
  split; [done|]. split; [done|].
  split; [apply api_calls_exhausted|].
  split; [|done]. rewrite sleeps_exhausted. by rewrite Nat.sub_succ, Nat.sub_0_r.
Qed.

(** X2. Whatever the endpoint answers, the events of one call of the
    wrapper are those of [m] attempts, for some [m] up to [RETRY_ATTEMPTS]
    and at least 1 if any attempt is allowed: [m - 1] times a request
    followed by the wait of the schedule, then a last request with no
    wait after it.  So the call sends at most [RETRY_ATTEMPTS] requests,
    sleeps exactly once between two requests and never after the last,
    and no sleep is longer than [RETRY_MAX_WAIT]. *)
Theorem retry_is_bounded self messages temperature max_tokens w :
  let n := Z.to_nat RETRY_ATTEMPTS in
  let run := _call_api_with_retry self messages temperature max_tokens w in
  let request := EvApiCall (model_key self) messages temperature max_tokens in
  ∃ m added,
    (m ≤ n)%nat ∧ ((0 < n)%nat → (0 < m)%nat) ∧
    trace run.2 = trace w ++ added ∧
    added =
      match m with
      | O => []
      | S m' =>
          flat_map
            (λ i, [request;
                   EvSleep (Z.min (RETRY_MIN_WAIT * 2 ^ Z.of_nat i)
                                  RETRY_MAX_WAIT)])
            (seq 0 m') ++ [request]
      end ∧
    added = exhausted_trace self messages temperature max_tokens m ∧
    api_calls added = replicate m (model_key self) ∧
    sleeps added =
      map (λ i, Z.min (RETRY_MIN_WAIT * 2 ^ Z.of_nat i) RETRY_MAX_WAIT)
          (seq 0 (m - 1)) ∧
    (length (api_calls added) ≤ n)%nat ∧
    ((0 < n)%nat → (0 < length (api_calls added))%nat) ∧
    length (sleeps added) = (length (api_calls added) - 1)%nat ∧
    Forall (λ s, s ≤ RETRY_MAX_WAIT) (sleeps added) ∧
    (∀ ev, last added = Some ev → ev = request).
Proof.
  intros n run request.
  destruct (retry_trace_shape self messages temperature max_tokens w)
    as (m&Hle&Hpos&Htrace).
  exists m, (exhausted_trace self messages temperature max_tokens m).
  split; [done|]. split; [done|]. split; [done|].
  split.
  { destruct m as [|m']; [done|]. cbn [exhausted_trace]. f_equal.
    generalize (seq 0 m'). intros l.
    induction l as [|i l IH]; [done|]. cbn [flat_map]. by rewrite <- IH. }
  split; [done|].
  rewrite api_calls_exhausted, sleeps_exhausted.
  rewrite length_replicate, length_map, length_seq.
  split; [done|]. split; [done|].
  split; [done|]. split; [done|]. split; [done|].
  split.
  - rewrite <- (sleeps_exhausted self messages temperature max_tokens m).
    apply sleeps_exhausted_capped.
  - destruct m as [|m]; [done|]. cbn [exhausted_trace].
    rewrite last_snoc. by intros ev [= <-].
Qed.

(** X3. With a budget of no attempts ([RETRY_ATTEMPTS <= 0]) the wrapper
    sends no request and raises the [TypeError] of [raise None];
    [verify_code] turns it into a failure without error code and logs
    it. *)
Theorem no_attempts_allowed self system_prompt user_message messages
    temperature max_tokens w :
  RETRY_ATTEMPTS ≤ 0 →
  _call_api_with_retry self messages temperature max_tokens w =
    (inl (PyException "TypeError"
            "exceptions must derive from BaseException"), w) ∧
  verify_code self system_prompt user_message w =
    (inr (Failure
            {| f_error :=
                 "TypeError: exceptions must derive from BaseException";
               f_error_code := None; f_model := name (config self);
               f_model_key := model_key self |}),
     (log_error (model_key self) "TypeError"
        "TypeError: exceptions must derive from BaseException" None w).2).
Proof.
  intros Hn.
  assert (Hcall : ∀ ms t mx,
    _call_api_with_retry self ms t mx w =
    (inl (PyException "TypeError"
            "exceptions must derive from BaseException"), w)).
  { intros ms t mx. unfold _call_api_with_retry.
    by replace (Z.to_nat RETRY_ATTEMPTS) with 0%nat by lia. }
  split; [apply Hcall|].
  rewrite verify_code_cases, Hcall. reflexivity.
Qed.

(** X4. The wait after an attempt never exceeds [RETRY_MAX_WAIT]; with a
    non-negative [RETRY_MIN_WAIT] it does not shrink from one attempt to
    the next; and with [0 <= RETRY_MIN_WAIT <= RETRY_MAX_WAIT] it starts at
    [RETRY_MIN_WAIT] and never falls below it. *)
Theorem backoff_schedule (attempt : nat) :
  wait_time attempt ≤ RETRY_MAX_WAIT ∧
  (0 ≤ RETRY_MIN_WAIT → wait_time attempt ≤ wait_time (S attempt)) ∧
  (0 ≤ RETRY_MIN_WAIT ≤ RETRY_MAX_WAIT →
   wait_time 0 = RETRY_MIN_WAIT ∧ RETRY_MIN_WAIT ≤ wait_time attempt).
Proof.
  unfold wait_time.
  assert (Hpow : 0 < 2 ^ Z.of_nat attempt) by (apply Z.pow_pos_nonneg; lia).
  assert (Hsucc : 2 ^ Z.of_nat (S attempt) = 2 * 2 ^ Z.of_nat attempt).
  { rewrite Nat2Z.inj_succ. apply Z.pow_succ_r. lia. }
  split; [lia|]. split.
  - intros Hmin. rewrite Hsucc. nia.
  - intros [Hmin Hmax]. split.
    + cbn. lia.
    + nia.
Qed.

(** ** Snapshots of the log *)

Lemma grows_refl w : grows w w.
Proof. by split. Qed.

Lemma grows_trans w1 w2 w3 : grows w1 w2 → grows w2 w3 → grows w1 w3.
Proof.
  intros (Hn&Hl&Hd) (Hn'&Hl'&Hd'). split; [lia|]. split.
  - intros l Hne Hlt. rewrite Hl' by (done || lia). by apply Hl.
  - intros d Hlt. rewrite Hd' by lia. by apply Hd.
Qed.

Lemma quiet_grows w w' : quiet w w' → grows w w'.
Proof.
  intros (Hl&Hd&Hn&_). split; [lia|]. split.
  - intros l _ _. by rewrite Hl.
  - intros d _. by rewrite Hd.
Qed.

Lemma grows_bind {A B} (m : M A) (k : A → M B) :
  (∀ w, grows w (m w).2) → (∀ a w, grows w (k a w).2) →
  ∀ w, grows w (bind m k w).2.
Proof.
  intros Hm Hk w. unfold bind. specialize (Hm w).
  destruct (m w) as [[e|a] w']; cbn in *; [done|].
  eapply grows_trans; [exact Hm|apply Hk].
Qed.

Lemma grows_try_except {A} (m : M A) (h : exn → M A) :
  (∀ w, grows w (m w).2) → (∀ e w, grows w (h e w).2) →
  ∀ w, grows w (try_except m h w).2.
Proof.
  intros Hm Hh w. unfold try_except. specialize (Hm w).
  destruct (m w) as [[e|a] w']; cbn in *; [|done].
  eapply grows_trans; [exact Hm|apply Hh].
Qed.

Lemma grows_log_error m t d s w : grows w (log_error m t d s w).2.
Proof.
  split; [cbn; lia|]. split.
  - intros l Hne _. cbn. by rewrite lookup_insert_ne.
  - intros x Hlt. cbn. rewrite lookup_insert_ne; [done|lia].
Qed.

Lemma grows_get_error_log w : grows w (get_error_log w).2.
Proof.
  split; [cbn; lia|]. split.
  - intros l _ Hlt. cbn. rewrite lookup_insert_ne; [done|lia].
  - intros d _. done.
Qed.

Lemma grows_clear_error_log w : grows w (clear_error_log w).2.
Proof.
  split; [cbn; lia|]. split.
  - intros l Hne _. cbn. by rewrite lookup_insert_ne.
  - intros d _. done.
Qed.

Lemma grows_get_provider key w : grows w (get_provider key w).2.
Proof.
  destruct (providers w !! key) as [p|] eqn:Hcache.
  - rewrite (get_provider_cached key p w Hcache). apply grows_refl.
  - rewrite (get_provider_fresh key w Hcache).
    pose proof (init_cases key w) as Hinit. cbn zeta in Hinit.
    destruct (MODELS !! key) as [c|];
      [destruct (enabled c)|]; rewrite Hinit; (split; [cbn; lia|done]).
Qed.

Lemma grows_verify_code self sp um w : grows w (verify_code self sp um w).2.
Proof.
  rewrite verify_code_cases.
  pose proof (quiet_call_api_with_retry self
    [ {| role := "system"; content := sp |};
      {| role := "user"; content := um |} ]
    DEFAULT_TEMPERATURE DEFAULT_MAX_TOKENS w) as Hq%quiet_grows.
  destruct (_call_api_with_retry _ _ _ _ _) as [r w1]. cbn [snd] in Hq.
  assert (Hexc : ∀ e, grows w (verify_code_except self e w1).2).
  { intros e.
    destruct (verify_code_except_run self e w1) as (?&?&?&->&_).
    eapply grows_trans; [exact Hq|apply grows_log_error]. }
  destruct r as [e|data]; [apply Hexc|].
  destruct (success_of self data); [apply Hexc|done].
Qed.

Lemma grows_provider_error key e w : grows w (provider_error key e w).2.
Proof. apply grows_log_error. Qed.

Lemma grows_fallback_sweep sp um pm keys :
  ∀ errors w, grows w (fallback_sweep sp um pm keys errors w).2.
Proof.
  induction keys as [|key rest IH]; intros errors; cbn [fallback_sweep].
  - intros w. apply grows_refl.
  - apply grows_bind.
    + apply grows_try_except.
      * apply grows_bind; [apply grows_get_provider|]. intros p.
        apply grows_bind; [apply grows_verify_code|].
        intros [s|f] w; apply grows_refl.
      * intros e. apply grows_bind; [apply grows_provider_error|].
        intros; apply grows_refl.
    + intros [s|errors'] w; [apply grows_refl|apply IH].
Qed.

Lemma grows_verify_with_fallback sp um pm w :
  grows w (verify_with_fallback sp um pm w).2.
Proof.
  revert w. unfold verify_with_fallback. apply grows_bind.
  - apply grows_try_except.
    + apply grows_bind; [apply grows_get_provider|]. intros p.
      apply grows_bind; [apply grows_verify_code|].
      intros [s|f] w; apply grows_refl.
    + intros e. apply grows_bind; [apply grows_provider_error|].
      intros; apply grows_refl.
  - intros [s|errors] w; [apply grows_refl|]. revert w.
    apply grows_bind; [apply grows_fallback_sweep|].
    intros [s|errors'] w; apply grows_refl.
Qed.

Lemma grows_steps w w' : rtc step w w' → grows w w'.
Proof.
  induction 1 as [|w1 w2 w3 Hstep _ IH]; [apply grows_refl|].
  eapply grows_trans; [|exact IH]. destruct Hstep.
  - apply grows_log_error.
  - apply grows_get_error_log.
  - apply grows_clear_error_log.
  - apply grows_get_provider.
  - apply grows_verify_code.
  - apply grows_verify_with_fallback.
Qed.

Lemma wf_clear_error_log w : wf w → wf (clear_error_log w).2.
Proof.
  intros Hwf. split.
  - cbn. rewrite lookup_insert_eq. eauto.
  - intros l. cbn. intros [x Hx].
    destruct (decide (l = error_log_loc)) as [->|Hl].
    + pose proof (wf_lists w Hwf _ (wf_log w Hwf)). lia.
    + rewrite lookup_insert_ne in Hx by done.
      apply (wf_lists w Hwf). eauto.
  - apply Hwf.
  - intros d. unfold list_at. cbn. rewrite lookup_insert_eq. cbn.
    by intros ?%elem_of_nil.
  - apply Hwf.
Qed.

(** X5. A list returned by [get_error_log] is a snapshot: after any
    later operations of the module, among them [log_error] and
    [clear_error_log], it still holds the entries the log held when it was
    taken. *)
Theorem snapshot_is_stable w w' :
  wf w →
  rtc step (get_error_log w).2 w' →
  ∃ copy,
    (get_error_log w).1 = inr copy ∧
    list_at w' copy = list_at w error_log_loc ∧
    entries_at w' copy = error_log w.
Proof.
  intros Hwf (Hn&Hl&Hd)%grows_steps. exists (next_loc w).
  split; [done|].
  assert (Hne : next_loc w ≠ error_log_loc).
  { pose proof (wf_lists w Hwf _ (wf_log w Hwf)). lia. }
  assert (Hlist : list_at w' (next_loc w) = list_at w error_log_loc).
  { unfold list_at at 1. rewrite Hl by (done || cbn; lia).
    by apply copy_shares_entries. }
  split; [done|]. unfold error_log, entries_at. rewrite Hlist.
  apply omap_agree. intros d Hin. apply Hd. cbn.
  pose proof (wf_dicts w Hwf d (wf_entries w Hwf d Hin)). lia.
Qed.

(** X6. After [clear_error_log] the log is empty, and after any calls
    of [log_error] that follow it holds exactly the entries of these
    calls, the last 50 of them if there are more. *)
Theorem clear_then_record w calls :
  wf w →
  let w' := (record_all calls (clear_error_log w).2).2 in
  error_log (clear_error_log w).2 = [] ∧
  error_log w' = last_n 50 (entries_of (clock w) calls) ∧
  ((length calls ≤ 50)%nat → error_log w' = entries_of (clock w) calls).
Proof.
  intros Hwf w'. split; [apply error_log_clear|].
  destruct (record_all_spec calls _ (wf_clear_error_log w Hwf))
    as (_&_&Hlog).
  fold w' in Hlog. rewrite error_log_clear in Hlog.
  rewrite fold_appended_last_n in Hlog by (cbn; lia).
  cbn [app clear_error_log snd clock] in Hlog.
  split; [done|]. intros Hlen. rewrite Hlog. unfold last_n.
  rewrite length_entries_of.
  by replace (length calls - 50)%nat with 0%nat by lia.
Qed.

(** ** What [verify_code] reports *)

Lemma success_of_fields self data s :
  success_of self data = inr s →
  s_model s = name (config self) ∧ s_model_key s = model_key self ∧
  fallback_used s = None ∧ primary_model_failed s = None.
Proof.
  unfold success_of.
  destruct (extract_verdict data) as [e|v]; [done|].
  destruct (dict_get data "usage" (JObj ∅)) as [e|usage]; [done|].
  destruct (_calculate_cost self usage) as [e|c]; [done|].
  by intros [= <-].
Qed.

(** X7. [verify_code] appends exactly one entry to the diagnostics log
    when it returns a failure and leaves the log alone when it succeeds.
    The entry carries the provider's key, the failure's message cut to 500
    characters, the time of the call, and the HTTP status exactly when the
    failure's error code is one.  Both dicts carry the provider's key and
    the display name of its config, and a success dict has no fallback
    keys. *)
Theorem verify_code_logs_its_failure self system_prompt user_message w :
  wf w →
  ∃ o,
    (verify_code self system_prompt user_message w).1 = inr o ∧
    match o with
    | Success s =>
        error_log (verify_code self system_prompt user_message w).2 =
          error_log w ∧
        s_model s = name (config self) ∧ s_model_key s = model_key self ∧
        fallback_used s = None ∧ primary_model_failed s = None
    | Failure f =>
        f_model f = name (config self) ∧ f_model_key f = model_key self ∧
        ∃ e,
          error_log (verify_code self system_prompt user_message w).2 =
            appended (error_log w) e ∧
          timestamp e = isoformat (clock w) ∧
          model e = model_key self ∧
          details e = PyStr.take 500 (f_error f) ∧
          status_code e =
            match f_error_code f with
            | Some (CodeInt z) => Some z
            | _ => None
            end
    end.
Proof.
  intros Hwf. rewrite verify_code_cases.
  pose proof (quiet_call_api_with_retry self
    [ {| role := "system"; content := system_prompt |};
      {| role := "user"; content := user_message |} ]
    DEFAULT_TEMPERATURE DEFAULT_MAX_TOKENS w) as Hq.
  destruct (_call_api_with_retry _ _ _ _ _) as [r w1]. cbn [snd] in Hq.
  pose proof (quiet_wf _ _ Hq Hwf) as Hwf1.
  destruct Hq as (Hl&Hd&_&_&Hc).
  assert (Hlog : error_log w1 = error_log w) by by apply error_log_heap.
  assert (Hexc : ∀ e,
    ∃ o, (verify_code_except self e w1).1 = inr o ∧
      match o with
      | Success s => False
      | Failure f =>
          f_model f = name (config self) ∧
          f_model_key f = model_key self ∧
          ∃ e',
            error_log (verify_code_except self e w1).2 =
              appended (error_log w) e' ∧
            timestamp e' = isoformat (clock w) ∧
            model e' = model_key self ∧
            details e' = PyStr.take 500 (f_error f) ∧
            status_code e' =
              match f_error_code f with
              | Some (CodeInt z) => Some z
              | _ => None
              end
      end).
  { intros e.
    destruct (verify_code_except_run self e w1) as (ty&msg&code&->&_).
    eexists. split; [reflexivity|]. cbn [snd failure f_model f_model_key].
    split; [done|]. split; [done|]. eexists.
    rewrite error_log_log_error, Hlog, Hc by done.
    split; [reflexivity|]. by repeat split. }
  destruct r as [e|data].
  - destruct (Hexc e) as (o&Ho&Hprop). exists o. split; [done|].
    by destruct o.
  - destruct (success_of self data) as [e|s] eqn:Hs.
    + destruct (Hexc e) as (o&Ho&Hprop). exists o. split; [done|].
      by destruct o.
    + exists (Success s). split; [done|]. split; [done|].
      by apply (success_of_fields self data).
Qed.

(** The wrapper raises the first answer that is not retried, or the last
    answer when the budget runs out, after the requests and waits made up
    to it. *)
Lemma retry_raises_final self messages temperature max_tokens w k e :
  (k < Z.to_nat RETRY_ATTEMPTS)%nat →
  (∀ i, (i < k)%nat →
     retryable (response (config self) messages temperature max_tokens i
                         (net w))) →
  response (config self) messages temperature max_tokens k (net w) =
    inl e →
  (retryable (inl e) → S k = Z.to_nat RETRY_ATTEMPTS) →
  (_call_api_with_retry self messages temperature max_tokens w).1 = inl e ∧
  trace (_call_api_with_retry self messages temperature max_tokens w).2 =
    trace w ++ exhausted_trace self messages temperature max_tokens (S k).
Proof.
  intros Hk Hbefore He Hlast.
  destruct (decide (retryable (inl e : exn + json))) as [Hr|Hr].
  - specialize (Hlast Hr). unfold _call_api_with_retry. rewrite <- Hlast.
    destruct (retry_loop_exhausted self messages temperature max_tokens
                (S k) 0%nat None w ltac:(lia)) as [Hres Htrace].
    { intros i Hi. destruct (decide (i = k)) as [->|Hne].
      - by rewrite He.
      - apply Hbefore. lia. }
    split; [|exact Htrace].
    rewrite Hres by lia. by rewrite Nat.sub_succ, Nat.sub_0_r.
  - destruct (retry_loop_stops self messages temperature max_tokens k 0%nat
                (Z.to_nat RETRY_ATTEMPTS) None w ltac:(lia) Hk Hbefore)
      as (Hres&Htrace&_); [by rewrite He|].
    split; [|exact Htrace]. unfold _call_api_with_retry. by rewrite Hres.
Qed.

(** X8. From the answers of the endpoint to the failure.  When the first
    [k] answers ask for a retry and answer [k], within the budget, is an
    exception that is not retried or is the answer of the last attempt
    allowed, [verify_code] returns the failure of that exception: an
    [HTTPStatusError] gives the status as error code and a message with
    the status and the first 300 characters of the body; a timeout gives
    ["TIMEOUT"] and names the configured timeout, 60 when the config has
    none; a connection error gives ["CONNECTION_ERROR"]; any other
    exception gives no error code and its type name before its text.  The
    call sends [k + 1] requests with the waits of the schedule between
    them, then writes one line to stderr, and appends one entry to the
    log, with the kind of the exception, the message, and the status of
    an [HTTPStatusError]. *)
Theorem verify_code_error_codes self system_prompt user_message w k e :
  let c := config self in
  let messages :=
    [ {| role := "system"; content := system_prompt |};
      {| role := "user"; content := user_message |} ] in
  let run := verify_code self system_prompt user_message w in
  wf w →
  (k < Z.to_nat RETRY_ATTEMPTS)%nat →
  (∀ i, (i < k)%nat →
     retryable (response c messages DEFAULT_TEMPERATURE DEFAULT_MAX_TOKENS
                         i (net w))) →
  response c messages DEFAULT_TEMPERATURE DEFAULT_MAX_TOKENS k (net w) =
    inl e →
  (retryable (inl e) → S k = Z.to_nat RETRY_ATTEMPTS) →
  ∃ f entry,
    run.1 = inr (Failure f) ∧
    f_model f = name c ∧ f_model_key f = model_key self ∧
    match e with
    | HTTPStatusError code text _ =>
        f_error_code f = Some (CodeInt code) ∧
        f_error f =
          "API Error: " +:+ pretty code +:+ " - " +:+ PyStr.take 300 text ∧
        error_type entry = "HTTP Error" ∧ status_code entry = Some code
    | TimeoutException _ =>
        f_error_code f = Some (CodeStr "TIMEOUT") ∧
        f_error f =
          "Request timed out after " +:+
          pretty (default 60 (timeout c)) +:+ "s" ∧
        error_type entry = "Timeout" ∧ status_code entry = None
    | ConnectError msg =>
        f_error_code f = Some (CodeStr "CONNECTION_ERROR") ∧
        f_error f = "Connection failed: " +:+ msg ∧
        error_type entry = "Connection Error" ∧ status_code entry = None
    | PyException type_name msg =>
        f_error_code f = None ∧ f_error f = type_name +:+ ": " +:+ msg ∧
        error_type entry = type_name ∧ status_code entry = None
    end ∧
    timestamp entry = isoformat (clock w) ∧
    model entry = model_key self ∧
    details entry = PyStr.take 500 (f_error f) ∧
    error_log run.2 = appended (error_log w) entry ∧
    trace run.2 =
      trace w ++
      exhausted_trace self messages DEFAULT_TEMPERATURE DEFAULT_MAX_TOKENS
                      (S k) ++
      [EvStderr ("[ARGUS ERROR] " +:+ model_key self +:+ ": " +:+
                 error_type entry +:+ " - " +:+
                 PyStr.take 200 (f_error f))].
Proof.
  intros c messages run Hwf Hk Hbefore He Hlast. subst run.
  destruct (retry_raises_final self messages DEFAULT_TEMPERATURE
              DEFAULT_MAX_TOKENS w k e Hk Hbefore He Hlast)
    as [Hres Htrace].
  pose proof (quiet_call_api_with_retry self messages DEFAULT_TEMPERATURE
                DEFAULT_MAX_TOKENS w) as Hq.
  rewrite verify_code_cases. fold messages.
  destruct (_call_api_with_retry self messages DEFAULT_TEMPERATURE
              DEFAULT_MAX_TOKENS w) as [r w1].
  cbn [fst snd] in *. subst r.
  pose proof (quiet_wf _ _ Hq Hwf) as Hwf1.
  destruct Hq as (Hl&Hd&_&_&Hc).
  assert (Hlog : error_log w1 = error_log w) by by apply error_log_heap.
  set (x := CallFailed self e).
  exists {| f_error := cf_error (collected_for (model_key self) x);
            f_error_code := cf_error_code (collected_for (model_key self) x);
            f_model := name c; f_model_key := model_key self |},
         (entry_of (clock w) (logged_for (model_key self) x)).
  subst x.
  destruct e as [code text m|m|m|n m]; cbn [verify_code_except];
    unfold bind; rewrite log_error_eq; cbn [ret fst snd];
    (split; [reflexivity|]); cbn [f_model f_model_key f_error f_error_code];
    (split; [reflexivity|]); (split; [reflexivity|]);
    (split; [split; [reflexivity|split; [reflexivity|
                                        split; reflexivity]]|]);
    (split; [reflexivity|]); (split; [reflexivity|]);
    (split; [reflexivity|]);
    (split; [by rewrite error_log_log_error, Hlog, Hc by done|]);
    cbn [log_error emit snd trace]; rewrite Htrace, <- app_assoc;
    reflexivity.
Qed.

(** ** Which models [verify_with_fallback] calls *)

Lemma get_provider_trace key w :
  trace (get_provider key w).2 = trace w ∧
  ∀ p, (get_provider key w).1 = inr p →
       providers (get_provider key w).2 !! key = Some p.
Proof.
  destruct (providers w !! key) as [p|] eqn:Hcache.
  - rewrite (get_provider_cached key p w Hcache). cbn.
    split; [done|]. by intros ? [= <-].
  - rewrite (get_provider_fresh key w Hcache).
    pose proof (init_cases key w) as Hinit. cbn zeta in Hinit.
    destruct (MODELS !! key) as [c|];
      [destruct (enabled c)|]; rewrite Hinit; cbn; (split; [done|]);
      intros ? [=]. subst. apply lookup_insert_eq.
Qed.

Lemma get_provider_enabled key w p :
  wf w → (get_provider key w).1 = inr p →
  model_key p = key ∧ enabled_key key.
Proof.
  intros Hwf Hp.
  destruct (get_provider_run key w Hwf) as (Hwf'&_&_&_).
  destruct (get_provider_trace key w) as [_ Hcached].
  destruct (wf_cache _ Hwf' key p (Hcached p Hp)) as (Hkey&Hm&Hen&_).
  split; [done|]. by exists (config p).
Qed.

Lemma api_calls_app evs evs' :
  api_calls (evs ++ evs') = api_calls evs ++ api_calls evs'.
Proof. unfold api_calls. apply omap_app. Qed.

Lemma verify_code_trace self sp um w :
  ∃ evs m,
    trace (verify_code self sp um w).2 = trace w ++ evs ∧
    (m ≤ Z.to_nat RETRY_ATTEMPTS)%nat ∧
    api_calls evs = replicate m (model_key self).
Proof.
  rewrite verify_code_cases.
  destruct (retry_trace_shape self
    [ {| role := "system"; content := sp |};
      {| role := "user"; content := um |} ]
    DEFAULT_TEMPERATURE DEFAULT_MAX_TOKENS w) as (m&Hle&_&Htrace).
  cbn zeta in Hle.
  destruct (_call_api_with_retry _ _ _ _ _) as [r w1]. cbn [snd] in Htrace.
  assert (Hexc : ∀ e,
    ∃ evs m,
      trace (verify_code_except self e w1).2 = trace w ++ evs ∧
      (m ≤ Z.to_nat RETRY_ATTEMPTS)%nat ∧
      api_calls evs = replicate m (model_key self)).
  { intros e.
    destruct (verify_code_except_run self e w1) as (ty&msg&code&->&_).
    cbn [snd].
    destruct (log_error_fields (model_key self) ty msg
                match code with Some (CodeInt z) => Some z | _ => None end
                w1) as (_&_&_&_&Ht).
    rewrite Ht, Htrace, <- app_assoc. eexists _, m.
    split; [reflexivity|]. split; [done|].
    rewrite api_calls_app, api_calls_exhausted. cbn. apply app_nil_r. }
  destruct r as [e|data]; [apply Hexc|].
  destruct (success_of self data); [apply Hexc|].
  eexists _, m. split; [exact Htrace|]. split; [done|].
  apply api_calls_exhausted.
Qed.

(** The requests of one [try] block, whether the attempt succeeds in
    world [w'] or fails and leaves [w']. *)
Lemma attempt_trace sp um key w w' :
  wf w →
  (∃ s, attempt sp um key w = (inr (Success s), w')) ∨
  (∃ c, failed_attempt sp um key w = Some (c, w')) →
  ∃ evs m,
    trace w' = trace w ++ evs ∧ (m ≤ Z.to_nat RETRY_ATTEMPTS)%nat ∧
    api_calls evs = replicate m key ∧ ((0 < m)%nat → enabled_key key).
Proof.
  intros Hwf Hrun.
  destruct (get_provider_trace key w) as [Ht0 _].
  pose proof (get_provider_enabled key w) as Hen.
  assert (Hlogged : ∀ m t d s w0 evs (k : nat),
    trace w0 = trace w ++ evs → api_calls evs = replicate k key →
    trace (log_error m t d s w0).2 = trace w ++ (evs ++
      [EvStderr ("[ARGUS ERROR] " +:+ m +:+ ": " +:+ t +:+ " - " +:+
                 PyStr.take 200 d)]) ∧
    api_calls (evs ++
      [EvStderr ("[ARGUS ERROR] " +:+ m +:+ ": " +:+ t +:+ " - " +:+
                 PyStr.take 200 d)]) = replicate k key).
  { intros m t d s w0 evs k Htr Hcalls.
    destruct (log_error_fields m t d s w0) as (_&_&_&_&->).
    rewrite Htr, <- app_assoc. split; [done|].
    rewrite api_calls_app, Hcalls. cbn. apply app_nil_r. }
  revert Hrun. unfold failed_attempt, attempt, bind.
  destruct (get_provider key w) as [[e|p] w1]; cbn [fst snd] in *.
  - intros [(s&[=])|(c&[<- <-]%(inj Some)%pair_equal_spec)].
    destruct (Hlogged key "Provider Error"
                (exn_type_name e +:+ ": " +:+ exn_str e) None w1 [] 0%nat)
      as [Htr Hcalls]; [by rewrite app_nil_r|done|].
    eexists _, 0%nat. split; [exact Htr|]. split; [lia|].
    split; [done|]. lia.
  - destruct (Hen p Hwf eq_refl) as [Hkey Henabled].
    destruct (verify_code_trace p sp um w1) as (evs&m&Htr&Hle&Hcalls).
    rewrite Ht0, Hkey in *.
    destruct (verify_code p sp um w1) as [[e|[s|f]] w2]; cbn [snd] in *.
    + intros [(s&[=])|(c&[<- <-]%(inj Some)%pair_equal_spec)].
      destruct (Hlogged key "Provider Error"
                  (exn_type_name e +:+ ": " +:+ exn_str e) None w2 evs m)
        as [Htr' Hcalls']; [done|done|].
      eexists _, m. split; [exact Htr'|]. by repeat split.
    + intros [(s'&[= <- <-])|(c&[=])].
      exists evs, m. by repeat split.
    + intros [(s'&[=])|(c&[= <- <-])].
      exists evs, m. by repeat split.
Qed.

Lemma sweep_trace sp um pm keys :
  ∀ errors w,
    wf w →
    ∃ evs,
      trace (fallback_sweep sp um pm keys errors w).2 = trace w ++ evs ∧
      (∀ k, k ∈ api_calls evs → k ∈ keys ∧ enabled_key k) ∧
      (length (api_calls evs) ≤ Z.to_nat RETRY_ATTEMPTS * length keys)%nat.
Proof.
  induction keys as [|key rest IH]; intros errors w Hwf.
  - exists []. cbn. rewrite app_nil_r. split; [done|].
    split; [by intros k ?%elem_of_nil|lia].
  - destruct (attempt_dichotomy sp um key w) as [(s&w'&Hs)|(c&w'&Hc)].
    + rewrite (sweep_success _ _ _ _ _ _ _ _ _ Hs). cbn [snd].
      destruct (attempt_trace sp um key w w' Hwf)
        as (evs&m&Htr&Hle&Hcalls&Hen); [eauto|].
      exists evs. split; [done|]. rewrite Hcalls. split.
      * intros k [-> Hm]%elem_of_replicate. split; [left|].
        apply Hen. lia.
      * rewrite length_replicate. cbn [length]. nia.
    + rewrite (sweep_failure _ _ _ _ _ _ _ _ _ Hc).
      destruct (attempt_trace sp um key w w' Hwf)
        as (evs&m&Htr&Hle&Hcalls&Hen); [eauto|].
      destruct (failed_attempt_run _ _ _ _ _ _ Hwf Hc) as (Hwf'&_).
      destruct (IH (errors ++ [c]) w' Hwf') as (evs'&Htr'&Hin&Hlen).
      exists (evs ++ evs'). rewrite Htr', Htr, <- app_assoc.
      split; [done|]. rewrite api_calls_app, Hcalls. split.
      * intros k [[-> Hm]%elem_of_replicate|Hk]%elem_of_app.
        -- split; [left|]. apply Hen. lia.
        -- destruct (Hin k Hk). split; [by right|done].
      * rewrite length_app, length_replicate. cbn [length]. nia.
Qed.

(** X9. In a well-formed world [verify_with_fallback] sends requests only
    for the primary model and the models of the fallback list, only for
    keys that [MODELS] holds with an enabled config, and at most
    [RETRY_ATTEMPTS] for each model tried. *)
Theorem fallback_requests_bounded sp um pm w :
  wf w →
  ∃ evs,
    trace (verify_with_fallback sp um pm w).2 = trace w ++ evs ∧
    (∀ k, k ∈ api_calls evs →
          k ∈ pm :: get_fallback_models pm ∧ enabled_key k) ∧
    (length (api_calls evs) ≤
     Z.to_nat RETRY_ATTEMPTS * S (length (get_fallback_models pm)))%nat.
Proof.
  intros Hwf.
  destruct (attempt_dichotomy sp um pm w) as [(s&w'&Hs)|(c&w'&Hc)].
  - rewrite (primary_success _ _ _ _ _ _ Hs). cbn [snd].
    destruct (attempt_trace sp um pm w w' Hwf)
      as (evs&m&Htr&Hle&Hcalls&Hen); [eauto|].
    exists evs. split; [done|]. rewrite Hcalls. split.
    + intros k [-> Hm]%elem_of_replicate. split; [left|].
      apply Hen. lia.
    + rewrite length_replicate. nia.
  - rewrite (primary_failure _ _ _ _ _ _ Hc).
    destruct (attempt_trace sp um pm w w' Hwf)
      as (evs&m&Htr&Hle&Hcalls&Hen); [eauto|].
    destruct (failed_attempt_run _ _ _ _ _ _ Hwf Hc) as (Hwf'&_).
    destruct (sweep_trace sp um pm (get_fallback_models pm) [c] w' Hwf')
      as (evs'&Htr'&Hin&Hlen).
    exists (evs ++ evs'). split.
    + destruct (fallback_sweep _ _ _ _ _ _) as [[?|[?|?]] w''];
        cbn [snd] in *; by rewrite Htr', Htr, <- app_assoc.
    + rewrite api_calls_app, Hcalls. split.
      * intros k [[-> Hm]%elem_of_replicate|Hk]%elem_of_app.
        -- split; [left|]. apply Hen. lia.
        -- destruct (Hin k Hk). split; [by right|done].
      * rewrite length_app, length_replicate. nia.
Qed.

(** ** Where a success comes from *)

Lemma attempt_success_fields sp um key w s w' :
  wf w → attempt sp um key w = (inr (Success s), w') →
  s_model_key s = key ∧ fallback_used s = None ∧
  primary_model_failed s = None ∧ enabled_key key.
Proof.
  intros Hwf. unfold attempt, bind.
  pose proof (get_provider_enabled key w) as Hen.
  destruct (get_provider key w) as [[e|p] w1]; [done|].
  destruct (Hen p Hwf eq_refl) as [Hkey Henabled].
  intros Hrun.
  destruct (verify_code_success _ _ _ _ _ _ Hrun) as (data&_&Hs).
  destruct (success_of_fields _ _ _ Hs) as (_&Hk&Hf&Hp).
  split; [congruence|]. by repeat split.
Qed.

Lemma sweep_success_origin sp um pm keys :
  ∀ errors w s w',
    wf w →
    fallback_sweep sp um pm keys errors w = (inr (inl s), w') →
    s_model_key s ∈ keys ∧ enabled_key (s_model_key s) ∧
    fallback_used s = Some true ∧ primary_model_failed s = Some pm.
Proof.
  induction keys as [|key rest IH]; intros errors w s w' Hwf; [done|].
  destruct (attempt_dichotomy sp um key w) as [(s0&w0&Hs)|(c&w0&Hc)].
  - rewrite (sweep_success _ _ _ _ _ _ _ _ _ Hs). intros [= <- <-].
    destruct (attempt_success_fields _ _ _ _ _ _ Hwf Hs) as (Hk&_&_&Hen).
    cbn. rewrite Hk. split; [left|]. by repeat split.
  - rewrite (sweep_failure _ _ _ _ _ _ _ _ _ Hc). intros Hrun.
    destruct (failed_attempt_run _ _ _ _ _ _ Hwf Hc) as (Hwf'&_).
    destruct (IH _ _ _ _ Hwf' Hrun) as (Hin&Hrest).
    split; [by right|done].
Qed.

(** X10. A success dict returned by [verify_with_fallback] is for a key
    that [MODELS] holds with an enabled config.  Either the attempt on the
    primary model succeeded, and the dict is that of [verify_code] for the
    primary key, without the fallback keys; or the attempt on the primary
    model failed, and the dict is for a model of the fallback list, with
    [fallback_used] true and [primary_model_failed] the primary key. *)
Theorem success_provenance sp um pm w s :
  wf w →
  (verify_with_fallback sp um pm w).1 = inr (FSuccess s) →
  enabled_key (s_model_key s) ∧
  (((∃ w', attempt sp um pm w = (inr (Success s), w')) ∧
    s_model_key s = pm ∧ fallback_used s = None ∧
    primary_model_failed s = None) ∨
   ((∃ c w', failed_attempt sp um pm w = Some (c, w')) ∧
    s_model_key s ∈ get_fallback_models pm ∧
    fallback_used s = Some true ∧ primary_model_failed s = Some pm)).
Proof.
  intros Hwf.
  destruct (attempt_dichotomy sp um pm w) as [(s0&w0&Hs)|(c&w0&Hc)].
  - rewrite (primary_success _ _ _ _ _ _ Hs). intros [= <-].
    destruct (attempt_success_fields _ _ _ _ _ _ Hwf Hs) as (Hk&Hf&Hp&Hen).
    split; [by rewrite Hk|]. left. split; [eauto|]. by repeat split.
  - rewrite (primary_failure _ _ _ _ _ _ Hc).
    destruct (failed_attempt_run _ _ _ _ _ _ Hwf Hc) as (Hwf'&_).
    pose proof (sweep_success_origin sp um pm (get_fallback_models pm)
                  [c] w0) as Horigin.
    destruct (fallback_sweep _ _ _ _ _ _) as [[e|[s'|errs]] w''];
      cbn [fst]; intros [=]. subst s'.
    destruct (Horigin s w'' Hwf' eq_refl) as (Hin&Hen&Hf&Hp).
    split; [done|]. right. split; [eauto|]. by repeat split.
Qed.

(** ** A primary model that cannot be resolved *)

Lemma unresolved_attempt sp um key w :
  wf w → ¬ enabled_key key →
  ∃ msg,
    (msg = "Unknown model: " +:+ key ∨
     msg = "Model " +:+ key +:+ " is not enabled (missing API key)") ∧
    failed_attempt sp um key w =
    Some ({| cf_model := key; cf_error := "ValueError: " +:+ msg;
             cf_error_code := None |},
          (log_error key "Provider Error" ("ValueError: " +:+ msg) None
             (get_provider key w).2).2).
Proof.
  intros Hwf Hdis.
  assert (Hcache : providers w !! key = None).
  { destruct (providers w !! key) as [p|] eqn:Hp; [|done].
    destruct (wf_cache w Hwf key p Hp) as (_&Hm&Hen&_).
    destruct Hdis. by exists (config p). }
  unfold failed_attempt, attempt, bind.
  rewrite (get_provider_fresh key w Hcache).
  pose proof (init_cases key w) as Hinit. cbn zeta in Hinit.
  destruct (MODELS !! key) as [c|] eqn:Hm.
  - destruct (enabled c) eqn:Hen; [destruct Hdis; by exists c|].
    rewrite Hinit. eexists. split; [by right|]. reflexivity.
  - rewrite Hinit. eexists. split; [by left|]. reflexivity.
Qed.

Lemma unresolved_provider key w :
  wf w → ¬ enabled_key key →
  ∃ msg,
    (msg = "Unknown model: " +:+ key ∨
     msg = "Model " +:+ key +:+ " is not enabled (missing API key)") ∧
    (get_provider key w).1 = inl (PyException "ValueError" msg) ∧
    failed_ending EmptyString EmptyString key w =
      Some (Unresolved (PyException "ValueError" msg),
            (log_error key "Provider Error" ("ValueError: " +:+ msg) None
               (get_provider key w).2).2).
Proof.
  intros Hwf Hdis.
  assert (Hcache : providers w !! key = None).
  { destruct (providers w !! key) as [p|] eqn:Hp; [|done].
    destruct (wf_cache w Hwf key p Hp) as (_&Hm&Hen&_).
    destruct Hdis. by exists (config p). }
  unfold failed_ending.
  rewrite (get_provider_fresh key w Hcache).
  pose proof (init_cases key w) as Hinit. cbn zeta in Hinit.
  destruct (MODELS !! key) as [c|] eqn:Hm.
  - destruct (enabled c) eqn:Hen; [destruct Hdis; by exists c|].
    rewrite Hinit. eexists. split; [by right|]. by split.
  - rewrite Hinit. eexists. split; [by left|]. by split.
Qed.

(** X11. A primary key that [MODELS] does not hold, or whose config is
    disabled, does not abort the request: the constructor raises its
    [ValueError], which is logged and collected as the first failure; no
    request is sent for the key; and the fallback models are tried in
    their order from the world with that entry logged.  The attempts on a
    first part of the fallback list fail, and then either the list is
    over, and the result is the all-failed dict of the [ValueError]
    followed by the failures of the fallback models, or the next attempt
    succeeds, and the result is its success flagged as a fallback. *)
Theorem unresolved_primary_falls_back sp um pm w :
  wf w → ¬ enabled_key pm →
  ∃ msg r evs,
    (msg = "Unknown model: " +:+ pm ∨
     msg = "Model " +:+ pm +:+ " is not enabled (missing API key)") ∧
    (verify_with_fallback sp um pm w).1 = inr r ∧
    trace (verify_with_fallback sp um pm w).2 = trace w ++ evs ∧
    (pm ∉ api_calls evs) ∧
    match r with
    | AllFailed a =>
        head (af_errors a) =
        Some {| cf_model := pm; cf_error := "ValueError: " +:+ msg;
                cf_error_code := None |}
    | FSuccess s =>
        fallback_used s = Some true ∧ primary_model_failed s = Some pm
    end ∧
    (get_provider pm w).1 = inl (PyException "ValueError" msg) ∧
    let c := {| cf_model := pm; cf_error := "ValueError: " +:+ msg;
                cf_error_code := None |} in
    let w0 := (log_error pm "Provider Error" ("ValueError: " +:+ msg) None
                 (get_provider pm w).2).2 in
    ∃ tried xs w1,
      failed_endings sp um tried w0 = Some (xs, w1) ∧
      ((tried = get_fallback_models pm ∧
        verify_with_fallback sp um pm w =
          (inr (AllFailed
                  (all_failed pm (get_fallback_models pm)
                     (c :: map (λ kx, collected_for kx.1 kx.2) xs))),
           w1)) ∨
       (∃ key rest s w2,
          get_fallback_models pm = tried ++ key :: rest ∧
          attempt sp um key w1 = (inr (Success s), w2) ∧
          verify_with_fallback sp um pm w =
            (inr (FSuccess (with_fallback pm s)), w2))).
Proof.
  intros Hwf Hdis.
  destruct (unresolved_attempt sp um pm w Hwf Hdis) as (msg&Hmsg&Hc).
  assert (Hold : ∃ r evs,
    (verify_with_fallback sp um pm w).1 = inr r ∧
    trace (verify_with_fallback sp um pm w).2 = trace w ++ evs ∧
    (pm ∉ api_calls evs) ∧
    match r with
    | AllFailed a =>
        head (af_errors a) =
        Some {| cf_model := pm; cf_error := "ValueError: " +:+ msg;
                cf_error_code := None |}
    | FSuccess s =>
        fallback_used s = Some true ∧ primary_model_failed s = Some pm
    end).
  { destruct (failed_attempt_run _ _ _ _ _ _ Hwf Hc) as (Hwf'&_).
    destruct (attempt_trace sp um pm w _ Hwf (or_intror (ex_intro _ _ Hc)))
      as (evs&m&Htr&_&Hcalls&Hen).
    rewrite (primary_failure _ _ _ _ _ _ Hc).
    set (c := {| cf_model := pm; cf_error := "ValueError: " +:+ msg;
                 cf_error_code := None |}) in *.
    set (w1 := (log_error pm "Provider Error" ("ValueError: " +:+ msg) None
                  (get_provider pm w).2).2) in *.
    destruct (sweep_trace sp um pm (get_fallback_models pm) [c] w1 Hwf')
      as (evs'&Htr'&Hin&_).
    destruct (sweep_run sp um pm (get_fallback_models pm) [c] w1)
      as (r&Hr&Hlogs).
    destruct (Hlogs Hwf') as (failures&_&_&_&_&Herrs).
    pose proof (sweep_success_origin sp um pm (get_fallback_models pm)
                  [c] w1) as Horigin.
    assert (Hnot : pm ∉ api_calls (evs ++ evs')).
    { rewrite api_calls_app, Hcalls.
      intros [[_ Hm]%elem_of_replicate|Hk]%elem_of_app.
      - apply Hdis, Hen. lia.
      - by destruct (Hin pm Hk). }
    destruct (fallback_sweep _ _ _ _ _ _) as [r' w'']; cbn [fst snd] in *.
    subst r'. destruct r as [s|errs]; cbn [fst snd].
    - exists (FSuccess s), (evs ++ evs'). split; [done|].
      split; [by rewrite Htr', Htr, <- app_assoc|]. split; [done|].
      by destruct (Horigin s w'' Hwf' eq_refl) as (_&_&?&?).
    - eexists _, (evs ++ evs'). split; [reflexivity|].
      split; [by rewrite Htr', Htr, <- app_assoc|]. split; [done|].
      cbn [af_errors all_failed].
      by destruct (Herrs errs eq_refl) as [-> _]. }
  destruct Hold as (r&evs&Hr&Htr&Hnot&Hshape).
  exists msg, r, evs.
  split; [done|]. split; [done|]. split; [done|]. split; [done|].
  split; [done|].
  assert (Hget : (get_provider pm w).1 = inl (PyException "ValueError" msg)).
  { destruct (unresolved_provider pm w Hwf Hdis) as (msg'&_&Hget&Hend).
    pose proof (failed_ending_attempt EmptyString EmptyString pm w) as Hc'.
    rewrite Hend in Hc'. unfold failed_attempt, attempt, bind in Hc, Hc'.
    destruct (get_provider pm w) as [[e|p] w1]; [|done].
    cbn [fst] in Hget. injection Hget as ->.
    injection Hc as Hmsgs _. cbn in Hmsgs.
    change (msg' = msg) in Hmsgs. by subst. }
  split; [done|]. cbv zeta.
  rewrite (primary_failure _ _ _ _ _ _ Hc).
  destruct (sweep_outcome sp um pm (get_fallback_models pm)
              [{| cf_model := pm; cf_error := "ValueError: " +:+ msg;
                  cf_error_code := None |}]
              (log_error pm "Provider Error" ("ValueError: " +:+ msg) None
                 (get_provider pm w).2).2)
    as (tried&xs&w1&Hxs&Hcases).
  exists tried, xs, w1. split; [done|].
  destruct Hcases as [[-> Hrun]|(k&post&s&w2&Hkeys&Hs&Hrun)].
  - left. split; [done|]. by rewrite Hrun.
  - right. exists k, post, s, w2. by rewrite Hrun.
Qed.

(** ** Searching the joined messages *)

Lemma contains_cons needle c s :
  PyStr.contains needle (String c s) =
  String.prefix needle (String c s) || PyStr.contains needle s.
Proof. reflexivity. Qed.

Lemma lower_app a b :
  PyStr.lower (a +:+ b) = PyStr.lower a +:+ PyStr.lower b.
Proof.
  induction a as [|c a IH]; [reflexivity|].
  change (PyStr.lower (String c (a +:+ b)) =
          String (PyStr.lower_ascii c) (PyStr.lower a +:+ PyStr.lower b)).
  change (PyStr.lower (String c (a +:+ b)))
    with (String (PyStr.lower_ascii c) (PyStr.lower (a +:+ b))).
  by rewrite IH.
Qed.

Lemma lower_join (l : list string) :
  PyStr.lower (PyStr.join " " l) = PyStr.join " " (map PyStr.lower l).
Proof.
  unfold PyStr.join. induction l as [|x l IH]; [reflexivity|].
  destruct l as [|y l]; [reflexivity|].
  change (String.concat " " (x :: y :: l))
    with (x +:+ " " +:+ String.concat " " (y :: l)).
  change (String.concat " " (map PyStr.lower (x :: y :: l)))
    with (PyStr.lower x +:+ " " +:+
          String.concat " " (map PyStr.lower (y :: l))).
  rewrite !lower_app, IH. reflexivity.
Qed.

(** A needle without a space that begins before a space ends before
    it. *)
Lemma prefix_before_space needle :
  no_space needle = true →
  ∀ x rest,
    String.prefix needle (x +:+ String " " rest) = String.prefix needle x.
Proof.
  induction needle as [|c needle IH]; intros Hn x rest; [by destruct x|].
  cbn [no_space] in Hn. apply andb_prop in Hn as [Hc Hn].
  destruct x as [|d x].
  - change (EmptyString +:+ String " " rest) with (String " " rest).
    cbn [String.prefix].
    destruct (ascii_dec c " ") as [->|Hne]; [|done].
    by rewrite Ascii.eqb_refl in Hc.
  - change (String d x +:+ String " " rest)
      with (String d (x +:+ String " " rest)).
    cbn [String.prefix]. destruct (ascii_dec c d); [|done]. by apply IH.
Qed.

Lemma contains_across_space needle :
  no_space needle = true →
  ∀ a b,
    PyStr.contains needle (a +:+ String " " b) =
    PyStr.contains needle a || PyStr.contains needle b.
Proof.
  intros Hn a b. induction a as [|c a IH].
  - pose proof (prefix_before_space needle Hn EmptyString b) as Hp.
    change (EmptyString +:+ String " " b) with (String " " b) in *.
    rewrite contains_cons, Hp.
    change (PyStr.contains needle EmptyString)
      with (String.prefix needle EmptyString || false).
    by rewrite orb_false_r.
  - pose proof (prefix_before_space needle Hn (String c a) b) as Hp.
    change (String c a +:+ String " " b)
      with (String c (a +:+ String " " b)) in *.
    rewrite !contains_cons, IH, Hp. by rewrite orb_assoc.
Qed.

(** Searching the messages joined by spaces finds what searching each
    message finds. *)
Lemma contains_join needle (l : list string) :
  no_space needle = true → needle ≠ EmptyString →
  PyStr.contains needle (PyStr.join " " l) = existsb (PyStr.contains needle) l.
Proof.
  intros Hn Hne. unfold PyStr.join.
  induction l as [|x l IH]; [by destruct needle|].
  destruct l as [|y l].
  - cbn [String.concat existsb]. by rewrite orb_false_r.
  - change (String.concat " " (x :: y :: l))
      with (x +:+ String " " (String.concat " " (y :: l))).
    rewrite (contains_across_space needle Hn), IH. reflexivity.
Qed.

Lemma texts_contain needle (errors : list collected_failure) :
  no_space needle = true → needle ≠ EmptyString →
  PyStr.contains needle
    (PyStr.lower (PyStr.join " " (map cf_error errors))) = true ↔
  ∃ c, c ∈ errors ∧
       PyStr.contains needle (PyStr.lower (cf_error c)) = true.
Proof.
  intros Hn Hne. rewrite lower_join, contains_join by done.
  rewrite existsb_exists. split.
  - intros (x&Hin&Hx). apply list_elem_of_In in Hin.
    apply list_elem_of_fmap in Hin as (y&->&Hin).
    apply list_elem_of_fmap in Hin as (c&->&Hin). eauto.
  - intros (c&Hin&Hc). exists (PyStr.lower (cf_error c)).
    split; [|done]. apply list_elem_of_In.
    apply list_elem_of_fmap. eexists. split; [done|].
    apply list_elem_of_fmap. eauto.
Qed.

(** ** The recommendations *)

(** X12. The recommendations of the all-failed dict are never empty and
    never repeat a hint.  They are the generic pair exactly when no
    specific hint applies; otherwise they are specific hints in the order
    credential, rate limit, timeout, network.  The rate-limit hint is
    there exactly when some failure has error code 429, the timeout and
    network hints exactly when the message of some failure contains
    "timeout" and "connect", whatever the case of its letters. *)
Theorem recommendations_shape pm fallbacks errors :
  let recs := af_recommendations (all_failed pm fallbacks errors) in
  recs ≠ [] ∧ NoDup recs ∧
  (recs `sublist_of`
     [rec_api_keys; rec_rate_limited; rec_timeout; rec_network] ∨
   recs = [rec_status_pages; rec_credits]) ∧
  (recs = [rec_status_pages; rec_credits] ↔
   (rec_api_keys ∉ recs) ∧ (rec_rate_limited ∉ recs) ∧
   (rec_timeout ∉ recs) ∧ (rec_network ∉ recs)) ∧
  (rec_rate_limited ∈ recs ↔
   ∃ c, c ∈ errors ∧ cf_error_code c = Some (CodeInt 429)) ∧
  (rec_timeout ∈ recs ↔
   ∃ c, c ∈ errors ∧
        PyStr.contains "timeout" (PyStr.lower (cf_error c)) = true) ∧
  (rec_network ∈ recs ↔
   ∃ c, c ∈ errors ∧
        PyStr.contains "connect" (PyStr.lower (cf_error c)) = true).
Proof.
  intros recs.
  rewrite <- (texts_contain "timeout" errors) by done.
  rewrite <- (texts_contain "connect" errors) by done.
  assert (H429 :
    CodeInt 429 ∈
      omap cf_error_code
        (filter (λ e, code_truthy (cf_error_code e) = true) errors) ↔
    ∃ c, c ∈ errors ∧ cf_error_code c = Some (CodeInt 429)).
  { rewrite list_elem_of_omap. split.
    - intros (c&[_ Hin]%list_elem_of_filter&Hc). eauto.
    - intros (c&Hin&Hc). exists c. split; [|done].
      apply list_elem_of_filter. split; [|done]. by rewrite Hc. }
  rewrite <- H429. clear H429.
  subst recs. unfold all_failed. cbn [af_recommendations].
  destruct (bool_decide (CodeInt 401 ∈ _));
    (destruct (bool_decide (CodeInt 429 ∈ _)) eqn:H429;
       [apply bool_decide_eq_true in H429
       |apply bool_decide_eq_false in H429]);
    destruct (PyStr.contains "timeout" _), (PyStr.contains "connect" _);
    cbn [app];
    (split; [done|]);
    (split; [apply (bool_decide_unpack _); vm_compute; exact I|]);
    (split;
       [first [by right
              |left;
               repeat first [apply sublist_nil | apply sublist_skip
                            | apply sublist_cons]]|]);
    (split; [apply (bool_decide_agree _ _); vm_compute; reflexivity|]);
    (split;
       [split; [intros Hin; first [done | exfalso;
                  apply (bool_decide_pack _) in Hin; vm_compute in Hin;
                  done]
               |intros Hin; first [done
                  | apply (bool_decide_unpack _); vm_compute; exact I]]|]);
    split; apply (bool_decide_flag _ _); vm_compute; reflexivity.
Qed.

(** ** The report of [format_error_for_user] *)

(** X13. For a non-empty list the report has a heading, two lines for
    each of the last five entries, the heading of the causes and at least
    one cause: between one and four specific causes in the order
    credential, rate limit, timeout, connection, or the two generic
    lines. *)
Theorem format_lines_shape errors :
  errors ≠ [] →
  ∃ causes,
    format_lines errors =
      ["## Recent Errors" +:+ NL] ++
      flat_map entry_lines (last_n 5 errors) ++
      [NL +:+ "## Possible Causes" +:+ NL] ++ causes ∧
    length (flat_map entry_lines (last_n 5 errors)) =
      (2 * (length errors `min` 5))%nat ∧
    causes ≠ [] ∧ NoDup causes ∧
    (causes `sublist_of`
       [cause_invalid_key; cause_rate_limited; cause_timeout;
        cause_connection] ∨
     causes = [cause_status_pages; cause_credits]).
Proof.
  intros _. unfold format_lines. rewrite fold_entry_lines.
  assert (Hlen : length (flat_map entry_lines (last_n 5 errors)) =
                 (2 * (length errors `min` 5))%nat).
  { unfold last_n.
    assert (Hdrop : length (drop (length errors - 5) errors) =
                    (length errors `min` 5)%nat)
      by (rewrite length_drop; lia).
    rewrite <- Hdrop. generalize (drop (length errors - 5) errors).
    intros l. induction l as [|e l IH]; [done|].
    cbn [flat_map length]. rewrite length_app, IH. cbn. lia. }
  destruct (has_status 401 errors), (has_status 429 errors),
    (has_text "timeout" errors), (has_text "connect" errors);
    cbn [negb orb app];
    eexists;
    (split; [rewrite <- ?app_assoc; cbn [app]; reflexivity|]);
    (split; [exact Hlen|]);
    (split; [done|]);
    (split; [apply (bool_decide_unpack _); vm_compute; exact I|]);
    first [by right
          |left;
           repeat first [apply sublist_nil | apply sublist_skip
                        | apply sublist_cons]].
Qed.

(** ** The report after a failed request *)

(** The failures of a request and the entries logged for them. *)
Lemma fallback_logs sp um pm w :
  wf w →
  ∃ failures logged,
    Forall2 records failures logged ∧
    error_log (verify_with_fallback sp um pm w).2 =
      fold_left appended logged (error_log w) ∧
    ∀ a, (verify_with_fallback sp um pm w).1 = inr (AllFailed a) →
         af_errors a = failures.
Proof.
  intros Hwf.
  destruct (attempt_dichotomy sp um pm w) as [(s&w'&Hs)|(c&w'&Hc)].
  - rewrite (primary_success _ _ _ _ _ _ Hs). exists [], [].
    destruct (attempt_success_run _ _ _ _ _ _ Hwf Hs) as [_ Hlog].
    split; [constructor|]. split; [done|]. intros a [=].
  - rewrite (primary_failure _ _ _ _ _ _ Hc).
    destruct (failed_attempt_run _ _ _ _ _ _ Hwf Hc)
      as (Hwf'&_&e&Hrec&Hlog).
    destruct (sweep_run sp um pm (get_fallback_models pm) [c] w')
      as (r&Hr&Hrest).
    destruct (Hrest Hwf') as (failures&logged&Hall&Hlog'&_&Herrs).
    exists (c :: failures), (e :: logged).
    destruct (fallback_sweep _ _ _ _ _ _) as [r' w'']. cbn [fst snd] in *.
    subst r'. split; [by constructor|].
    destruct r as [s|errs]; cbn [fst snd].
    + split; [by rewrite Hlog', Hlog|]. intros a [=].
    + split; [by rewrite Hlog', Hlog|]. intros a [= <-].
      cbn [af_errors all_failed]. by destruct (Herrs errs eq_refl) as [-> _].
Qed.

Lemma elem_of_last_n_recent {A} (n : nat) (older recent : list A) x :
  x ∈ recent → (length recent ≤ n)%nat → x ∈ last_n n (older ++ recent).
Proof.
  intros Hin Hlen. unfold last_n. rewrite length_app.
  rewrite drop_app_le by lia. apply elem_of_app. by right.
Qed.

Lemma cause_listed code cause errors :
  (code = 401 ∧ cause = cause_invalid_key ∨
   code = 429 ∧ cause = cause_rate_limited) →
  has_status code errors = true → cause ∈ format_lines errors.
Proof.
  intros Hcase Hhas. unfold format_lines. rewrite fold_entry_lines.
  destruct Hcase as [[-> ->]|[-> ->]]; rewrite Hhas;
    [|destruct (has_status 401 errors)];
    destruct (has_status 429 errors), (has_text "timeout" errors),
      (has_text "connect" errors); try done;
    cbn [negb orb]; rewrite !elem_of_app, !list_elem_of_singleton; tauto.
Qed.

(** X14. The report agrees with the recommendations.  When a request
    ends in the all-failed dict for at most 50 models and one of its
    failures has error code 401 (or 429), the diagnostics log then holds
    an entry with that status, so that [format_error_for_user] on the log
    lists the invalid-key (or rate-limit) cause. *)
Theorem report_agrees_with_recommendations sp um pm w a code cause :
  wf w → (length (error_log w) ≤ 50)%nat →
  (verify_with_fallback sp um pm w).1 = inr (AllFailed a) →
  (length (af_errors a) ≤ 50)%nat →
  (code = 401 ∧ cause = cause_invalid_key ∨
   code = 429 ∧ cause = cause_rate_limited) →
  (∃ c, c ∈ af_errors a ∧ cf_error_code c = Some (CodeInt code)) →
  (∃ e, e ∈ error_log (verify_with_fallback sp um pm w).2 ∧
        status_code e = Some code) ∧
  cause ∈ format_lines (error_log (verify_with_fallback sp um pm w).2).
Proof.
  intros Hwf Hlen Hrun Hmodels Hcase (c&Hin&Hcode).
  destruct (fallback_logs sp um pm w Hwf) as (failures&logged&Hall&Hlog&Ha).
  rewrite (Ha a Hrun) in Hin, Hmodels.
  assert (Hentry : ∃ e, e ∈ logged ∧ status_code e = Some code).
  { clear Hlog Ha. induction Hall as [|c' e' failures logged Hrec _ IH].
    - by apply elem_of_nil in Hin.
    - apply elem_of_cons in Hin as [<-|Hin].
      + exists e'. split; [left|].
        destruct Hrec as (_&_&->). by rewrite Hcode.
      + cbn in Hmodels. destruct IH as (e&He&Hs); [lia|done|].
        exists e. split; [by right|done]. }
  destruct Hentry as (e&He&Hs).
  assert (Hlogged : e ∈ error_log (verify_with_fallback sp um pm w).2).
  { rewrite Hlog, fold_appended_last_n by done.
    apply elem_of_last_n_recent; [done|].
    by rewrite <- (Forall2_length _ _ _ Hall). }
  split; [eauto|]. apply (cause_listed code); [done|].
  apply has_status_exists. eauto.
Qed.

End Properties.

(** * The theorems at work on the example configuration *)

Module Witnesses.
Import Demo.

#[local] Existing Instances demo_config demo_network.

Ltac by_compute := apply (bool_decide_unpack _); vm_compute; exact I.

Lemma demo_reachable (accepted : bool) : reachable (init_world accepted).
Proof. exists accepted. apply rtc_refl. Qed.

Lemma retry_exhausts_attempts_witness :
  let self := provider_of "glm" glm in
  let w := init_world false in
  let n := Z.to_nat RETRY_ATTEMPTS in
  let run := _call_api_with_retry self request 0.5%float 4096 w in
  let added := exhausted_trace self request 0.5%float 4096 n in
  (∀ i, (i < n)%nat →
     retryable (response glm request 0.5%float 4096 i (net w))) ∧
  (trace run.2 = trace w ++ added ∧
   api_calls added = replicate n "glm" ∧
   sleeps added =
     map (λ i, Z.min (RETRY_MIN_WAIT * 2 ^ Z.of_nat i) RETRY_MAX_WAIT)
         (seq 0 (n - 1)) ∧
   ((0 < n)%nat →
      run.1 = response glm request 0.5%float 4096 (n - 1) (net w) ∧
      retryable run.1 ∧
      last added = Some (EvApiCall "glm" request 0.5%float 4096))).
Proof.
  intros self w n run added.
  assert (Hall : ∀ i, (i < n)%nat →
            retryable (response glm request 0.5%float 4096 i (net w))).
  { intros i Hi. destruct i as [|[|[|i]]]; [| | |vm_compute in Hi; lia];
      by_compute. }
  split; [exact Hall|].
  exact (retry_exhausts_attempts self request 0.5%float 4096 w Hall).
Defined.

Lemma non_retryable_fails_at_once_witness :
  let self := provider_of "gem" gem in
  let w := init_world false in
  let run := _call_api_with_retry self request 0.5%float 4096 w in
  0 < RETRY_ATTEMPTS ∧
  non_retryable (response gem request 0.5%float 4096 0 (net w)) ∧
  (run.1 = response gem request 0.5%float 4096 0 (net w) ∧
   trace run.2 = trace w ++ [EvApiCall "gem" request 0.5%float 4096] ∧
   net run.2 = net_after gem request 0.5%float 4096 1 (net w)).
Proof.
  intros self w run.
  assert (Hpos : 0 < RETRY_ATTEMPTS) by (vm_compute; reflexivity).
  assert (Hfail : non_retryable
                    (response gem request 0.5%float 4096 0 (net w)))
    by by_compute.
  split; [exact Hpos|]. split; [exact Hfail|].
  exact (non_retryable_fails_at_once self request 0.5%float 4096 w
           Hpos Hfail).
Defined.

Lemma all_models_failed_witness :
  failed_endings system_prompt user_message
    ("glm" :: get_fallback_models "glm") (init_world false) =
    Some (all_down_endings, all_down.2) ∧
  map (λ kx, collected_for kx.1 kx.2) all_down_endings =
    [ {| cf_model := "glm"; cf_error := "API Error: 503 - overloaded";
         cf_error_code := Some (CodeInt 503) |};
      {| cf_model := "gem"; cf_error := "API Error: 401 - bad key";
         cf_error_code := Some (CodeInt 401) |};
      {| cf_model := "qwen"; cf_error := "KeyError: 'choices'";
         cf_error_code := None |} ] ∧
  ∃ a,
    verify_with_fallback system_prompt user_message "glm"
      (init_world false) = (inr (AllFailed a), all_down.2) ∧
    af_errors a = map (λ kx, collected_for kx.1 kx.2) all_down_endings ∧
    map fst all_down_endings = "glm" :: get_fallback_models "glm" ∧
    map cf_model (af_errors a) = "glm" :: get_fallback_models "glm" ∧
    (rec_api_keys ∈ af_recommendations a ↔
     ∃ c, c ∈ af_errors a ∧ cf_error_code c = Some (CodeInt 401)) ∧
    (rec_api_keys ∈ af_recommendations a ↔
     ∃ key self text msg,
       (key, CallFailed self (HTTPStatusError 401 text msg)) ∈
       all_down_endings).
Proof.
  assert (Hall : failed_endings system_prompt user_message
                   ("glm" :: get_fallback_models "glm") (init_world false) =
                 Some (all_down_endings, all_down.2))
    by (vm_compute; reflexivity).
  split; [exact Hall|]. split; [vm_compute; reflexivity|].
  exact (all_models_failed system_prompt user_message "glm"
           (init_world false) all_down_endings all_down.2 Hall).
Defined.

Lemma first_fallback_success_witness :
  failed_attempt system_prompt user_message "glm" (init_world true) =
    Some (glm_down.1, glm_down.2) ∧
  get_fallback_models "glm" = [] ++ "gem" :: ["qwen"] ∧
  failed_attempts system_prompt user_message [] glm_down.2 =
    Some ([], glm_down.2) ∧
  attempt system_prompt user_message "gem" glm_down.2 =
    (inr (Success gem_success), gem_up.2) ∧
  verify_with_fallback system_prompt user_message "glm" (init_world true) =
  (inr (FSuccess
          {| verdict := JStr "LGTM"; s_model := "Gemini";
             s_model_key := "gem";
             tokens_used := JObj (<["total_tokens" := JInt 2000]> ∅);
             cost := 0.8%float; fallback_used := Some true;
             primary_model_failed := Some "glm" |}),
   gem_up.2).
Proof.
  assert (H1 : failed_attempt system_prompt user_message "glm"
                 (init_world true) = Some (glm_down.1, glm_down.2))
    by (vm_compute; reflexivity).
  assert (H2 : get_fallback_models "glm" = [] ++ "gem" :: ["qwen"])
    by (vm_compute; reflexivity).
  assert (H3 : failed_attempts system_prompt user_message [] glm_down.2 =
               Some ([], glm_down.2)) by reflexivity.
  assert (H4 : attempt system_prompt user_message "gem" glm_down.2 =
               (inr (Success gem_success), gem_up.2))
    by (vm_compute; reflexivity).
  split; [exact H1|]. split; [exact H2|]. split; [exact H3|].
  split; [exact H4|].
  exact (first_fallback_success system_prompt user_message "glm"
           (init_world true) glm_down.1 glm_down.2 [] "gem" ["qwen"] []
           glm_down.2 gem_success gem_up.2 H1 H2 H3 H4).
Defined.

Lemma verify_with_fallback_never_raises_witness :
  let w := init_world true in
  let keys := "off" :: get_fallback_models "off" in
  let run := verify_with_fallback system_prompt user_message "off" w in
  wf w ∧
  run.1 = inr (FSuccess off_fallback) ∧
  error_log run.2 =
    [ {| timestamp := "2025-01-01T00:00:0"; model := "off";
         error_type := "Provider Error";
         details :=
           "ValueError: Model off is not enabled (missing API key)";
         status_code := None |};
      {| timestamp := "2025-01-01T00:00:1"; model := "glm";
         error_type := "HTTP Error";
         details := "API Error: 503 - overloaded";
         status_code := Some 503 |} ] ∧
  (∃ r, run.1 = inr r ∧ ((∃ s, r = FSuccess s) ∨ (∃ a, r = AllFailed a))) ∧
  ∃ tried xs w1,
    failed_endings system_prompt user_message tried w = Some (xs, w1) ∧
    map fst xs = tried ∧
    ((tried = keys ∧
      ∃ a, run = (inr (AllFailed a), w1) ∧
           af_errors a = map (λ kx, collected_for kx.1 kx.2) xs) ∨
     (∃ key rest s w2,
        keys = tried ++ key :: rest ∧
        attempt system_prompt user_message key w1 =
          (inr (Success s), w2) ∧
        run =
          (inr (FSuccess match tried with
                         | [] => s
                         | _ => with_fallback "off" s
                         end), w2))) ∧
    (wf w →
     error_log run.2 =
       fold_left appended
         (entries_of (clock w) (map (λ kx, logged_for kx.1 kx.2) xs))
         (error_log w) ∧
     Forall (λ kx, lc_model (logged_for kx.1 kx.2) = kx.1) xs).
Proof.
  intros w keys run.
  split; [exact (wf_init_world (network := demo_network) true)|].
  split; [vm_compute; reflexivity|]. split; [vm_compute; reflexivity|].
  exact (verify_with_fallback_never_raises system_prompt user_message
           "off" w).
Defined.

Lemma diagnostics_log_bounded_witness :
  let w := init_world false in
  reachable w ∧
  (length (error_log w) ≤ 50)%nat ∧
  Forall (λ e, (String.length (details e) ≤ 500)%nat) (error_log w) ∧
  (∀ calls,
     let w1 := (record_all calls w).2 in
     (length (error_log w1) ≤ 50)%nat ∧
     ∃ copy,
       (get_error_log w1).1 = inr copy ∧
       entries_at (get_error_log w1).2 copy =
       last_n 50 (error_log w ++ entries_of (clock w) calls) ∧
       (length calls = 55%nat →
        entries_at (get_error_log w1).2 copy =
        drop 5 (entries_of (clock w) calls))) ∧
  (∃ copy,
     (get_error_log w).1 = inr copy ∧ copy ≠ error_log_loc ∧
     entries_at (get_error_log w).2 copy = error_log w ∧
     ∀ content,
       error_log (list_assign copy content (get_error_log w).2) =
       error_log w).
Proof.
  intros w. split; [apply demo_reachable|].
  exact (diagnostics_log_bounded w (demo_reachable false)).
Defined.

Lemma provider_resolution_witness :
  let w := init_world false in
  reachable w ∧
  (MODELS !! "off" = None ∨
   ∃ c, MODELS !! "off" = Some c ∧ enabled c = false) ∧
  (∃ msg,
     (ModelProvider__init__ "off" w).1 =
       inl (PyException "ValueError" msg) ∧
     (get_provider "off" w).1 = inl (PyException "ValueError" msg) ∧
     trace (get_provider "off" w).2 = trace w ∧
     net (get_provider "off" w).2 = net w ∧
     providers (get_provider "off" w).2 = providers w) ∧
  MODELS !! "gem" = Some gem ∧ enabled gem = true ∧
  (∃ p,
     (get_provider "gem" w).1 = inr p ∧ config p = gem ∧
     model_key p = "gem" ∧
     trace (get_provider "gem" w).2 = trace w ∧
     net (get_provider "gem" w).2 = net w ∧
     ∀ w', rtc step (get_provider "gem" w).2 w' →
       get_provider "gem" w' = (inr p, w')).
Proof.
  intros w.
  assert (Hoff : MODELS !! "off" = None ∨
                 ∃ c, MODELS !! "off" = Some c ∧ enabled c = false).
  { right. exists off. split; vm_compute; reflexivity. }
  assert (Hgem : MODELS !! "gem" = Some gem) by (vm_compute; reflexivity).
  assert (Hen : enabled gem = true) by reflexivity.
  split; [apply demo_reachable|]. split; [exact Hoff|].
  split; [exact (proj1 (provider_resolution "off" w (demo_reachable false))
                   Hoff)|].
  split; [exact Hgem|]. split; [exact Hen|].
  exact (proj2 (provider_resolution "gem" w (demo_reachable false))
           gem Hgem Hen).
Defined.

Lemma success_cost_witness :
  let self := provider_of "gem" gem in
  let w := init_world true in
  let w' := (verify_code self system_prompt user_message w).2 in
  verify_code self system_prompt user_message w =
    (inr (Success gem_success), w') ∧
  ∃ data,
    (_call_api_with_retry self request DEFAULT_TEMPERATURE
                          DEFAULT_MAX_TOKENS w).1 = inr data ∧
    dict_get data "usage" (JObj ∅) = inr (tokens_used gem_success) ∧
    (∀ m, data = JObj m → m !! "usage" = None →
          cost gem_success = 0%float) ∧
    (truthy (tokens_used gem_success) = false →
     cost gem_success = 0%float) ∧
    (truthy (tokens_used gem_success) = true →
       ∃ u q,
         tokens_used gem_success = JObj u ∧
         truediv_1000 (default (JInt 0) (u !! "total_tokens")) = inr q ∧
         cost gem_success =
         PrimFloat.mul q (default 0%float (cost_per_1k_tokens gem))) ∧
    (∀ u z,
       tokens_used gem_success = JObj u → truthy (JObj u) = true →
       default (JInt 0) (u !! "total_tokens") = JInt z →
       ∃ q, int_truediv z 1000 = inr q ∧
            cost gem_success =
            PrimFloat.mul q (default 0%float (cost_per_1k_tokens gem))) ∧
    (∀ u f,
       tokens_used gem_success = JObj u →
       u !! "total_tokens" = Some (JFloat f) →
       cost gem_success =
       PrimFloat.mul (PrimFloat.div f 1000%float)
                     (default 0%float (cost_per_1k_tokens gem))) ∧
    (∀ u,
       tokens_used gem_success = JObj u →
       u !! "total_tokens" = Some (JInt 2000) →
       cost_per_1k_tokens gem = Some 0.4%float →
       cost gem_success = 0.8%float).
Proof.
  intros self w w'.
  assert (Hrun : verify_code self system_prompt user_message w =
                 (inr (Success gem_success), w'))
    by (vm_compute; reflexivity).
  split; [exact Hrun|].
  exact (success_cost self system_prompt user_message w gem_success w'
           Hrun).
Defined.

Lemma verify_code_malformed_body_witness :
  let self := provider_of "qwen" qwen in
  let w := init_world false in
  wf w ∧
  _call_api_with_retry self request DEFAULT_TEMPERATURE DEFAULT_MAX_TOKENS
                       w = (inr (JObj ∅), qwen_answered) ∧
  extract_verdict (JObj ∅) = inl (PyException "KeyError" "'choices'") ∧
  ∃ ty msg,
    PyException "KeyError" "'choices'" = PyException ty msg ∧
    ty ∈ ["KeyError"; "IndexError"; "TypeError"] ∧
    (verify_code self system_prompt user_message w).1 =
      inr (Failure {| f_error := ty +:+ ": " +:+ msg;
                      f_error_code := None;
                      f_model := name (config self);
                      f_model_key := model_key self |}) ∧
    error_log (verify_code self system_prompt user_message w).2 =
      appended (error_log w)
        {| timestamp := isoformat (clock w); model := model_key self;
           error_type := ty;
           details := PyStr.take 500 (ty +:+ ": " +:+ msg);
           status_code := None |}.
Proof.
  intros self w.
  assert (Hwf : wf w)
    by exact (wf_init_world (network := demo_network) false).
  assert (Hcall : _call_api_with_retry self request DEFAULT_TEMPERATURE
                    DEFAULT_MAX_TOKENS w = (inr (JObj ∅), qwen_answered))
    by (vm_compute; reflexivity).
  assert (Hbad : extract_verdict (JObj ∅) =
                 inl (PyException "KeyError" "'choices'"))
    by (vm_compute; reflexivity).
  split; [exact Hwf|]. split; [exact Hcall|]. split; [exact Hbad|].
  exact (proj1 (proj2 (verify_code_malformed_body self system_prompt
                         user_message w))
           (JObj ∅) qwen_answered _ Hwf Hcall Hbad).
Defined.

Lemma format_error_for_user_spec_witness :
  six_errors ≠ [] ∧
  format_error_for_user six_errors =
    PyStr.join NL
      [ "## Recent Errors"; EmptyString;
        "- **glm**: HTTP Error (HTTP 503)";
        "  - API Error: 503 - overloaded";
        "- **qwen**: KeyError";
        "  - KeyError: 'choices'";
        "- **glm**: Timeout";
        "  - Request timed out after 60s";
        "- **off**: Provider Error";
        "  - ValueError: Model off is not enabled (missing API key)";
        "- **glm**: HTTP Error";
        "  - " +:+ PyStr.take 150 long_details;
        EmptyString; "## Possible Causes"; EmptyString;
        cause_invalid_key ] ∧
  ∃ causes,
    let shown := drop (length six_errors - 5) six_errors in
    format_error_for_user six_errors =
      PyStr.join NL
        (["## Recent Errors" +:+ NL] ++
         flat_map
           (λ err,
              [ "- **" +:+ model err +:+ "**: " +:+ error_type err +:+
                match status_code err with
                | Some c => if negb (c =? 0)
                            then " (HTTP " +:+ pretty c +:+ ")"
                            else EmptyString
                | None => EmptyString
                end;
                "  - " +:+ PyStr.take 150 (details err) ])
           shown ++
         [NL +:+ "## Possible Causes" +:+ NL] ++ causes) ∧
    length shown = (length six_errors `min` 5)%nat ∧
    (∃ older, six_errors = older ++ shown) ∧
    (cause_invalid_key ∈ causes ↔
       ∃ e, e ∈ six_errors ∧ status_code e = Some 401) ∧
    (cause_rate_limited ∈ causes ↔
       ∃ e, e ∈ six_errors ∧ status_code e = Some 429) ∧
    (cause_timeout ∈ causes ↔
       ∃ e, e ∈ six_errors ∧
            PyStr.contains "timeout" (PyStr.lower (details e)) = true) ∧
    (cause_connection ∈ causes ↔
       ∃ e, e ∈ six_errors ∧
            PyStr.contains "connect" (PyStr.lower (details e)) = true) ∧
    (cause_status_pages ∈ causes ∧ cause_credits ∈ causes ↔
       (cause_invalid_key ∉ causes) ∧ (cause_rate_limited ∉ causes) ∧
       (cause_timeout ∉ causes) ∧ (cause_connection ∉ causes)).
Proof.
  assert (Hne : six_errors ≠ []) by discriminate.
  split; [exact Hne|]. split; [vm_compute; reflexivity|].
  exact (proj2 (proj2 format_error_for_user_spec) six_errors Hne).
Defined.

End Witnesses.

(** * The further properties at work on the example configuration *)

Module MoreWitnesses.
Import Demo.

#[local] Existing Instances demo_config demo_network.

Ltac by_compute := apply (bool_decide_unpack _); vm_compute; exact I.

Lemma retry_ends_at_first_final_witness :
  let self := provider_of "glm" glm in
  let w := init_world (network := flaky_network) 0%nat in
  let run :=
    _call_api_with_retry (network := flaky_network) self request
                         0.5%float 4096 w in
  (2 < Z.to_nat RETRY_ATTEMPTS)%nat ∧
  (∀ i, (i < 2)%nat →
     retryable (response (network := flaky_network) glm request
                         0.5%float 4096 i (net w))) ∧
  ¬ retryable (response (network := flaky_network) glm request
                        0.5%float 4096 2 (net w)) ∧
  (run.1 = response (network := flaky_network) glm request 0.5%float
                    4096 2 (net w) ∧
   trace run.2 =
     trace w ++ exhausted_trace self request 0.5%float 4096 3 ∧
   api_calls (exhausted_trace self request 0.5%float 4096 3) =
     replicate 3 "glm" ∧
   sleeps (exhausted_trace self request 0.5%float 4096 3) =
     map (λ i, Z.min (RETRY_MIN_WAIT * 2 ^ Z.of_nat i) RETRY_MAX_WAIT)
         (seq 0 2) ∧
   net run.2 =
     net_after (network := flaky_network) glm request 0.5%float 4096 3
               (net w)).
Proof.
  intros self w run.
  assert (Hk : (2 < Z.to_nat RETRY_ATTEMPTS)%nat) by (vm_compute; lia).
  assert (Hbefore : ∀ i, (i < 2)%nat →
            retryable (response (network := flaky_network) glm request
                                0.5%float 4096 i (net w))).
  { intros i Hi. destruct i as [|[|i]]; [| |lia]; by_compute. }
  assert (Hfinal : ¬ retryable (response (network := flaky_network) glm
                                  request 0.5%float 4096 2 (net w)))
    by by_compute.
  split; [exact Hk|]. split; [exact Hbefore|]. split; [exact Hfinal|].
  exact (retry_ends_at_first_final (network := flaky_network) self request
           0.5%float 4096 w 2 Hk Hbefore Hfinal).
Defined.

Lemma no_attempts_allowed_witness :
  let self := provider_of "glm" glm in
  let w := init_world false in
  RETRY_ATTEMPTS (Config := no_retry_config) ≤ 0 ∧
  (_call_api_with_retry (cfg := no_retry_config) self request 0.5%float
                        4096 w =
     (inl (PyException "TypeError"
             "exceptions must derive from BaseException"), w) ∧
   verify_code (cfg := no_retry_config) self system_prompt user_message w =
     (inr (Failure
             {| f_error :=
                  "TypeError: exceptions must derive from BaseException";
                f_error_code := None; f_model := name (config self);
                f_model_key := model_key self |}),
      (log_error (model_key self) "TypeError"
         "TypeError: exceptions must derive from BaseException" None
         w).2)).
Proof.
  intros self w.
  assert (Hn : RETRY_ATTEMPTS (Config := no_retry_config) ≤ 0)
    by (vm_compute; discriminate).
  split; [exact Hn|].
  exact (no_attempts_allowed (cfg := no_retry_config) self system_prompt
           user_message request 0.5%float 4096 w Hn).
Defined.

Lemma snapshot_is_stable_witness :
  let w := (log_error "glm" "Timeout" "Request timed out after 60s" None
              (init_world false)).2 in
  let w' := (clear_error_log (get_error_log w).2).2 in
  wf w ∧ rtc step (get_error_log w).2 w' ∧
  ∃ copy,
    (get_error_log w).1 = inr copy ∧
    list_at w' copy = list_at w error_log_loc ∧
    entries_at w' copy = error_log w.
Proof.
  intros w w'.
  assert (Hwf : wf w)
    by exact (wf_log_error _ _ _ _ _
                (wf_init_world (network := demo_network) false)).
  assert (Hsteps : rtc step (get_error_log w).2 w')
    by exact (rtc_once _ _ (step_clear_error_log (get_error_log w).2)).
  split; [exact Hwf|]. split; [exact Hsteps|].
  exact (snapshot_is_stable w w' Hwf Hsteps).
Defined.

Lemma clear_then_record_witness :
  let w := init_world false in
  let calls :=
    [ {| lc_model := "glm"; lc_error_type := "Timeout";
         lc_details := "Request timed out after 60s";
         lc_status_code := None |} ] in
  let w' := (record_all calls (clear_error_log w).2).2 in
  wf w ∧
  error_log (clear_error_log w).2 = [] ∧
  error_log w' = last_n 50 (entries_of (clock w) calls) ∧
  ((length calls ≤ 50)%nat → error_log w' = entries_of (clock w) calls).
Proof.
  intros w calls w'.
  assert (Hwf : wf w)
    by exact (wf_init_world (network := demo_network) false).
  split; [exact Hwf|]. exact (clear_then_record w calls Hwf).
Defined.

Lemma verify_code_logs_its_failure_witness :
  let self := provider_of "gem" gem in
  let w := init_world false in
  wf w ∧
  ∃ o,
    (verify_code self system_prompt user_message w).1 = inr o ∧
    match o with
    | Success s =>
        error_log (verify_code self system_prompt user_message w).2 =
          error_log w ∧
        s_model s = name (config self) ∧ s_model_key s = model_key self ∧
        fallback_used s = None ∧ primary_model_failed s = None
    | Failure f =>
        f_model f = name (config self) ∧ f_model_key f = model_key self ∧
        ∃ e,
          error_log (verify_code self system_prompt user_message w).2 =
            appended (error_log w) e ∧
          timestamp e = isoformat (clock w) ∧
          model e = model_key self ∧
          details e = PyStr.take 500 (f_error f) ∧
          status_code e =
            match f_error_code f with
            | Some (CodeInt z) => Some z
            | _ => None
            end
    end.
Proof.
  intros self w.
  assert (Hwf : wf w)
    by exact (wf_init_world (network := demo_network) false).
  split; [exact Hwf|].
  exact (verify_code_logs_its_failure self system_prompt user_message w
           Hwf).
Defined.

Lemma verify_code_error_codes_witness :
  let self := provider_of "glm" glm in
  let w := init_world false in
  let e := HTTPStatusError 503 "overloaded"
             "Server error '503 Service Unavailable'" in
  let run := verify_code self system_prompt user_message w in
  wf w ∧
  (2 < Z.to_nat RETRY_ATTEMPTS)%nat ∧
  (∀ i, (i < 2)%nat →
     retryable (response glm request DEFAULT_TEMPERATURE DEFAULT_MAX_TOKENS
                         i (net w))) ∧
  response glm request DEFAULT_TEMPERATURE DEFAULT_MAX_TOKENS 2 (net w) =
    inl e ∧
  (retryable (inl e) → 3%nat = Z.to_nat RETRY_ATTEMPTS) ∧
  ∃ f entry,
    run.1 = inr (Failure f) ∧
    f_model f = name glm ∧ f_model_key f = "glm" ∧
    (f_error_code f = Some (CodeInt 503) ∧
     f_error f =
       "API Error: " +:+ pretty 503 +:+ " - " +:+
       PyStr.take 300 "overloaded" ∧
     error_type entry = "HTTP Error" ∧ status_code entry = Some 503) ∧
    timestamp entry = isoformat (clock w) ∧
    model entry = "glm" ∧
    details entry = PyStr.take 500 (f_error f) ∧
    error_log run.2 = appended (error_log w) entry ∧
    trace run.2 =
      trace w ++
      exhausted_trace self request DEFAULT_TEMPERATURE DEFAULT_MAX_TOKENS
                      3 ++
      [EvStderr ("[ARGUS ERROR] " +:+ "glm" +:+ ": " +:+
                 error_type entry +:+ " - " +:+
                 PyStr.take 200 (f_error f))].
Proof.
  intros self w e run.
  assert (Hwf : wf w)
    by exact (wf_init_world (network := demo_network) false).
  assert (Hk : (2 < Z.to_nat RETRY_ATTEMPTS)%nat) by (vm_compute; lia).
  assert (Hbefore : ∀ i, (i < 2)%nat →
            retryable (response glm request DEFAULT_TEMPERATURE
                                DEFAULT_MAX_TOKENS i (net w))).
  { intros i Hi. destruct i as [|[|i]]; [| |lia]; by_compute. }
  assert (He : response glm request DEFAULT_TEMPERATURE DEFAULT_MAX_TOKENS
                        2 (net w) = inl e) by (vm_compute; reflexivity).
  assert (Hlast : retryable (inl e : exn + json) →
                  3%nat = Z.to_nat RETRY_ATTEMPTS)
    by (intros _; vm_compute; reflexivity).
  split; [exact Hwf|]. split; [exact Hk|]. split; [exact Hbefore|].
  split; [exact He|]. split; [exact Hlast|].
  exact (verify_code_error_codes self system_prompt user_message w 2 e
           Hwf Hk Hbefore He Hlast).
Defined.

Lemma fallback_requests_bounded_witness :
  let w := init_world false in
  wf w ∧
  ∃ evs,
    trace (verify_with_fallback system_prompt user_message "glm" w).2 =
      trace w ++ evs ∧
    (∀ k, k ∈ api_calls evs →
          k ∈ "glm" :: get_fallback_models "glm" ∧ enabled_key k) ∧
    (length (api_calls evs) ≤
     Z.to_nat RETRY_ATTEMPTS * S (length (get_fallback_models "glm")))%nat.
Proof.
  intros w.
  assert (Hwf : wf w)
    by exact (wf_init_world (network := demo_network) false).
  split; [exact Hwf|].
  exact (fallback_requests_bounded system_prompt user_message "glm" w Hwf).
Defined.

Lemma success_provenance_witness :
  let w := init_world true in
  wf w ∧
  (verify_with_fallback system_prompt user_message "glm" w).1 =
    inr (FSuccess gem_fallback) ∧
  enabled_key (s_model_key gem_fallback) ∧
  (((∃ w', attempt system_prompt user_message "glm" w =
             (inr (Success gem_fallback), w')) ∧
    s_model_key gem_fallback = "glm" ∧ fallback_used gem_fallback = None ∧
    primary_model_failed gem_fallback = None) ∨
   ((∃ c w', failed_attempt system_prompt user_message "glm" w =
               Some (c, w')) ∧
    s_model_key gem_fallback ∈ get_fallback_models "glm" ∧
    fallback_used gem_fallback = Some true ∧
    primary_model_failed gem_fallback = Some "glm")).
Proof.
  intros w.
  assert (Hwf : wf w)
    by exact (wf_init_world (network := demo_network) true).
  assert (Hrun : (verify_with_fallback system_prompt user_message "glm"
                    w).1 = inr (FSuccess gem_fallback))
    by (vm_compute; reflexivity).
  split; [exact Hwf|]. split; [exact Hrun|].
  exact (success_provenance system_prompt user_message "glm" w
           gem_fallback Hwf Hrun).
Defined.

Lemma unresolved_primary_falls_back_witness :
  let w := init_world true in
  let run := verify_with_fallback system_prompt user_message "off" w in
  wf w ∧ ¬ enabled_key "off" ∧
  run.1 = inr (FSuccess off_fallback) ∧
  api_calls (trace run.2) = ["glm"; "glm"; "glm"; "gem"] ∧
  ∃ msg r evs,
    (msg = "Unknown model: " +:+ "off" ∨
     msg = "Model " +:+ "off" +:+ " is not enabled (missing API key)") ∧
    run.1 = inr r ∧
    trace run.2 = trace w ++ evs ∧
    ("off" ∉ api_calls evs) ∧
    match r with
    | AllFailed a =>
        head (af_errors a) =
        Some {| cf_model := "off"; cf_error := "ValueError: " +:+ msg;
                cf_error_code := None |}
    | FSuccess s =>
        fallback_used s = Some true ∧ primary_model_failed s = Some "off"
    end ∧
    (get_provider "off" w).1 = inl (PyException "ValueError" msg) ∧
    let c := {| cf_model := "off"; cf_error := "ValueError: " +:+ msg;
                cf_error_code := None |} in
    let w0 := (log_error "off" "Provider Error" ("ValueError: " +:+ msg)
                 None (get_provider "off" w).2).2 in
    ∃ tried xs w1,
      failed_endings system_prompt user_message tried w0 = Some (xs, w1) ∧
      ((tried = get_fallback_models "off" ∧
        run =
          (inr (AllFailed
                  (all_failed "off" (get_fallback_models "off")
                     (c :: map (λ kx, collected_for kx.1 kx.2) xs))),
           w1)) ∨
       (∃ key rest s w2,
          get_fallback_models "off" = tried ++ key :: rest ∧
          attempt system_prompt user_message key w1 =
            (inr (Success s), w2) ∧
          run = (inr (FSuccess (with_fallback "off" s)), w2))).
Proof.
  intros w run.
  assert (Hwf : wf w)
    by exact (wf_init_world (network := demo_network) true).
  assert (Hoff : ¬ enabled_key "off") by by_compute.
  split; [exact Hwf|]. split; [exact Hoff|].
  split; [vm_compute; reflexivity|]. split; [vm_compute; reflexivity|].
  exact (unresolved_primary_falls_back system_prompt user_message "off" w
           Hwf Hoff).
Defined.

Lemma format_lines_shape_witness :
  some_errors ≠ [] ∧
  ∃ causes,
    format_lines some_errors =
      ["## Recent Errors" +:+ NL] ++
      flat_map entry_lines (last_n 5 some_errors) ++
      [NL +:+ "## Possible Causes" +:+ NL] ++ causes ∧
    length (flat_map entry_lines (last_n 5 some_errors)) =
      (2 * (length some_errors `min` 5))%nat ∧
    causes ≠ [] ∧ NoDup causes ∧
    (causes `sublist_of`
       [cause_invalid_key; cause_rate_limited; cause_timeout;
        cause_connection] ∨
     causes = [cause_status_pages; cause_credits]).
Proof.
  assert (Hne : some_errors ≠ []) by discriminate.
  split; [exact Hne|]. exact (format_lines_shape some_errors Hne).
Defined.

Lemma report_agrees_with_recommendations_witness :
  let w := init_world false in
  let run := verify_with_fallback system_prompt user_message "glm" w in
  wf w ∧ (length (error_log w) ≤ 50)%nat ∧
  run.1 = inr (AllFailed all_down_dict) ∧
  (length (af_errors all_down_dict) ≤ 50)%nat ∧
  (401 = 401 ∧ cause_invalid_key = cause_invalid_key ∨
   401 = 429 ∧ cause_invalid_key = cause_rate_limited) ∧
  (∃ c, c ∈ af_errors all_down_dict ∧
        cf_error_code c = Some (CodeInt 401)) ∧
  (∃ e, e ∈ error_log run.2 ∧ status_code e = Some 401) ∧
  cause_invalid_key ∈ format_lines (error_log run.2).
Proof.
  intros w run.
  assert (Hwf : wf w)
    by exact (wf_init_world (network := demo_network) false).
  assert (Hlen : (length (error_log w) ≤ 50)%nat) by (vm_compute; lia).
  assert (Hrun : run.1 = inr (AllFailed all_down_dict))
    by (vm_compute; reflexivity).
  assert (Hmodels : (length (af_errors all_down_dict) ≤ 50)%nat)
    by (vm_compute; lia).
  assert (Hcase : 401 = 401 ∧ cause_invalid_key = cause_invalid_key ∨
                  401 = 429 ∧ cause_invalid_key = cause_rate_limited)
    by (left; split; reflexivity).
  assert (Hc : ∃ c, c ∈ af_errors all_down_dict ∧
                    cf_error_code c = Some (CodeInt 401)).
  { exists {| cf_model := "gem"; cf_error := "API Error: 401 - bad key";
              cf_error_code := Some (CodeInt 401) |}.
    split; [|reflexivity]. right. left. }
  split; [exact Hwf|]. split; [exact Hlen|]. split; [exact Hrun|].
  split; [exact Hmodels|]. split; [exact Hcase|]. split; [exact Hc|].
  exact (report_agrees_with_recommendations system_prompt user_message
           "glm" w all_down_dict 401 cause_invalid_key Hwf Hlen Hrun
           Hmodels Hcase Hc).
Defined.

End MoreWitnesses.
